(** * ACC Supercharger: the cache-building pipeline

    A shallow embedding of [lib/users-api.js], [lib/companies-api.js],
    [lib/projects-api.js], [lib/cache-builder.js], [lib/aps-constants.js]
    and the cache orchestration of [background.js], followed by the
    properties the specification states about them.

    Modelling conventions.
    - A JavaScript string is a [string]: a sequence of code units below 256.
    - A raw upstream record (company, user, project, project member) is a
      duck-typed object: a finite map from field names to string values,
      [gmap string string]; an absent field reads as [None] ([undefined]).
    - Identifiers are opaque UUID-shaped strings, so plain objects used as
      dictionaries behave as maps from strings: no identifier is the name of a
      property inherited from [Object.prototype], and none is a canonical
      array index (for which key enumeration is numeric instead of
      insertion-ordered).
    - The network is a script: the list of responses the program receives,
      in the order it receives them. A request that finds the script empty
      fails like a rejected [fetch]. Every request is logged. *)

From Stdlib Require Import ZArith Ascii String DecimalString.
From stdpp Require Import base decidable option list gmap strings sorting.

Local Open Scope string_scope.
Local Open Scope list_scope.
Local Open Scope Z_scope.

(** ** JavaScript values *)

(** Truthiness of a string-valued field: [undefined] and the empty string
    are falsy. *)
Definition truthy (v : option string) : bool :=
  match v with
  | Some s => negb (String.eqb s "")
  | None => false
  end.

(** [a || b] on string-valued fields. *)
Definition js_or (a b : option string) : option string :=
  if truthy a then a else b.

(** [a || ""]. *)
Definition or_empty (a : option string) : string :=
  match js_or a (Some "") with
  | Some s => s
  | None => ""
  end.

(** A raw upstream record. *)
Abbreviation Obj := (gmap string string).

(** White space and line terminators removed by [String.prototype.trim],
    among the code units below 256: TAB, LF, VT, FF, CR, SPACE, NBSP. *)
Definition is_white (c : ascii) : bool :=
  let n := N_of_ascii c in
  ((9 <=? n) && (n <=? 13) || (n =? 32) || (n =? 160))%N.

Fixpoint trimStart (s : string) : string :=
  match s with
  | EmptyString => EmptyString
  | String c s' => if is_white c then trimStart s' else s
  end.

Fixpoint trimEnd (s : string) : string :=
  match s with
  | EmptyString => EmptyString
  | String c s' =>
      match trimEnd s' with
      | EmptyString => if is_white c then EmptyString else String c EmptyString
      | t => String c t
      end
  end.

Definition trim (s : string) : string := trimEnd (trimStart s).

(** [String.prototype.toLowerCase] on code units below 256: A-Z and the
    upper-case letters of the Latin-1 supplement (all of 192..222 but the
    multiplication sign 215) move up by 32. *)
Definition lower_ascii (c : ascii) : ascii :=
  let n := N_of_ascii c in
  if ((65 <=? n) && (n <=? 90) || (192 <=? n) && (n <=? 222) && negb (n =? 215))%N
  then ascii_of_N (n + 32) else c.

Fixpoint toLowerCase (s : string) : string :=
  match s with
  | EmptyString => EmptyString
  | String c s' => String (lower_ascii c) (toLowerCase s')
  end.

(** [String.prototype.localeCompare] is the platform's collation; only the
    sign of its result is used. It is a parameter of the development. *)
Class Collator := localeCompare : string → string → comparison.

(** What a collation guarantees: a consistent comparison (a total preorder). *)
Class CollatorLaws `{Collator} : Prop := {
  localeCompare_antisym a b : localeCompare a b = CompOpp (localeCompare b a);
  localeCompare_trans a b c :
    localeCompare a b ≠ Gt → localeCompare b c ≠ Gt → localeCompare a c ≠ Gt
}.

(** Comparison of code units, which is how the default [Array.prototype.sort]
    orders strings; it is also the collation the worked examples run with. *)
Definition codeUnitCompare : string → string → comparison := String.compare.

Definition codeUnitCollator : Collator := codeUnitCompare.

(** [Array.prototype.sort(cmp)] is stable: elements that compare equal keep
    their relative order. For a consistent comparator this determines the
    result, computed here by insertion from the right. *)
Fixpoint insertBy {A} (cmp : A → A → comparison) (x : A) (l : list A) : list A :=
  match l with
  | [] => [x]
  | y :: l' =>
      match cmp x y with
      | Gt => y :: insertBy cmp x l'
      | _ => x :: l
      end
  end.

Definition sortBy {A} (cmp : A → A → comparison) (l : list A) : list A :=
  foldr (insertBy cmp) [] l.

(** The comparator every [.sort] call of the cache builder passes:
    [(a, b) => (a.name || "").toLowerCase().localeCompare((b.name || "").toLowerCase())]. *)
Definition byName `{Collator} {A} (name : A → string) (a b : A) : comparison :=
  localeCompare (toLowerCase (name a)) (toLowerCase (name b)).

(** ** The network *)

Inductive Endpoint :=
  | AccountCompanies (accountId : string)
  | AccountUsers (accountId : string)
  | AccountProjects (accountId : string)
  | ProjectCompanies (accountId projectId : string)
  | ProjectUsers (projectId : string).

(** A page request carries the bearer token and the [limit]/[offset] cursor
    of its query string; the token request carries the client credentials. *)
Inductive Request :=
  | GetPage (url : Endpoint) (token : option string) (limit offset : Z)
  | PostToken (clientId clientSecret : string).

(** The JSON documents the program inspects: an array of records, an object
    with (possibly) a [results] array and a [pagination.totalResults] number,
    a token document; [BadJson] is a body on which [resp.json()] rejects. *)
Inductive Body :=
  | BadJson
  | JArray (items : list Obj)
  | JPage (results : option (list Obj)) (totalResults : option Z)
  | JToken (access_token : option string) (expires_in : option Z).

(** What a [fetch] gives: a rejection, or a response with its status, its
    text ([None] when [resp.text()] rejects) and its JSON. *)
Inductive Response :=
  | NetworkError
  | Http (status : Z) (text : option string) (json : Body).

(** [resp.ok]. *)
Definition ok (status : Z) : bool := (200 <=? status) && (status <=? 299).

Inductive Error :=
  | NetworkFailure
  | InvalidJson
  | ApiError (status : Z) (what : string) (body : string)
  | CredentialsNotConfigured
  | TokenRequestFailed (status : Z) (text : string)
  | NoAccountId
  | BuildInProgress.

(** How an [async] function settles. *)
Inductive Completion (A : Type) :=
  | Return (a : A)
  | Throw (e : Error).
Arguments Return {A} a.
Arguments Throw {A} e.

(** Progress notifications [(step, detail)]; the detail texts are kept
    symbolic. *)
Inductive Detail :=
  | FetchingCompanies | FoundCompanies (n : nat)
  | FetchingUsers | FoundUsers (n : nat)
  | FetchingProjects | FoundProjects (n : nat)
  | MappingCompanies | MappingProject (i n : nat) (label : string)
  | AssemblingCompanies | AssemblingProjects
  | CacheBuilt (companies projects : nat).

Record World := {
  pending : list Response;            (* responses still to come *)
  sent : list Request;                (* requests issued so far *)
  progress : list (string * Detail)   (* notifications emitted so far *)
}.

Definition notify (step : string) (detail : Detail) (w : World) : World :=
  {| pending := pending w; sent := sent w; progress := progress w ++ [(step, detail)] |}.

Definition len {A} (l : list A) : Z := Z.of_nat (length l).

(** ** The account-level fetchers

    The three [fetchAll] functions are one loop, up to the URL, the page
    size, the label of the error and the place of the batch in the payload. *)
Fixpoint paginate (what : string) (url : Z → Request) (limit : Z)
    (batchOf : Body → option (list Obj))
    (offset : Z) (acc : list Obj) (sent : list Request) (pending : list Response)
  : Completion (list Obj) * list Request * list Response :=
  let sent' := sent ++ [url offset] in
  match pending with
  | [] => (Throw NetworkFailure, sent', [])
  | NetworkError :: rest => (Throw NetworkFailure, sent', rest)
  | Http status text json :: rest =>
      if negb (ok status) then
        (Throw (ApiError status what (default "" text)), sent', rest)
      else
        match json with
        | BadJson => (Throw InvalidJson, sent', rest)
        | payload =>
            match batchOf payload with
            | None => (Return acc, sent', rest)
            | Some batch =>
                if len batch =? 0 then (Return acc, sent', rest)
                else if len batch <? limit then (Return (acc ++ batch), sent', rest)
                else paginate what url limit batchOf (offset + limit) (acc ++ batch) sent' rest
            end
        end
  end.

Definition fetchAllWith (what : string) (url : Z → Request) (limit : Z)
    (batchOf : Body → option (list Obj)) (w : World) : Completion (list Obj) * World :=
  let '(r, sent', pending') := paginate what url limit batchOf 0 [] (sent w) (pending w) in
  (r, {| pending := pending'; sent := sent'; progress := progress w |}).

(** [batch = await resp.json()], kept when [Array.isArray(batch)]. *)
Definition arrayBatch (payload : Body) : option (list Obj) :=
  match payload with
  | JArray items => Some items
  | _ => None
  end.

(** [batch = payload.results || payload], kept when [Array.isArray(batch)]. *)
Definition resultsBatch (payload : Body) : option (list Obj) :=
  match payload with
  | JArray items => Some items
  | JPage (Some results) _ => Some results
  | _ => None
  end.

Definition withNet {A} (w : World) (r : A * list Request * list Response) : A * World :=
  let '(a, sent', pending') := r in
  (a, {| pending := pending'; sent := sent'; progress := progress w |}).

(** ** lib/companies-api.js *)
Module CompaniesAPI.

Definition fetchAll (token : option string) (accountId : string)
  : World → Completion (list Obj) * World :=
  fetchAllWith "companies" (GetPage (AccountCompanies accountId) token 100) 100 arrayBatch.

(** The whole loop sits in one [try]: a rejected [fetch] or [json()]
    returns the empty list and drops what was collected; a response that
    is not [ok] leaves the loop and returns what was collected. *)
Fixpoint fetchProjectCompanies_loop (url : Z → Request) (limit offset : Z)
    (allCompanies : list Obj) (sent : list Request) (pending : list Response)
  : list Obj * list Request * list Response :=
  let sent' := sent ++ [url offset] in
  match pending with
  | [] => ([], sent', [])
  | NetworkError :: rest => ([], sent', rest)
  | Http status _ json :: rest =>
      if negb (ok status) then (allCompanies, sent', rest)
      else
        match json with
        | BadJson => ([], sent', rest)
        | JArray batch =>
            if len batch =? 0 then (allCompanies, sent', rest)
            else if len batch <? limit then (allCompanies ++ batch, sent', rest)
            else fetchProjectCompanies_loop url limit (offset + limit)
                   (allCompanies ++ batch) sent' rest
        | _ => (allCompanies, sent', rest)
        end
  end.

Definition fetchProjectCompanies (token : option string) (accountId projectId : string)
    (w : World) : list Obj * World :=
  withNet w (fetchProjectCompanies_loop
               (GetPage (ProjectCompanies accountId projectId) token 100) 100 0 []
               (sent w) (pending w)).

End CompaniesAPI.

(** ** lib/users-api.js *)
Module UsersAPI.

Definition displayUserName (user : Obj) : string :=
  let name := trim (or_empty (user !! "name")) in
  if negb (String.eqb name "") then name
  else
    let first := trim (or_empty (js_or (user !! "first_name") (user !! "firstName"))) in
    let last := trim (or_empty (js_or (user !! "last_name") (user !! "lastName"))) in
    trim (first +:+ " " +:+ last).

Definition fetchAll (token : option string) (accountId : string)
  : World → Completion (list Obj) * World :=
  fetchAllWith "users" (GetPage (AccountUsers accountId) token 100) 100 arrayBatch.

(** Here the [try] sits inside the loop: every failure leaves the loop
    and what was collected is returned. The cursor advances by the size
    of the page received. *)
Fixpoint fetchProjectUsers_loop (url : Z → Request) (limit offset : Z)
    (users : list Obj) (sent : list Request) (pending : list Response)
  : list Obj * list Request * list Response :=
  let sent' := sent ++ [url offset] in
  match pending with
  | [] => (users, sent', [])
  | NetworkError :: rest => (users, sent', rest)
  | Http status _ json :: rest =>
      if negb (ok status) then (users, sent', rest)
      else
        match json with
        | JPage (Some results) total =>
            if len results =? 0 then (users, sent', rest)
            else
              let users' := users ++ results in
              let offset' := offset + len results in
              if match total with Some t => t <=? offset' | None => false end
              then (users', sent', rest)
              else if len results <? limit then (users', sent', rest)
              else fetchProjectUsers_loop url limit offset' users' sent' rest
        | _ => (users, sent', rest)
        end
  end.

Definition fetchProjectUsers (token : option string) (projectId : string)
    (w : World) : list Obj * World :=
  withNet w (fetchProjectUsers_loop
               (GetPage (ProjectUsers projectId) token 100) 100 0 []
               (sent w) (pending w)).

End UsersAPI.

(** ** lib/projects-api.js *)
Module ProjectsAPI.

Definition fetchAll (token : option string) (accountId : string)
  : World → Completion (list Obj) * World :=
  fetchAllWith "projects" (GetPage (AccountProjects accountId) token 200) 200 resultsBatch.

End ProjectsAPI.

(** ** The cache records *)

(** A member embedded under a company: [{name, uuid, email}]. *)
Record Member := { m_name : string; m_uuid : string; m_email : string }.

(** A member of a project entry: [{name, uuid, email, companyId}]. *)
Record ProjectMember := {
  pm_name : string; pm_uuid : string; pm_email : string; pm_companyId : string
}.

(** A project embedded under a company: [{name, uuid, platform, members}]. *)
Record ProjectRecord := {
  pr_name : string; pr_uuid : string; pr_platform : string; pr_members : list Member
}.

(** A company embedded under a project: [{name, uuid}]. *)
Record CompanyRecord := { cr_name : string; cr_uuid : string }.

(** An entry of [companiesCache]: [{name, uuid, projects, users}]. *)
Record CompanyEntry := {
  ce_name : string; ce_uuid : string;
  ce_projects : list ProjectRecord; ce_users : list Member
}.

(** An entry of [projectsCache]: [{name, uuid, platform, members, companies}]. *)
Record ProjectEntry := {
  pe_name : string; pe_uuid : string; pe_platform : string;
  pe_members : list ProjectMember; pe_companies : list CompanyRecord
}.

Record Caches := {
  companiesCache : list CompanyEntry;
  projectsCache : list ProjectEntry
}.

(** ** lib/aps-constants.js *)

Definition CACHE_MAX_AGE_MS : Z := 2 * 60 * 60 * 1000.

(** ** lib/cache-builder.js *)

(** [isCacheStale(timestamp)], with the value [Date.now()] reads as [now].
    A timestamp is an integer number of milliseconds or absent; [!timestamp]
    holds of an absent timestamp and of zero. *)
Definition isCacheStale (now : Z) (timestamp : option Z) : bool :=
  match timestamp with
  | None => true
  | Some t => (t =? 0) || (CACHE_MAX_AGE_MS <? now - t)
  end.

(** A [Set] of strings, in insertion order. *)
Definition Set_has (s : list string) (x : string) : bool := bool_decide (x ∈ s).

Definition Set_add (x : string) (s : list string) : list string :=
  if Set_has s x then s else s ++ [x].

(** A plain object used as a dictionary whose keys are enumerated
    ([Object.entries]): an association list in insertion order. *)
Fixpoint dict_get {V} (o : list (string * V)) (k : string) : option V :=
  match o with
  | [] => None
  | (k', v) :: o' => if String.eqb k' k then Some v else dict_get o' k
  end.

(** [(o[cid] ||= new Set()).add(pid)]. *)
Fixpoint dict_add (cid pid : string) (o : list (string * list string))
  : list (string * list string) :=
  match o with
  | [] => [(cid, [pid])]
  | (k, s) :: o' =>
      if String.eqb k cid then (k, Set_add pid s) :: o'
      else (k, s) :: dict_add cid pid o'
  end.

(** Step 2: the index lookups. *)
Definition usersByCompany (users : list Obj) : gmap string (list Obj) :=
  foldl (λ m user,
           let companyId := js_or (user !! "company_id") (user !! "companyId") in
           if truthy companyId
           then <[or_empty companyId := default [] (m !! or_empty companyId) ++ [user]]> m
           else m)
        ∅ users.

(** [projectsById] and [companiesById]. *)
Definition indexById (records : list Obj) : gmap string Obj :=
  foldl (λ m r, if truthy (r !! "id") then <[or_empty (r !! "id") := r]> m else m)
        ∅ records.

(** The inner loop of step 3: the companies of one project. *)
Definition recordCompanies (pid : string) (projectCompanies : list Obj)
    (projectIdsByCompany : list (string * list string)) : list (string * list string) :=
  foldl (λ o comp,
           if truthy (comp !! "id") then dict_add (or_empty (comp !! "id")) pid o else o)
        projectIdsByCompany projectCompanies.

(** Step 3: one pair of per-project fetches for every project with an id;
    [i] is the index of the head of [projects] in the whole array of
    [total] projects. *)
Fixpoint mapProjects (token : option string) (accountId : string) (total i : nat)
    (projects : list Obj)
    (projectIdsByCompany : list (string * list string))
    (projectUsersCache : gmap string (list Obj)) (w : World)
  : list (string * list string) * gmap string (list Obj) * World :=
  match projects with
  | [] => (projectIdsByCompany, projectUsersCache, w)
  | project :: rest =>
      if negb (truthy (project !! "id")) then
        mapProjects token accountId total (S i) rest projectIdsByCompany projectUsersCache w
      else
        let pid := or_empty (project !! "id") in
        let w1 := notify "mapping"
                    (MappingProject (S i) total
                       (or_empty (js_or (project !! "name") (project !! "id")))) w in
        let r1 := CompaniesAPI.fetchProjectCompanies token accountId pid w1 in
        let r2 := UsersAPI.fetchProjectUsers token pid r1.2 in
        mapProjects token accountId total (S i) rest
          (recordCompanies pid r1.1 projectIdsByCompany)
          (<[pid := r2.1]> projectUsersCache) r2.2
  end.

Definition memberOf (u : Obj) : Member :=
  {| m_name := UsersAPI.displayUserName u;
     m_uuid := or_empty (u !! "id");
     m_email := or_empty (u !! "email") |}.

Definition projectMemberOf (pu : Obj) : ProjectMember :=
  {| pm_name := UsersAPI.displayUserName pu;
     pm_uuid := or_empty (pu !! "id");
     pm_email := or_empty (pu !! "email");
     pm_companyId := or_empty (pu !! "companyId") |}.

Section assemble.
Context `{Collator}.
Variable users companies projects : list Obj.
Variable projectIdsByCompany : list (string * list string).
Variable projectUsersCache : gmap string (list Obj).

(** Step 4, for the company with id [compId]. *)
Definition userRecords (compId : string) : list Member :=
  sortBy (byName m_name)
    (memberOf <$>
       filter (λ u, truthy (u !! "id")) (default [] (usersByCompany users !! compId))).

Definition companyProjectIds (compId : string) : list string :=
  match dict_get projectIdsByCompany compId with
  | Some pids => sortBy codeUnitCompare pids
  | None => []
  end.

Definition embeddedMembers (compId pid : string) : list Member :=
  sortBy (byName m_name)
    (memberOf <$>
       filter (λ pu, bool_decide (pu !! "companyId" = Some compId) && truthy (pu !! "id"))
              (default [] (projectUsersCache !! pid))).

Definition projectRecords (compId : string) : list ProjectRecord :=
  sortBy (byName pr_name)
    ((λ pid,
        let project := default ∅ (indexById projects !! pid) in
        {| pr_name := or_empty (project !! "name");
           pr_uuid := pid;
           pr_platform := or_empty (project !! "platform");
           pr_members := embeddedMembers compId pid |}) <$> companyProjectIds compId).

Definition companyEntry (comp : Obj) : CompanyEntry :=
  let compId := or_empty (comp !! "id") in
  {| ce_name := or_empty (comp !! "name");
     ce_uuid := compId;
     ce_projects := projectRecords compId;
     ce_users := userRecords compId |}.

Definition companiesResult : list CompanyEntry :=
  sortBy (byName ce_name)
    (companyEntry <$> filter (λ comp, truthy (comp !! "id")) companies).

(** Step 5, for the project with id [pid]. *)
Definition projectMembers (pid : string) : list ProjectMember :=
  sortBy (byName pm_name)
    (projectMemberOf <$>
       filter (λ pu, truthy (pu !! "id")) (default [] (projectUsersCache !! pid))).

Definition companyIdsForProject (pid : string) : list string :=
  foldl (λ s entry, if Set_has entry.2 pid then Set_add entry.1 s else s)
        [] projectIdsByCompany.

Definition projectCompanies (pid : string) : list CompanyRecord :=
  sortBy (byName cr_name)
    ((λ cid,
        {| cr_name := match indexById companies !! cid with
                      | Some comp => or_empty (comp !! "name")
                      | None => ""
                      end;
           cr_uuid := cid |}) <$> companyIdsForProject pid).

Definition projectEntry (project : Obj) : ProjectEntry :=
  let pid := or_empty (project !! "id") in
  {| pe_name := or_empty (project !! "name");
     pe_uuid := pid;
     pe_platform := or_empty (project !! "platform");
     pe_members := projectMembers pid;
     pe_companies := projectCompanies pid |}.

Definition projectsResult : list ProjectEntry :=
  sortBy (byName pe_name)
    (projectEntry <$> filter (λ project, truthy (project !! "id")) projects).

End assemble.

(** [buildCompaniesCache(token, accountId, onProgress)], with the progress
    callback writing to the log of the world. *)
Definition buildCompaniesCache `{Collator} (token : option string) (accountId : string)
    (w : World) : Completion Caches * World :=
  let w := notify "companies" FetchingCompanies w in
  match CompaniesAPI.fetchAll token accountId w with
  | (Throw e, w) => (Throw e, w)
  | (Return companies, w) =>
  let w := notify "companies" (FoundCompanies (length companies)) w in
  let w := notify "users" FetchingUsers w in
  match UsersAPI.fetchAll token accountId w with
  | (Throw e, w) => (Throw e, w)
  | (Return users, w) =>
  let w := notify "users" (FoundUsers (length users)) w in
  let w := notify "projects" FetchingProjects w in
  match ProjectsAPI.fetchAll token accountId w with
  | (Throw e, w) => (Throw e, w)
  | (Return projects, w) =>
  let w := notify "projects" (FoundProjects (length projects)) w in
  let w := notify "mapping" MappingCompanies w in
  let mapped := mapProjects token accountId (length projects) 0 projects [] ∅ w in
  let projectIdsByCompany := mapped.1.1 in
  let projectUsersCache := mapped.1.2 in
  let w := notify "assembling" AssemblingCompanies mapped.2 in
  let w := notify "assembling" AssemblingProjects w in
  (Return {| companiesCache :=
               companiesResult users companies projects projectIdsByCompany projectUsersCache;
             projectsCache :=
               projectsResult companies projects projectIdsByCompany projectUsersCache |},
   w)
  end end end.

(** ** background.js *)

(** The keys of [chrome.storage.local]. *)
Record Local := {
  apsClientId : option string;
  apsClientSecret : option string;
  apsAccountId : option string;
  stored_companiesCache : option (list CompanyEntry);
  companiesCacheTimestamp : option Z;
  stored_projectsCache : option (list ProjectEntry);
  projectsCacheTimestamp : option Z
}.

(** The keys of [chrome.storage.session]. *)
Record Session := {
  accBearerToken : option string;
  tokenExpiresAt : option Z;
  accAccountId : option string
}.

(** The items of the one [chrome.storage.local.set] call of the file. *)
Record CacheItems := {
  set_companiesCache : list CompanyEntry;
  set_companiesCacheTimestamp : Z;
  set_projectsCache : list ProjectEntry;
  set_projectsCacheTimestamp : Z
}.

(** The service worker: the module variable [cacheBuilding], the two
    storage areas, the log of the [chrome.storage.local.set] calls, the
    network and the clock [Date.now()] reads. Storage calls succeed. *)
Record Worker := {
  cacheBuilding : bool;
  local : Local;
  localWrites : list CacheItems;
  session : Session;
  world : World;
  now : Z
}.

Definition with_cacheBuilding (b : bool) (s : Worker) : Worker :=
  {| cacheBuilding := b; local := local s; localWrites := localWrites s;
     session := session s; world := world s; now := now s |}.

Definition with_session (se : Session) (s : Worker) : Worker :=
  {| cacheBuilding := cacheBuilding s; local := local s; localWrites := localWrites s;
     session := se; world := world s; now := now s |}.

Definition with_world (w : World) (s : Worker) : Worker :=
  {| cacheBuilding := cacheBuilding s; local := local s; localWrites := localWrites s;
     session := session s; world := w; now := now s |}.

(** [chrome.storage.local.set(items)]: the four keys change together. *)
Definition local_set (items : CacheItems) (s : Worker) : Worker :=
  {| cacheBuilding := cacheBuilding s;
     local := {| apsClientId := apsClientId (local s);
                 apsClientSecret := apsClientSecret (local s);
                 apsAccountId := apsAccountId (local s);
                 stored_companiesCache := Some (set_companiesCache items);
                 companiesCacheTimestamp := Some (set_companiesCacheTimestamp items);
                 stored_projectsCache := Some (set_projectsCache items);
                 projectsCacheTimestamp := Some (set_projectsCacheTimestamp items) |};
     localWrites := localWrites s ++ [items];
     session := session s; world := world s; now := now s |}.

(** [fetch] of the token URL: the next response of the script. *)
Definition fetchToken (clientId clientSecret : string) (w : World) : Response * World :=
  let sent' := sent w ++ [PostToken clientId clientSecret] in
  match pending w with
  | [] => (NetworkError, {| pending := []; sent := sent'; progress := progress w |})
  | resp :: rest => (resp, {| pending := rest; sent := sent'; progress := progress w |})
  end.

Definition get2LeggedToken (s : Worker) : Completion (option string) * Worker :=
  if negb (truthy (apsClientId (local s))) || negb (truthy (apsClientSecret (local s)))
  then (Throw CredentialsNotConfigured, s)
  else
    let r := fetchToken (or_empty (apsClientId (local s)))
                        (or_empty (apsClientSecret (local s))) (world s) in
    let s := with_world r.2 s in
    match r.1 with
    | NetworkError => (Throw NetworkFailure, s)
    | Http status text json =>
        if negb (ok status) then (Throw (TokenRequestFailed status (default "" text)), s)
        else
          match json with
          | BadJson => (Throw InvalidJson, s)
          | tokenData =>
              let token := match tokenData with JToken t _ => t | _ => None end in
              let expires_in := match tokenData with JToken _ e => e | _ => None end in
              let expiresAt := (λ e, now s + e * 1000) <$> expires_in in
              (Return token,
               with_session {| accBearerToken := token;
                               tokenExpiresAt := expiresAt;
                               accAccountId := apsAccountId (local s) |} s)
          end
    end.

Definition ensureToken (s : Worker) : Completion (option string) * Worker :=
  if negb (truthy (accBearerToken (session s)))
     || match tokenExpiresAt (session s) with
        | None => true
        | Some e => (e =? 0) || (e - 5 * 60 * 1000 <? now s)
        end
  then get2LeggedToken s
  else (Return (accBearerToken (session s)), s).

(** [sendProgress(step, detail)]: fire and forget. *)
Definition sendProgress (step : string) (detail : Detail) (s : Worker) : Worker :=
  with_world (notify step detail (world s)) s.

(** The [try] block of [triggerCacheBuild]. *)
Definition triggerCacheBuild_try `{Collator} (s : Worker)
  : Completion (list CompanyEntry) * Worker :=
  match ensureToken s with
  | (Throw e, s) => (Throw e, s)
  | (Return token, s) =>
      if negb (truthy (accAccountId (session s))) then (Throw NoAccountId, s)
      else
        let accountId := or_empty (accAccountId (session s)) in
        match buildCompaniesCache token accountId (world s) with
        | (Throw e, w) => (Throw e, with_world w s)
        | (Return caches, w) =>
            let s := with_world w s in
            let now := now s in
            let s := local_set {| set_companiesCache := companiesCache caches;
                                  set_companiesCacheTimestamp := now;
                                  set_projectsCache := projectsCache caches;
                                  set_projectsCacheTimestamp := now |} s in
            let s := sendProgress "done"
                       (CacheBuilt (length (companiesCache caches))
                                   (length (projectsCache caches))) s in
            (Return (companiesCache caches), s)
        end
  end.

(** [triggerCacheBuild()], run without interruption. *)
Definition triggerCacheBuild `{Collator} (s : Worker)
  : Completion (list CompanyEntry) * Worker :=
  if cacheBuilding s then (Throw BuildInProgress, s)
  else
    let r := triggerCacheBuild_try (with_cacheBuilding true s) in
    (r.1, with_cacheBuilding false r.2).

(** *** Interleaving

    An invocation of [triggerCacheBuild] runs up to its first [await] when
    it is called, and from one [await] to the next each time it is resumed;
    other invocations run in between. [Task] names the [await]s of the
    function at which an admitted invocation can be suspended. *)
Inductive Task :=
  | AwaitToken                                          (* await ensureToken() *)
  | AwaitAccountId (token : option string)              (* await chrome.storage.session.get *)
  | AwaitBuild (token : option string) (accountId : string) (* await buildCompaniesCache *)
  | AwaitStored (caches : Caches).                      (* await chrome.storage.local.set *)

(** An invocation resumed at an [await] runs to the next one, or settles;
    when it settles, the [finally] block has run. *)
Definition resume `{Collator} (t : Task) (s : Worker)
  : (Task + Completion (list CompanyEntry)) * Worker :=
  match t with
  | AwaitToken =>
      match ensureToken s with
      | (Throw e, s) => (inr (Throw e), with_cacheBuilding false s)
      | (Return token, s) => (inl (AwaitAccountId token), s)
      end
  | AwaitAccountId token =>
      if negb (truthy (accAccountId (session s)))
      then (inr (Throw NoAccountId), with_cacheBuilding false s)
      else (inl (AwaitBuild token (or_empty (accAccountId (session s)))), s)
  | AwaitBuild token accountId =>
      match buildCompaniesCache token accountId (world s) with
      | (Throw e, w) => (inr (Throw e), with_cacheBuilding false (with_world w s))
      | (Return caches, w) =>
          let s := with_world w s in
          let now := now s in
          (inl (AwaitStored caches),
           local_set {| set_companiesCache := companiesCache caches;
                        set_companiesCacheTimestamp := now;
                        set_projectsCache := projectsCache caches;
                        set_projectsCacheTimestamp := now |} s)
      end
  | AwaitStored caches =>
      (inr (Return (companiesCache caches)),
       with_cacheBuilding false
         (sendProgress "done"
            (CacheBuilt (length (companiesCache caches))
                        (length (projectsCache caches))) s))
  end.

(** The service worker with its invocations of [triggerCacheBuild]: the
    suspended ones and the outcomes of the settled ones, by invocation
    number. *)
Record System := {
  worker : Worker;
  tasks : list (nat * Task);
  outcomes : list (nat * Completion (list CompanyEntry))
}.

Inductive Event :=
  | Invoke (id : nat)      (* triggerCacheBuild() is called *)
  | Resume (id : nat)      (* the awaited promise of invocation [id] settles *)
  | Interfere (se : Session) (w : World) (t : Z).
                           (* anything else: tokens, network traffic, time *)

Fixpoint resumeTask `{Collator} (id : nat) (ts : list (nat * Task)) (s : Worker)
  : list (nat * Task) * list (nat * Completion (list CompanyEntry)) * Worker :=
  match ts with
  | [] => ([], [], s)
  | (id', t) :: ts' =>
      if Nat.eqb id' id then
        match resume t s with
        | (inl t', s') => ((id', t') :: ts', [], s')
        | (inr c, s') => (ts', [(id', c)], s')
        end
      else
        let r := resumeTask id ts' s in
        ((id', t) :: r.1.1, r.1.2, r.2)
  end.

Definition step `{Collator} (e : Event) (sys : System) : System :=
  match e with
  | Invoke id =>
      if cacheBuilding (worker sys)
      then {| worker := worker sys; tasks := tasks sys;
              outcomes := outcomes sys ++ [(id, Throw BuildInProgress)] |}
      else {| worker := with_cacheBuilding true (worker sys);
              tasks := tasks sys ++ [(id, AwaitToken)];
              outcomes := outcomes sys |}
  | Resume id =>
      let r := resumeTask id (tasks sys) (worker sys) in
      {| worker := r.2; tasks := r.1.1; outcomes := outcomes sys ++ r.1.2 |}
  | Interfere se w t =>
      {| worker := {| cacheBuilding := cacheBuilding (worker sys);
                      local := local (worker sys);
                      localWrites := localWrites (worker sys);
                      session := se; world := w; now := t |};
         tasks := tasks sys; outcomes := outcomes sys |}
  end.

Definition run `{Collator} (es : list Event) (sys : System) : System :=
  foldl (λ sys e, step e sys) sys es.

(** The service worker when it starts: [let cacheBuilding = false]. *)
Definition boot (lo : Local) (se : Session) (w : World) (t : Z) : System :=
  {| worker := {| cacheBuilding := false; local := lo; localWrites := [];
                  session := se; world := w; now := t |};
     tasks := []; outcomes := [] |}.

(** * Vocabulary of the specification *)

Global Instance comparison_eq_dec : EqDecision comparison.
Proof. solve_decision. Defined.

(** Ascending order, and ties, under a comparator. *)
Definition cmpLe {A} (cmp : A → A → comparison) (a b : A) : Prop := cmp a b ≠ Gt.
Definition cmpTie {A} (cmp : A → A → comparison) (a b : A) : Prop := cmp a b = Eq.

Global Instance cmpLe_dec {A} (cmp : A → A → comparison) a b : Decision (cmpLe cmp a b).
Proof. unfold cmpLe. apply _. Defined.

Global Instance cmpTie_dec {A} (cmp : A → A → comparison) a b : Decision (cmpTie cmp a b).
Proof. unfold cmpTie. apply _. Defined.

(** A comparator is consistent when it is a total preorder. *)
Definition Consistent {A} (cmp : A → A → comparison) : Prop :=
  (∀ a b, cmp a b = CompOpp (cmp b a)) ∧
  (∀ a b c, cmp a b ≠ Gt → cmp b c ≠ Gt → cmp a c ≠ Gt).

(** [out] is [pre] sorted ascending by case-insensitive name, elements with
    names equal up to case keeping the order they have in [pre]. *)
Definition StableSorted `{Collator} {A} (name : A → string) (pre out : list A) : Prop :=
  StronglySorted (cmpLe (byName name)) out ∧
  out ≡ₚ pre ∧
  ∀ k, filter (cmpTie (byName name) k) out = filter (cmpTie (byName name) k) pre.

(** The staleness predicate in the words of the specification:
    the timestamp is absent or [(now - timestamp) > maxAgeMs]. *)
Definition isStale_spec (timestamp : option Z) (now maxAgeMs : Z) : Prop :=
  timestamp = None ∨ ∃ t, timestamp = Some t ∧ now - t > maxAgeMs.

(** What one build fetched: the three collections, and for every project
    with an id, in the order of the mapping loop, its id, the result of its
    companies fetch and the result of its members fetch. *)
Record RawData := {
  raw_companies : list Obj;
  raw_users : list Obj;
  raw_projects : list Obj;
  raw_fetches : list (string * list Obj * list Obj)
}.

(** The results of the per-project fetches of [mapProjects]. *)
Fixpoint projectFetches (token : option string) (accountId : string) (total i : nat)
    (projects : list Obj) (w : World) : list (string * list Obj * list Obj) :=
  match projects with
  | [] => []
  | project :: rest =>
      if negb (truthy (project !! "id")) then
        projectFetches token accountId total (S i) rest w
      else
        let pid := or_empty (project !! "id") in
        let w1 := notify "mapping"
                    (MappingProject (S i) total
                       (or_empty (js_or (project !! "name") (project !! "id")))) w in
        let r1 := CompaniesAPI.fetchProjectCompanies token accountId pid w1 in
        let r2 := UsersAPI.fetchProjectUsers token pid r1.2 in
        (pid, r1.1, r2.1) :: projectFetches token accountId total (S i) rest r2.2
  end.

(** The two indexes of step 3, from the results of the fetches. *)
Definition indexFetches (fetches : list (string * list Obj * list Obj))
    (start : list (string * list string) * gmap string (list Obj))
  : list (string * list string) * gmap string (list Obj) :=
  foldl (λ ix f, (recordCompanies f.1.1 f.1.2 ix.1, <[f.1.1 := f.2]> ix.2)) start fetches.

Definition raw_projectIdsByCompany (raw : RawData) : list (string * list string) :=
  (indexFetches (raw_fetches raw) ([], ∅)).1.

Definition raw_projectUsersCache (raw : RawData) : gmap string (list Obj) :=
  (indexFetches (raw_fetches raw) ([], ∅)).2.

(** The roster of a project: the result of its last members fetch. *)
Definition roster (raw : RawData) (pid : string) : list Obj :=
  default [] (raw_projectUsersCache raw !! pid).

(** The fetches of one build: [None] when an account-level fetch throws. *)
Definition fetchRaw (token : option string) (accountId : string) (w : World)
  : option RawData :=
  let w := notify "companies" FetchingCompanies w in
  match CompaniesAPI.fetchAll token accountId w with
  | (Throw e, w) => None
  | (Return companies, w) =>
  let w := notify "companies" (FoundCompanies (length companies)) w in
  let w := notify "users" FetchingUsers w in
  match UsersAPI.fetchAll token accountId w with
  | (Throw e, w) => None
  | (Return users, w) =>
  let w := notify "users" (FoundUsers (length users)) w in
  let w := notify "projects" FetchingProjects w in
  match ProjectsAPI.fetchAll token accountId w with
  | (Throw e, w) => None
  | (Return projects, w) =>
  let w := notify "projects" (FoundProjects (length projects)) w in
  let w := notify "mapping" MappingCompanies w in
  Some {| raw_companies := companies; raw_users := users; raw_projects := projects;
          raw_fetches := projectFetches token accountId (length projects) 0 projects w |}
  end end end.

(** Steps 4 and 5 on what was fetched. *)
Definition assemble `{Collator} (raw : RawData) : Caches :=
  {| companiesCache :=
       companiesResult (raw_users raw) (raw_companies raw) (raw_projects raw)
         (raw_projectIdsByCompany raw) (raw_projectUsersCache raw);
     projectsCache :=
       projectsResult (raw_companies raw) (raw_projects raw)
         (raw_projectIdsByCompany raw) (raw_projectUsersCache raw) |}.

(** A record has an id. *)
Definition hasId (o : Obj) : Prop := truthy (o !! "id").

(** The id of a record that has one. *)
Definition idOf (o : Obj) : string := or_empty (o !! "id").

(** [cid] is associated with [pid] in the dictionary [o]. *)
Definition linked (o : list (string * list string)) (cid pid : string) : Prop :=
  ∃ s, dict_get o cid = Some s ∧ pid ∈ s.

(** A member of a project entry without its [companyId]: the shape it has
    when embedded under a company. *)
Definition embed (m : ProjectMember) : Member :=
  {| m_name := pm_name m; m_uuid := pm_uuid m; m_email := pm_email m |}.

Global Instance hasId_dec o : Decision (hasId o).
Proof. unfold hasId. apply _. Defined.

(** A roster record of company [cid]: its [companyId] is [cid] and it has
    an id. *)
Definition ofCompany (cid : string) (pu : Obj) : Prop :=
  pu !! "companyId" = Some cid ∧ hasId pu.

Global Instance ofCompany_dec cid pu : Decision (ofCompany cid pu).
Proof. unfold ofCompany. apply _. Defined.

(** An account user of company [cid], under either spelling of the field. *)
Definition employedBy (cid : string) (u : Obj) : Prop :=
  js_or (u !! "company_id") (u !! "companyId") = Some cid ∧ hasId u.

Global Instance employedBy_dec cid u : Decision (employedBy cid u).
Proof. unfold employedBy. apply _. Defined.

(** ** Worked inputs *)

Definition record (fields : list (string * string)) : Obj := list_to_map fields.

Definition page (items : list Obj) : Response := Http 200 None (JArray items).

Definition resultsPage (items : list Obj) (total : option Z) : Response :=
  Http 200 None (JPage (Some items) total).

Definition script (responses : list Response) : World :=
  {| pending := responses; sent := []; progress := [] |}.

(** One company, two users, one project; on the project's roster one
    member carries [companyId] and the other only [company_id]. *)
Definition example_companies : list Obj := [record [("id", "c1"); ("name", "Acme")]].

Definition example_users : list Obj :=
  [record [("id", "u1"); ("name", "Jo"); ("companyId", "c1")];
   record [("id", "u2"); ("name", "Al"); ("company_id", "c1")]].

Definition example_projects : list Obj := [record [("id", "p1"); ("name", "Tower")]].

Definition example_roster : list Obj :=
  [record [("id", "u1"); ("name", "Jo"); ("companyId", "c1")];
   record [("id", "u2"); ("name", "Al"); ("company_id", "c1")]].

Definition example : World :=
  script [ page example_companies;
           page example_users;
           resultsPage example_projects None;
           page [record [("id", "c1")]];
           resultsPage example_roster None ].

Definition example_raw : RawData :=
  {| raw_companies := example_companies;
     raw_users := example_users;
     raw_projects := example_projects;
     raw_fetches := [("p1", [record [("id", "c1")]], example_roster)] |}.

Definition example_project : ProjectRecord :=
  {| pr_name := "Tower"; pr_uuid := "p1"; pr_platform := "";
     pr_members := [{| m_name := "Jo"; m_uuid := "u1"; m_email := "" |}] |}.

Definition example_company : CompanyEntry :=
  {| ce_name := "Acme"; ce_uuid := "c1";
     ce_projects := [example_project];
     ce_users := [{| m_name := "Al"; m_uuid := "u2"; m_email := "" |};
                  {| m_name := "Jo"; m_uuid := "u1"; m_email := "" |}] |}.

Definition example_entry : ProjectEntry :=
  {| pe_name := "Tower"; pe_uuid := "p1"; pe_platform := "";
     pe_members :=
       [{| pm_name := "Al"; pm_uuid := "u2"; pm_email := ""; pm_companyId := "" |};
        {| pm_name := "Jo"; pm_uuid := "u1"; pm_email := ""; pm_companyId := "c1" |}];
     pe_companies := [{| cr_name := "Acme"; cr_uuid := "c1" |}] |}.

Definition example_caches : Caches :=
  {| companiesCache := [example_company]; projectsCache := [example_entry] |}.

Global Instance linked_dec o cid pid : Decision (linked o cid pid).
Proof.
  unfold linked. destruct (dict_get o cid) as [s|].
  - destruct (decide (pid ∈ s)) as [Hin|Hout].
    + left. by exists s.
    + right. by intros (? & [= <-] & ?).
  - right. by intros (? & ? & ?).
Defined.

(** The elements of a list, each at its first occurrence. *)
Definition firstOccurrences (l : list string) : list string :=
  foldl (λ s x, Set_add x s) [] l.

(** The company ids the per-project companies fetches returned, in the
    order they were received. *)
Definition associatedIds (raw : RawData) : list string :=
  raw_fetches raw ≫= λ f, idOf <$> filter hasId f.1.2.

(** The entries of the two caches before the final [.sort]: in the order
    the companies, respectively the projects, were fetched. *)
Definition companiesInFetchOrder `{Collator} (raw : RawData) : list CompanyEntry :=
  companyEntry (raw_users raw) (raw_projects raw)
    (raw_projectIdsByCompany raw) (raw_projectUsersCache raw)
  <$> filter hasId (raw_companies raw).

Definition projectsInFetchOrder `{Collator} (raw : RawData) : list ProjectEntry :=
  projectEntry (raw_companies raw) (raw_projectIdsByCompany raw)
    (raw_projectUsersCache raw)
  <$> filter hasId (raw_projects raw).

(** The projects of company [cid] as C7 words them: in the order the
    projects were fetched. *)
Definition projectRecordsInFetchOrder `{Collator} (raw : RawData) (cid : string)
  : list ProjectRecord :=
  (λ project,
     {| pr_name := or_empty (project !! "name");
        pr_uuid := idOf project;
        pr_platform := or_empty (project !! "platform");
        pr_members := embeddedMembers (raw_projectUsersCache raw) cid (idOf project) |})
  <$> filter (λ project, hasId project ∧
                         linked (raw_projectIdsByCompany raw) cid (idOf project))
             (raw_projects raw).

(** Two projects of one company whose names differ only in case; the one
    fetched first has the greater id. *)
Definition tie_world : World :=
  script [ page [record [("id", "c1"); ("name", "Acme")]];
           page [];
           resultsPage [record [("id", "p2"); ("name", "Tower")];
                        record [("id", "p1"); ("name", "tower")]] None;
           page [record [("id", "c1")]];
           resultsPage [] None;
           page [record [("id", "c1")]];
           resultsPage [] None ].

Definition tie_company : CompanyEntry :=
  {| ce_name := "Acme"; ce_uuid := "c1";
     ce_projects :=
       [{| pr_name := "tower"; pr_uuid := "p1"; pr_platform := ""; pr_members := [] |};
        {| pr_name := "Tower"; pr_uuid := "p2"; pr_platform := ""; pr_members := [] |}];
     ce_users := [] |}.

(** Companies fetched as bravo, Alpha, charlie. *)
Definition alphabet_world : World :=
  script [ page [record [("id", "c1"); ("name", "bravo")];
                 record [("id", "c2"); ("name", "Alpha")];
                 record [("id", "c3"); ("name", "charlie")]];
           page [];
           resultsPage [] None ].

Definition alphabet_raw : RawData :=
  {| raw_companies := [record [("id", "c1"); ("name", "bravo")];
                       record [("id", "c2"); ("name", "Alpha")];
                       record [("id", "c3"); ("name", "charlie")]];
     raw_users := []; raw_projects := []; raw_fetches := [] |}.

(** ** The pagination contract *)

(** A page that keeps the loop going: a success response with at least
    [limit] records. *)
Definition fullPage (batchOf : Body → option (list Obj)) (limit : Z)
    (resp : Response) (batch : list Obj) : Prop :=
  ∃ status text json,
    resp = Http status text json ∧ ok status = true ∧ json ≠ BadJson ∧
    batchOf json = Some batch ∧ batch ≠ [] ∧ limit ≤ len batch.

(** A page that ends the loop: fewer than [limit] records, or none. *)
Definition lastPage (batchOf : Body → option (list Obj)) (limit : Z)
    (resp : Response) (batch : list Obj) : Prop :=
  ∃ status text json,
    resp = Http status text json ∧ ok status = true ∧ json ≠ BadJson ∧
    batchOf json = Some batch ∧ (batch = [] ∨ len batch < limit).

(** A response that is not a success. *)
Definition notOk (resp : Response) : Prop :=
  ∃ status text json, resp = Http status text json ∧ ok status = false.

(** A request on which [fetch] or [resp.json()] rejects. *)
Definition thrown (resp : Response) : Prop :=
  resp = NetworkError ∨ ∃ status text, resp = Http status text BadJson ∧ ok status = true.

(** The offsets [0, limit, 2 * limit, ...] of the first [n] requests. *)
Definition offsets (limit : Z) (n : nat) : list Z :=
  (λ k, Z.of_nat k * limit) <$> seq 0 n.

(** The contract of an account-level fetcher. *)
Definition paginationContract (fetchAll : World → Completion (list Obj) * World)
    (what : string) (url : Z → Request) (limit : Z)
    (batchOf : Body → option (list Obj)) : Prop :=
  ∀ w pages batches resp rest,
    pending w = pages ++ resp :: rest →
    Forall2 (fullPage batchOf limit) pages batches →
    let after := {| pending := rest;
                    sent := sent w ++ (url <$> offsets limit (S (length pages)));
                    progress := progress w |} in
    (∀ batch, lastPage batchOf limit resp batch →
       fetchAll w = (Return (concat batches ++ batch), after)) ∧
    (∀ status text json, resp = Http status text json → ok status = false →
       fetchAll w = (Throw (ApiError status what (default "" text)), after)).

(** The pages that keep the members loop going from [offset]: [results]
    is not empty, has at least [limit] records, and does not reach
    [pagination.totalResults]. *)
Fixpoint usersPages (limit offset : Z) (pages : list Response)
    (batches : list (list Obj)) : Prop :=
  match pages, batches with
  | [], [] => True
  | resp :: pages', batch :: batches' =>
      (∃ status text total,
         resp = Http status text (JPage (Some batch) total) ∧ ok status = true ∧
         batch ≠ [] ∧ limit ≤ len batch ∧
         match total with Some t => offset + len batch < t | None => True end) ∧
      usersPages limit (offset + len batch) pages' batches'
  | _, _ => False
  end.

(** A hundred companies, [c0] to [c99]. *)
Definition hundred_companies : list Obj :=
  (λ n, record [("id", "c" +:+ NilEmpty.string_of_uint (Nat.to_uint n))]) <$> seq 0 100.

(** The first page of a project's companies arrives, the second request
    is rejected. *)
Definition rejected_second_page : World :=
  script [page hundred_companies; NetworkError].

(** The first request of a fetch fails: it is rejected, or answered by a
    response that is not a success or whose body is not JSON. *)
Definition failsAtOnce (pending : list Response) : Prop :=
  match pending with
  | [] => True
  | resp :: _ => notOk resp ∨ thrown resp
  end.

(** The companies fetch of project [p1] gets a first full page and then a
    status 500. *)
Definition late_failure : World :=
  script [ page [record [("id", "c1"); ("name", "Acme")]];
           page [];
           resultsPage [record [("id", "p1"); ("name", "Tower")]] None;
           page hundred_companies;
           Http 500 (Some "Internal Server Error") BadJson;
           resultsPage [] None ].

(** Both fetches of project [p1] fail on their first request. *)
Definition early_failure : World :=
  script [ page [record [("id", "c1"); ("name", "Acme")]];
           page [];
           resultsPage [record [("id", "p1"); ("name", "Tower")]] None;
           Http 404 (Some "Not Found") BadJson;
           NetworkError ].

Definition early_failure_raw : RawData :=
  {| raw_companies := [record [("id", "c1"); ("name", "Acme")]];
     raw_users := [];
     raw_projects := [record [("id", "p1"); ("name", "Tower")]];
     raw_fetches := [("p1", [], [])] |}.

Definition early_failure_caches : Caches :=
  {| companiesCache :=
       [{| ce_name := "Acme"; ce_uuid := "c1"; ce_projects := []; ce_users := [] |}];
     projectsCache :=
       [{| pe_name := "Tower"; pe_uuid := "p1"; pe_platform := "";
           pe_members := []; pe_companies := [] |}] |}.

(** A system that differs only by its list of outcomes. *)
Definition with_outcomes (o : list (nat * Completion (list CompanyEntry)))
    (sys : System) : System :=
  {| worker := worker sys; tasks := tasks sys; outcomes := o |}.


(** A configured service worker, and the script of one small build. *)
Definition configured : Local :=
  {| apsClientId := Some "client"; apsClientSecret := Some "secret";
     apsAccountId := Some "account";
     stored_companiesCache := None; companiesCacheTimestamp := None;
     stored_projectsCache := None; projectsCacheTimestamp := None |}.

Definition no_session : Session :=
  {| accBearerToken := None; tokenExpiresAt := None; accAccountId := None |}.

Definition token_then_example : World :=
  script (Http 200 None (JToken (Some "token") (Some 3600)) :: pending example).

(** The persisted caches and the log of their writes are untouched. *)
Definition sameCache (s s' : Worker) : Prop :=
  local s' = local s ∧ localWrites s' = localWrites s.

(** At most one invocation is suspended, and the flag is up exactly then. *)
Definition singleFlight (sys : System) : Prop :=
  match tasks sys with
  | [] => cacheBuilding (worker sys) = false
  | [_] => cacheBuilding (worker sys) = true
  | _ => False
  end.

Definition example_worker : Worker :=
  {| cacheBuilding := false; local := configured; localWrites := [];
     session := no_session; world := token_then_example; now := 1700000000000 |}.

(** A roster that lists one member twice and holds a record without an
    id, all three of company [c1]. *)
Definition member_jo : Obj := record [("id", "u1"); ("name", "Jo"); ("companyId", "c1")].

Definition member_al : Obj := record [("name", "Al"); ("companyId", "c1")].

Definition repeated_roster : World :=
  script [ page example_companies;
           page [];
           resultsPage example_projects None;
           page [record [("id", "c1")]];
           resultsPage [member_jo; member_jo; member_al] None ].

(** * The rest of background.js, and the readers of the caches *)

(** ** lib/aps-constants.js, continued *)

Definition CACHE_ALARM_NAME : string := "acc-enhancer-cache-refresh".

(** ** background.js: the message handlers and the alarm *)

(** The message types of [MSG] the service worker answers. *)
Inductive Message := GET_TOKEN | BUILD_CACHE | GET_CACHE | GET_PROJECTS_CACHE.

(** What [sendResponse] is given. *)
Inductive Reply :=
  | TokenReply (token accountId : option string)     (* {token, accountId} *)
  | BuildReply (count : nat)                         (* {success: true, count} *)
  | CacheReply (cache : option (list CompanyEntry))
               (timestamp : option Z) (stale : bool) (* {cache, timestamp, stale} *)
  | ProjectsCacheReply (cache : option (list ProjectEntry))
                       (timestamp : option Z) (stale : bool)
  | ErrorReply (e : Error).                          (* {error: err.message} *)

(** [timestamp || null]. *)
Definition or_null (timestamp : option Z) : option Z :=
  match timestamp with
  | Some t => if t =? 0 then None else Some t
  | None => None
  end.

(** The listener of [chrome.runtime.onMessage], each handler run without
    interruption. *)
Definition onMessage `{Collator} (msg : Message) (s : Worker) : Reply * Worker :=
  match msg with
  | GET_TOKEN =>
      match ensureToken s with
      | (Return token, s) => (TokenReply token (accAccountId (session s)), s)
      | (Throw e, s) => (ErrorReply e, s)
      end
  | BUILD_CACHE =>
      match triggerCacheBuild s with
      | (Return result, s) => (BuildReply (length result), s)
      | (Throw e, s) => (ErrorReply e, s)
      end
  | GET_CACHE =>
      (CacheReply (stored_companiesCache (local s))
         (or_null (companiesCacheTimestamp (local s)))
         (isCacheStale (now s) (companiesCacheTimestamp (local s))), s)
  | GET_PROJECTS_CACHE =>
      (ProjectsCacheReply (stored_projectsCache (local s))
         (or_null (projectsCacheTimestamp (local s)))
         (isCacheStale (now s) (projectsCacheTimestamp (local s))), s)
  end.

(** The listener of [chrome.alarms.onAlarm]; the rejection of the rebuild
    is logged and dropped. *)
Definition onAlarm `{Collator} (name : string) (s : Worker) : Worker :=
  if negb (String.eqb name CACHE_ALARM_NAME) then s
  else if negb (truthy (apsClientId (local s))) || negb (truthy (apsClientSecret (local s)))
  then s
  else if negb (isCacheStale (now s) (companiesCacheTimestamp (local s))) then s
  else (triggerCacheBuild s).2.

(** ** content.js: the cache lookup helpers

    [companiesCache] and [projectsCache] are the module variables of the
    content script: [null] until a cache is loaded. *)

Definition findCachedCompany (companiesCache : option (list CompanyEntry))
    (companyName : option string) : option CompanyEntry :=
  match companiesCache with
  | None => None
  | Some cache =>
      if negb (truthy companyName) then None
      else
        let lower := toLowerCase (or_empty companyName) in
        List.find (λ c, String.eqb (toLowerCase (ce_name c)) lower) cache
  end.

Definition findCachedCompanyById (companiesCache : option (list CompanyEntry))
    (companyId : option string) : option CompanyEntry :=
  match companiesCache with
  | None => None
  | Some cache =>
      if negb (truthy companyId) then None
      else List.find (λ c, String.eqb (ce_uuid c) (or_empty companyId)) cache
  end.

Definition findCachedProject (projectsCache : option (list ProjectEntry))
    (projectId : option string) : option ProjectEntry :=
  match projectsCache with
  | None => None
  | Some cache =>
      if negb (truthy projectId) then None
      else List.find (λ p, String.eqb (pe_uuid p) (or_empty projectId)) cache
  end.

(** [resolveProjectId(projectName)], up to its fallback to the network:
    the scan of the projects cache, then the scan of the projects nested in
    the companies cache; [None] when the function goes on to fetch all
    projects. *)
Fixpoint resolveAmongCompanies (cache : list CompanyEntry) (projectName : string)
  : option string :=
  match cache with
  | [] => None
  | company :: rest =>
      match List.find (λ project, String.eqb (pr_name project) projectName)
                      (ce_projects company) with
      | Some project => Some (pr_uuid project)
      | None => resolveAmongCompanies rest projectName
      end
  end.

Definition resolveProjectId_cached (projectsCache : option (list ProjectEntry))
    (companiesCache : option (list CompanyEntry)) (projectName : string)
  : option string :=
  let cached :=
    match projectsCache with
    | Some cache => List.find (λ p, String.eqb (pe_name p) projectName) cache
    | None => None
    end in
  match cached with
  | Some cached => Some (pe_uuid cached)
  | None =>
      match companiesCache with
      | Some cache => resolveAmongCompanies cache projectName
      | None => None
      end
  end.

(** ** popup.js

    The popup reads and writes [chrome.storage.local] directly. *)
Module Popup.

(** The click handler of the save button, given the values of the three
    input fields: [None] when it reports "All fields are required." and
    stores nothing. *)
Definition save (clientId clientSecret accountId : string) (lo : Local) : option Local :=
  let clientId := trim clientId in
  let clientSecret := trim clientSecret in
  let accountId := trim accountId in
  if negb (truthy (Some clientId)) || negb (truthy (Some clientSecret))
     || negb (truthy (Some accountId))
  then None
  else Some {| apsClientId := Some clientId;
               apsClientSecret := Some clientSecret;
               apsAccountId := Some accountId;
               stored_companiesCache := stored_companiesCache lo;
               companiesCacheTimestamp := companiesCacheTimestamp lo;
               stored_projectsCache := stored_projectsCache lo;
               projectsCacheTimestamp := projectsCacheTimestamp lo |}.

(** What the status line shows: "No cache built yet.", or the two counts,
    the age of the cache in milliseconds (shown as a date and as hours)
    and the stale mark. *)
Inductive CacheStatus :=
  | NoCacheBuiltYet
  | Built (companyCount projectCount : nat) (age : Z) (stale : bool).

Definition loadCacheStatus (now : Z) (lo : Local) : CacheStatus :=
  match companiesCacheTimestamp lo with
  | None => NoCacheBuiltYet
  | Some t =>
      if t =? 0 then NoCacheBuiltYet
      else
        let companyCount := length (default [] (stored_companiesCache lo)) in
        let projectCount := length (default [] (stored_projectsCache lo)) in
        let age := now - t in
        Built companyCount projectCount age (24 * 60 * 60 * 1000 <? age)
  end.

(** The callback of the BUILD_CACHE message of the build button, run when
    the clock reads [now]: the error shown, or the count of the "Done!"
    line ([response.count], absent from a response that carries none) and
    the status line reloaded from local storage [lo]. *)
Inductive BuildReport :=
  | BuildError (e : Error)
  | BuildDone (count : option nat) (status : CacheStatus).

Definition onBuildResponse (response : Reply) (now : Z) (lo : Local) : BuildReport :=
  match response with
  | ErrorReply e => BuildError e
  | BuildReply count => BuildDone (Some count) (loadCacheStatus now lo)
  | _ => BuildDone None (loadCacheStatus now lo)
  end.

End Popup.

(** ** api.js *)
Module ContentAPI.

(** The request of the fallback: the members of the project, one page of
    200, with the bearer token. *)
Record MembersRequest := { mr_projectId : string; mr_token : option string }.

(** The [Set] of the [companyId]s of the members, in insertion order. *)
Definition companyIdsOf (members : list Obj) : list string :=
  foldl (λ companyIds m,
           if truthy (m !! "companyId")
           then Set_add (or_empty (m !! "companyId")) companyIds
           else companyIds)
        [] members.

(** [fetchProjectCompanies(projectId)], from the credentials on: the
    result, the network, and the requests the function sent itself. *)
Definition fetchProjectCompanies (token : option string) (accountId projectId : string)
    (w : World) : list Obj * World * list MembersRequest :=
  let r := CompaniesAPI.fetchProjectCompanies token accountId projectId w in
  let allCompanies := r.1 in
  if 0 <? len allCompanies then (allCompanies, r.2, [])
  else
    let request := {| mr_projectId := projectId; mr_token := token |} in
    match pending r.2 with
    | [] => ([], r.2, [request])
    | resp :: rest =>
        let w' := {| pending := rest; sent := sent r.2; progress := progress r.2 |} in
        match resp with
        | NetworkError => ([], w', [request])
        | Http status _ json =>
            if ok status then
              match json with
              | BadJson => ([], w', [request])
              | payload =>
                  match resultsBatch payload with
                  | Some members =>
                      ((λ id, {[ "id" := id ]}) <$> companyIdsOf members, w', [request])
                  | None => ([], w', [request])
                  end
              end
            else ([], w', [request])
        end
    end.

End ContentAPI.

(** A worker that differs only by its local storage. *)
Definition with_local (lo : Local) (s : Worker) : Worker :=
  {| cacheBuilding := cacheBuilding s; local := lo; localWrites := localWrites s;
     session := session s; world := world s; now := now s |}.

(** ** Vocabulary for the request log *)

(** From [w] to [w'] the program sent the requests [new], in this order,
    and took one response of the script for each of them. *)
Definition exchange (w w' : World) (new : list Request) : Prop :=
  sent w' = sent w ++ new ∧ pending w' = drop (length new) (pending w).

(** A fetcher that pages through [url] by steps of [limit], from offset 0:
    at least one request, none after the script has run out, and no
    progress notification. *)
Definition pagesThrough (url : Z → Request) (limit : Z) (w w' : World) : Prop :=
  ∃ n, (1 ≤ n ≤ S (length (pending w)))%nat ∧
       exchange w w' (url <$> offsets limit n) ∧ progress w' = progress w.

(** A page request of one of the three account-level fetchers. *)
Definition accountRequest (token : option string) (accountId : string)
    (r : Request) : Prop :=
  ∃ limit offset,
    r = GetPage (AccountCompanies accountId) token limit offset ∨
    r = GetPage (AccountUsers accountId) token limit offset ∨
    r = GetPage (AccountProjects accountId) token limit offset.

(** A page request of one of the two per-project fetchers, for project
    [pid]. *)
Definition projectRequest (token : option string) (accountId pid : string)
    (r : Request) : Prop :=
  ∃ limit offset,
    r = GetPage (ProjectCompanies accountId pid) token limit offset ∨
    r = GetPage (ProjectUsers pid) token limit offset.

(** The number of records in the first [k] batches. *)
Definition received (batches : list (list Obj)) (k : nat) : Z :=
  len (concat (take k batches)).

(** The members a response hands to the loop of [fetchProjectUsers]: the
    [results] of a success response, and none for any other response. *)
Definition membersOf (resp : Response) : list Obj :=
  match resp with
  | Http status _ (JPage (Some results) _) => if ok status then results else []
  | _ => []
  end.

(** The members of the response at which the loop stops, if there is one. *)
Definition lastMembers (rest : list Response) : list Obj :=
  match rest with
  | [] => []
  | resp :: _ => membersOf resp
  end.

(** The loop of [fetchProjectUsers], arrived at [rest] with the cursor at
    [offset], stops there: the responses have run out, or the next one is
    not a page that keeps the loop going. *)
Definition stopsAt (limit offset : Z) (rest : list Response) : Prop :=
  match rest with
  | [] => True
  | resp :: _ => ∀ batch, ¬ usersPages limit offset [resp] [batch]
  end.

(** The label of a project in its progress notification:
    [project.name || project.id]. *)
Definition projectLabel (project : Obj) : string :=
  or_empty (js_or (project !! "name") (project !! "id")).

(** A worker that differs only by the reading of its clock. *)
Definition at_time (t : Z) (s : Worker) : Worker :=
  {| cacheBuilding := cacheBuilding s; local := local s; localWrites := localWrites s;
     session := session s; world := world s; now := t |}.

(** ** Vocabulary for the progress notifications *)

(** The notifications of the mapping loop over [projects], whose head has
    index [i] in the array of [total] projects: one for each project with
    an id, numbered from 1 by its place in the array. *)
Definition mappingNotes (total i : nat) (projects : list Obj) : list (string * Detail) :=
  (λ ip, ("mapping", MappingProject (S ip.1) total (projectLabel ip.2)))
  <$> filter (λ ip, hasId ip.2) (zip (seq i (length projects)) projects).

(** The notifications of a build that fetched [raw]. *)
Definition buildNotes (raw : RawData) : list (string * Detail) :=
  [ ("companies", FetchingCompanies);
    ("companies", FoundCompanies (length (raw_companies raw)));
    ("users", FetchingUsers);
    ("users", FoundUsers (length (raw_users raw)));
    ("projects", FetchingProjects);
    ("projects", FoundProjects (length (raw_projects raw)));
    ("mapping", MappingCompanies) ]
  ++ mappingNotes (length (raw_projects raw)) 0 (raw_projects raw)
  ++ [ ("assembling", AssemblingCompanies); ("assembling", AssemblingProjects) ].

(** The notification that opens the fetch of a collection. *)
Definition opening (what : string) (note : string * Detail) : Prop :=
  (what = "companies" ∧ note = ("companies", FetchingCompanies)) ∨
  (what = "users" ∧ note = ("users", FetchingUsers)) ∨
  (what = "projects" ∧ note = ("projects", FetchingProjects)).

(** ** More worked inputs *)

(** Two projects, the first without an id. *)
Definition gap_world : World :=
  script [ page [];
           page [];
           resultsPage [record [("name", "Draft")];
                        record [("id", "p1"); ("name", "Tower")]] None;
           page [];
           resultsPage [] None ].

Definition gap_raw : RawData :=
  {| raw_companies := []; raw_users := [];
     raw_projects := [record [("name", "Draft")];
                      record [("id", "p1"); ("name", "Tower")]];
     raw_fetches := [("p1", [], [])] |}.

Definition gap_caches : Caches :=
  {| companiesCache := [];
     projectsCache :=
       [{| pe_name := "Tower"; pe_uuid := "p1"; pe_platform := "";
           pe_members := []; pe_companies := [] |}] |}.

(** The members of a project arrive as a page of a hundred and a page of
    two. *)
Definition two_member_pages : World :=
  script [resultsPage hundred_companies None; resultsPage example_roster None].

(** The first request of a build is rejected. *)
Definition unreachable : World := script [NetworkError].

(** ** Vocabulary for the runs of the service worker *)

Global Instance isReturn_dec {A} (c : Completion A) : Decision (∃ a, c = Return a).
Proof.
  destruct c as [a|e]; [left; by exists a|right; by intros [? ?]].
Defined.

Global Instance isStored_dec (t : Task) : Decision (∃ caches, t = AwaitStored caches).
Proof.
  destruct t; try (right; by intros [? ?]). left. by eexists.
Defined.

(** The invocations that have settled with a result. *)
Definition successes (sys : System) : list (nat * Completion (list CompanyEntry)) :=
  filter (λ o, ∃ cc, o.2 = Return cc) (outcomes sys).

(** The invocations suspended between their write to local storage and
    their settling. *)
Definition storedTasks (sys : System) : list (nat * Task) :=
  filter (λ t, ∃ caches, t.2 = AwaitStored caches) (tasks sys).

(** * Sorting *)

Section sorting.
Context {A : Type} (cmp : A → A → comparison).

Lemma insertBy_perm x l : insertBy cmp x l ≡ₚ x :: l.
Proof.
  induction l as [|y l IH]; simpl; [done|].
  destruct (cmp x y); try done.
  rewrite IH. apply Permutation_swap.
Qed.

Lemma sortBy_perm l : sortBy cmp l ≡ₚ l.
Proof.
  induction l as [|x l IH]; simpl; [done|].
  unfold sortBy in *. simpl. rewrite insertBy_perm. by rewrite IH.
Qed.

Lemma elem_of_sortBy x l : x ∈ sortBy cmp l ↔ x ∈ l.
Proof. by rewrite sortBy_perm. Qed.

Lemma sortBy_cons x l : sortBy cmp (x :: l) = insertBy cmp x (sortBy cmp l).
Proof. reflexivity. Qed.

(** Elements outside a class pass through an insertion unnoticed. *)
Lemma filter_insertBy_out (P : A → Prop) `{!∀ a, Decision (P a)} x l :
  ¬ P x → filter P (insertBy cmp x l) = filter P l.
Proof.
  intros Hx. induction l as [|y l IH]; simpl.
  - by rewrite filter_cons_False.
  - destruct (cmp x y); rewrite ?(filter_cons_False _ x) by done; try done.
    by rewrite !filter_cons, IH.
Qed.

Hypothesis cmp_consistent : Consistent cmp.

Lemma cmp_total a b : cmp a b = Gt → cmpLe cmp b a.
Proof.
  destruct cmp_consistent as [Hanti _]. unfold cmpLe.
  rewrite (Hanti b a). intros ->. done.
Qed.

Lemma cmpLe_trans a b c : cmpLe cmp a b → cmpLe cmp b c → cmpLe cmp a c.
Proof. destruct cmp_consistent as [_ Htrans]. apply Htrans. Qed.

Lemma cmpLe_refl a : cmpLe cmp a a.
Proof.
  destruct cmp_consistent as [Hanti _]. unfold cmpLe.
  specialize (Hanti a a). destruct (cmp a a); simpl in *; congruence.
Qed.

Lemma cmpTie_sym a b : cmpTie cmp a b → cmpTie cmp b a.
Proof.
  destruct cmp_consistent as [Hanti _]. unfold cmpTie.
  rewrite (Hanti b a). by intros ->.
Qed.

Lemma cmpTie_le a b : cmpTie cmp a b → cmpLe cmp a b.
Proof. unfold cmpTie, cmpLe. congruence. Qed.

Lemma insertBy_sorted x l :
  StronglySorted (cmpLe cmp) l → StronglySorted (cmpLe cmp) (insertBy cmp x l).
Proof.
  induction 1 as [|y l Hl IH Hy]; simpl.
  - repeat constructor.
  - destruct (cmp x y) eqn:Hxy.
    + constructor; [by constructor|].
      constructor; [unfold cmpLe; congruence|].
      eapply Forall_impl; [exact Hy|]. intros z Hz.
      eapply cmpLe_trans; [|exact Hz]. unfold cmpLe; congruence.
    + constructor; [by constructor|].
      constructor; [unfold cmpLe; congruence|].
      eapply Forall_impl; [exact Hy|]. intros z Hz.
      eapply cmpLe_trans; [|exact Hz]. unfold cmpLe; congruence.
    + constructor; [exact IH|].
      rewrite insertBy_perm. constructor; [by apply cmp_total|exact Hy].
Qed.

Lemma sortBy_sorted l : StronglySorted (cmpLe cmp) (sortBy cmp l).
Proof.
  induction l as [|x l IH]; [constructor|].
  rewrite sortBy_cons. by apply insertBy_sorted.
Qed.

(** Inserting before a sorted list whose elements are all above. *)
Lemma insertBy_head x l :
  Forall (cmpLe cmp x) l → insertBy cmp x l = x :: l.
Proof.
  destruct 1 as [|y l Hy _]; simpl; [done|].
  unfold cmpLe in Hy. by destruct (cmp x y).
Qed.

(** Filtering commutes with insertion into a sorted list. *)
Lemma filter_insertBy_in (P : A → Prop) `{!∀ a, Decision (P a)} x l :
  StronglySorted (cmpLe cmp) l → P x →
  filter P (insertBy cmp x l) = insertBy cmp x (filter P l).
Proof.
  intros Hl Hx. induction Hl as [|y l Hl IH Hy]; simpl.
  - by rewrite filter_cons_True.
  - destruct (cmp x y) eqn:Hxy.
    + rewrite filter_cons_True by done. rewrite insertBy_head; [done|].
      apply Forall_forall. intros z [_ Hz]%list_elem_of_filter.
      apply elem_of_cons in Hz as [->|Hz]; [unfold cmpLe; congruence|].
      eapply cmpLe_trans; [|by eapply Forall_forall in Hy].
      unfold cmpLe; congruence.
    + rewrite filter_cons_True by done. rewrite insertBy_head; [done|].
      apply Forall_forall. intros z [_ Hz]%list_elem_of_filter.
      apply elem_of_cons in Hz as [->|Hz]; [unfold cmpLe; congruence|].
      eapply cmpLe_trans; [|by eapply Forall_forall in Hy].
      unfold cmpLe; congruence.
    + rewrite !filter_cons. destruct (decide (P y)); simpl.
      * by rewrite Hxy, IH.
      * exact IH.
Qed.

(** Filtering commutes with a stable sort. *)
Lemma filter_sortBy (P : A → Prop) `{!∀ a, Decision (P a)} l :
  filter P (sortBy cmp l) = sortBy cmp (filter P l).
Proof.
  induction l as [|x l IH]; [done|].
  rewrite sortBy_cons, filter_cons. destruct (decide (P x)).
  - rewrite filter_insertBy_in; [|apply sortBy_sorted|done].
    by rewrite IH.
  - by rewrite filter_insertBy_out.
Qed.

(** A list of elements that all tie is left as it is. *)
Lemma sortBy_ties k l : Forall (cmpTie cmp k) l → sortBy cmp l = l.
Proof.
  induction 1 as [|x l Hx Hl IH]; [done|].
  rewrite sortBy_cons, IH. apply insertBy_head.
  eapply Forall_impl; [exact Hl|]. intros y Hy.
  eapply cmpLe_trans; [apply cmpTie_le, cmpTie_sym, Hx|by apply cmpTie_le].
Qed.

(** Stability. *)
Lemma sortBy_stable k l :
  filter (cmpTie cmp k) (sortBy cmp l) = filter (cmpTie cmp k) l.
Proof.
  rewrite filter_sortBy. apply (sortBy_ties k).
  apply Forall_forall. by intros x [? _]%list_elem_of_filter.
Qed.

End sorting.

Lemma sortBy_fmap {A B} (f : A → B) (cmpA : A → A → comparison)
    (cmpB : B → B → comparison) l :
  (∀ a b, cmpB (f a) (f b) = cmpA a b) →
  sortBy cmpB (f <$> l) = f <$> sortBy cmpA l.
Proof.
  intros Hf. induction l as [|x l IH]; [done|].
  rewrite fmap_cons, !sortBy_cons, IH. clear IH.
  induction (sortBy cmpA l) as [|y l' IH]; [done|].
  rewrite fmap_cons. simpl. rewrite Hf. destruct (cmpA x y); simpl; try done.
  by rewrite IH.
Qed.

(** * Strings *)

Lemma truthy_Some s : truthy (Some s) = true ↔ s ≠ "".
Proof.
  simpl. rewrite negb_true_iff. split.
  - intros H ->. by rewrite String.eqb_refl in H.
  - intros H. by apply String.eqb_neq.
Qed.

Lemma truthy_spec v : truthy v = true ↔ ∃ s, v = Some s ∧ s ≠ "".
Proof.
  destruct v as [s|].
  - rewrite truthy_Some. split; [by exists s|]. by intros (? & [= <-] & ?).
  - split; [done|]. by intros (? & ? & ?).
Qed.

Lemma or_empty_truthy v : truthy v = true → v = Some (or_empty v).
Proof.
  unfold or_empty, js_or. intros Hv. rewrite Hv.
  by destruct v.
Qed.

Lemma or_empty_falsy v : truthy v = false → or_empty v = "".
Proof.
  unfold or_empty, js_or. intros Hv. by rewrite Hv.
Qed.

Lemma or_empty_eq v s : s ≠ "" → or_empty v = s ↔ v = Some s.
Proof.
  intros Hs. destruct (truthy v) eqn:Hv.
  - rewrite (or_empty_truthy v Hv) at 2. split; congruence.
  - rewrite (or_empty_falsy v Hv). split; [congruence|].
    intros ->. apply truthy_Some in Hs. congruence.
Qed.

Lemma trimEnd_idemp s : trimEnd (trimEnd s) = trimEnd s.
Proof.
  induction s as [|c s IH]; [done|].
  simpl. destruct (trimEnd s) as [|c' t] eqn:Ht.
  - destruct (is_white c) eqn:Hc; [done|]. simpl. by rewrite Hc.
  - simpl in *. rewrite IH. done.
Qed.

Lemma trimStart_trimEnd s : trimStart (trimEnd s) = trimEnd (trimStart s).
Proof.
  induction s as [|c s IH]; [done|].
  simpl. destruct (is_white c) eqn:Hc.
  - destruct (trimEnd s) as [|c' t] eqn:Ht.
    + simpl in IH. by rewrite <- IH.
    + simpl. by rewrite Hc.
  - simpl. destruct (trimEnd s); simpl; by rewrite Hc.
Qed.

Lemma trimStart_idemp s : trimStart (trimStart s) = trimStart s.
Proof.
  induction s as [|c s IH]; [done|].
  simpl. destruct (is_white c) eqn:Hc; [done|]. simpl. by rewrite Hc.
Qed.

(** A trimmed string has nothing left to trim. *)
Lemma trim_idemp s : trim (trim s) = trim s.
Proof.
  unfold trim.
  by rewrite trimStart_trimEnd, trimStart_idemp, trimEnd_idemp.
Qed.

(** * Staleness *)

(** C8, as stated, fails: a stored timestamp of zero is reported stale
    whatever its age, here an age of one second. *)
Lemma isCacheStale_zero_timestamp :
  ¬ (isCacheStale 1000 (Some 0) = true ↔ isStale_spec (Some 0) 1000 CACHE_MAX_AGE_MS).
Proof.
  intros [H _]. specialize (H eq_refl).
  destruct H as [H|(t & [= <-] & H)]; [done|].
  vm_compute in H. done.
Qed.

(** C8, amended: [isCacheStale] returns true exactly when the timestamp is
    absent, or zero, or older than the two hours of [CACHE_MAX_AGE_MS]; an
    age of 2h + 1ms is stale, an age of 2h - 1ms is not stale unless the
    timestamp is zero, and an absent timestamp is stale. *)
Theorem isCacheStale_exact (now : Z) (timestamp : option Z) :
  CACHE_MAX_AGE_MS = 7200000 ∧
  (isCacheStale now timestamp = true ↔
     timestamp = Some 0 ∨ isStale_spec timestamp now CACHE_MAX_AGE_MS) ∧
  isCacheStale now (Some (now - (CACHE_MAX_AGE_MS + 1))) = true ∧
  (now - (CACHE_MAX_AGE_MS - 1) ≠ 0 →
     isCacheStale now (Some (now - (CACHE_MAX_AGE_MS - 1))) = false) ∧
  isCacheStale now None = true.
Proof.
  split; [done|]. unfold isStale_spec. repeat split.
  - destruct timestamp as [t|]; simpl; [|by auto].
    rewrite orb_true_iff, Z.eqb_eq, Z.ltb_lt. intros [->|H]; [by left|].
    right. right. exists t. split; [done|lia].
  - intros [->|[->|(t & -> & H)]]; simpl; try done.
    rewrite orb_true_iff, Z.ltb_lt. right. lia.
  - simpl. rewrite orb_true_iff, Z.ltb_lt. right. lia.
  - intros Hnz. simpl. rewrite orb_false_iff, Z.eqb_neq, Z.ltb_ge. lia.
Qed.

Lemma isCacheStale_exact_witness :
  isCacheStale 1700000000000 (Some (1700000000000 - (CACHE_MAX_AGE_MS - 1))) = false.
Proof.
  apply (proj1 (proj2 (proj2 (proj2 (isCacheStale_exact 1700000000000 None))))).
  vm_compute. discriminate.
Defined.

(** * Display names *)

(** C9. [displayUserName] returns the trimmed [name] when that is not
    empty; otherwise the trimmed first name and the trimmed last name
    joined by one space and trimmed again; when name, first name and last
    name are all empty or absent the result is the empty string. The
    result is a string with nothing left to trim. *)
Theorem displayUserName_fallback (user : Obj) :
  let name := trim (or_empty (user !! "name")) in
  let first := trim (or_empty (js_or (user !! "first_name") (user !! "firstName"))) in
  let last := trim (or_empty (js_or (user !! "last_name") (user !! "lastName"))) in
  (name ≠ "" → UsersAPI.displayUserName user = name) ∧
  (name = "" → UsersAPI.displayUserName user = trim (first +:+ " " +:+ last)) ∧
  (truthy (user !! "name") = false →
   truthy (user !! "first_name") = false → truthy (user !! "firstName") = false →
   truthy (user !! "last_name") = false → truthy (user !! "lastName") = false →
   UsersAPI.displayUserName user = "") ∧
  trim (UsersAPI.displayUserName user) = UsersAPI.displayUserName user.
Proof.
  intros name first last. unfold UsersAPI.displayUserName. fold name first last.
  repeat split.
  - intros Hn. apply String.eqb_neq in Hn. by rewrite Hn.
  - intros Hn. by rewrite Hn.
  - intros Hn Hf1 Hf2 Hl1 Hl2. subst name first last. unfold js_or.
    rewrite Hf1, Hl1. rewrite !or_empty_falsy by done. reflexivity.
  - destruct (String.eqb name "") eqn:Hn; simpl.
    + apply trim_idemp.
    + subst name. apply trim_idemp.
Qed.

Lemma displayUserName_fallback_witness :
  UsersAPI.displayUserName {[ "name" := "  "; "first_name" := " Jo "; "lastName" := "Doe " ]}
  = "Jo Doe".
Proof.
  rewrite (proj1 (proj2 (displayUserName_fallback _))); vm_compute; reflexivity.
Defined.

(** * The indexes of steps 2 and 3 *)

Lemma Set_has_spec s x : Set_has s x = true ↔ x ∈ s.
Proof. unfold Set_has. apply bool_decide_eq_true. Qed.

Lemma elem_of_Set_add x y s : x ∈ Set_add y s ↔ x = y ∨ x ∈ s.
Proof.
  unfold Set_add. destruct (Set_has s y) eqn:Hy.
  - apply Set_has_spec in Hy. split; [by right|]. by intros [->|?].
  - rewrite elem_of_app, list_elem_of_singleton. tauto.
Qed.

Lemma eqb_decide (a b : string) : String.eqb a b = bool_decide (a = b).
Proof.
  destruct (String.eqb_spec a b) as [->|Hne].
  - by rewrite bool_decide_eq_true_2.
  - by rewrite bool_decide_eq_false_2.
Qed.

Lemma dict_get_dict_add o c p k :
  dict_get (dict_add c p o) k =
  if decide (k = c) then Some (Set_add p (default [] (dict_get o c))) else dict_get o k.
Proof.
  induction o as [|[k' s] o IH]; simpl.
  - destruct (String.eqb_spec c k), (decide (k = c)); try congruence. done.
  - destruct (String.eqb_spec k' c) as [->|Hne]; simpl.
    + destruct (String.eqb_spec c k), (decide (k = c)); congruence.
    + destruct (String.eqb_spec k' k) as [->|Hne'].
      * destruct (decide (k = c)); congruence.
      * exact IH.
Qed.

Lemma linked_dict_add o c p cid pid :
  linked (dict_add c p o) cid pid ↔ (cid = c ∧ pid = p) ∨ linked o cid pid.
Proof.
  unfold linked. rewrite dict_get_dict_add.
  destruct (decide (cid = c)) as [->|Hne].
  - split.
    + intros (s & [= <-] & Hin). apply elem_of_Set_add in Hin as [->|Hin]; [by left|].
      right. destruct (dict_get o c) as [s|]; [by exists s|]. by apply elem_of_nil in Hin.
    + intros [[_ ->]|(s & Hs & Hin)].
      * eexists. split; [done|]. apply elem_of_Set_add. by left.
      * eexists. split; [done|]. apply elem_of_Set_add. right. by rewrite Hs.
  - split; [by right|]. by intros [[? _]|?].
Qed.

Lemma keys_dict_add o c p :
  (dict_add c p o).*1 = if decide (c ∈ o.*1) then o.*1 else o.*1 ++ [c].
Proof.
  induction o as [|[k s] o IH]; [done|].
  cbn [dict_add]. destruct (String.eqb_spec k c) as [->|Hne]; rewrite !fmap_cons.
  - rewrite decide_True; [done|]. by left.
  - rewrite IH. cbn [fst]. destruct (decide (c ∈ o.*1)) as [Hin|Hn].
    + rewrite decide_True; [done|]. by right.
    + rewrite decide_False; [done|]. intros [->|?]%elem_of_cons; done.
Qed.

Lemma NoDup_keys_dict_add o c p : NoDup o.*1 → NoDup (dict_add c p o).*1.
Proof.
  intros Hnd. rewrite keys_dict_add. destruct (decide (c ∈ o.*1)); [done|].
  apply NoDup_app. split; [done|]. split.
  - intros x Hx Hc. apply list_elem_of_singleton in Hc as ->. done.
  - apply NoDup_singleton.
Qed.

Lemma dict_get_Some {V} (o : list (string * V)) k v :
  NoDup o.*1 → dict_get o k = Some v ↔ (k, v) ∈ o.
Proof.
  induction o as [|[k' v'] o IH]; simpl; intros Hnd.
  - split; [done|]. by intros ?%elem_of_nil.
  - apply NoDup_cons in Hnd as [Hk' Hnd]. rewrite eqb_decide.
    destruct (decide (k' = k)) as [->|Hne].
    + rewrite bool_decide_eq_true_2 by done. split.
      * intros [= ->]. by left.
      * intros [[= ->]|Hin]%elem_of_cons; [done|].
        exfalso. apply Hk'. apply list_elem_of_fmap. by exists (k, v).
    + rewrite bool_decide_eq_false_2 by done. rewrite IH by done.
      rewrite elem_of_cons. split; [by right|]. intros [[= ? ?]|?]; done.
Qed.

Lemma linked_recordCompanies pid pcs o cid p :
  linked (recordCompanies pid pcs o) cid p ↔
  (p = pid ∧ ∃ comp, comp ∈ pcs ∧ hasId comp ∧ idOf comp = cid) ∨ linked o cid p.
Proof.
  unfold recordCompanies. revert o.
  induction pcs as [|comp pcs IH]; intros o; simpl.
  - split; [by right|]. intros [(_ & c & Hc & _)|?]; [|done]. by apply elem_of_nil in Hc.
  - rewrite IH. destruct (truthy (comp !! "id")) eqn:Hid.
    + rewrite linked_dict_add. split.
      * intros [(-> & c & Hc & Hh & <-)|[[-> ->]|Hl]].
        -- left. split; [done|]. exists c. split; [by right|done].
        -- left. split; [done|]. exists comp. split; [by left|].
           split; [unfold hasId; by rewrite Hid|done].
        -- by right.
      * intros [(-> & c & Hc & Hh & <-)|Hl].
        -- apply elem_of_cons in Hc as [->|Hc].
           ++ right. left. done.
           ++ left. split; [done|]. by exists c.
        -- right. by right.
    + split.
      * intros [(-> & c & Hc & Hh & <-)|Hl]; [|by right].
        left. split; [done|]. exists c. split; [by right|done].
      * intros [(-> & c & Hc & Hh & <-)|Hl]; [|by right].
        apply elem_of_cons in Hc as [->|Hc].
        -- unfold hasId in Hh. rewrite Hid in Hh. done.
        -- left. split; [done|]. by exists c.
Qed.

Lemma NoDup_keys_recordCompanies pid pcs o :
  NoDup o.*1 → NoDup (recordCompanies pid pcs o).*1.
Proof.
  unfold recordCompanies. revert o.
  induction pcs as [|comp pcs IH]; intros o Hnd; simpl; [done|].
  apply IH. destruct (truthy (comp !! "id")); [|done].
  by apply NoDup_keys_dict_add.
Qed.

(** A company is linked to a project exactly when one of the companies
    fetches of that project returned a record with the company's id. *)
Lemma linked_indexFetches fs start cid pid :
  linked (indexFetches fs start).1 cid pid ↔
  (∃ f, f ∈ fs ∧ f.1.1 = pid ∧ ∃ comp, comp ∈ f.1.2 ∧ hasId comp ∧ idOf comp = cid)
  ∨ linked start.1 cid pid.
Proof.
  unfold indexFetches. revert start.
  induction fs as [|f fs IH]; intros start; simpl.
  - split; [by right|]. intros [(f & Hf & _)|?]; [|done]. by apply elem_of_nil in Hf.
  - rewrite IH. simpl. rewrite linked_recordCompanies. split.
    + intros [(f' & Hf' & Hrest)|[(-> & Hc)|Hl]].
      * left. exists f'. split; [by right|done].
      * left. exists f. split; [by left|done].
      * by right.
    + intros [(f' & Hf' & Hp & Hc)|Hl].
      * apply elem_of_cons in Hf' as [->|Hf'].
        -- right. left. done.
        -- left. by exists f'.
      * right. by right.
Qed.

Lemma NoDup_keys_indexFetches fs start :
  NoDup start.1.*1 → NoDup (indexFetches fs start).1.*1.
Proof.
  unfold indexFetches. revert start.
  induction fs as [|f fs IH]; intros start Hnd; simpl; [done|].
  apply IH. simpl. by apply NoDup_keys_recordCompanies.
Qed.

(** The roster kept for a project is the result of its last members fetch. *)
Lemma roster_indexFetches fs start pid :
  (indexFetches fs start).2 !! pid =
  match last (filter (λ f, f.1.1 = pid) fs) with
  | Some f => Some f.2
  | None => start.2 !! pid
  end.
Proof.
  unfold indexFetches. revert start.
  induction fs as [|f fs IH]; intros start; simpl; [done|].
  rewrite IH. simpl. rewrite filter_cons.
  destruct (decide (f.1.1 = pid)) as [Heq|Hne].
  - destruct (filter _ fs) as [|f' l] eqn:Hl.
    + simpl. by rewrite Heq, lookup_insert_eq.
    + rewrite last_cons_cons.
      destruct (last (f' :: l)) eqn:Hlast; [done|]. by apply last_None in Hlast.
  - by rewrite lookup_insert_ne.
Qed.

(** The mapping loop computes the indexes of its fetches. *)
Lemma mapProjects_indexFetches token accountId total i projects ix puc w :
  (mapProjects token accountId total i projects ix puc w).1 =
  indexFetches (projectFetches token accountId total i projects w) (ix, puc).
Proof.
  revert i ix puc w. induction projects as [|project rest IH]; intros i ix puc w.
  - done.
  - simpl. destruct (truthy (project !! "id")); simpl.
    + rewrite IH. done.
    + apply IH.
Qed.

(** Step 2: the users of a company, in fetch order. *)
Lemma usersByCompany_lookup users cid :
  cid ≠ "" →
  default [] (usersByCompany users !! cid) =
  filter (λ u, js_or (u !! "company_id") (u !! "companyId") = Some cid) users.
Proof.
  intros Hcid. unfold usersByCompany.
  assert (∀ m : gmap string (list Obj),
    default [] (foldl (λ m user,
           let companyId := js_or (user !! "company_id") (user !! "companyId") in
           if truthy companyId
           then <[or_empty companyId := default [] (m !! or_empty companyId) ++ [user]]> m
           else m) m users !! cid) =
    default [] (m !! cid) ++
    filter (λ u, js_or (u !! "company_id") (u !! "companyId") = Some cid) users) as Hgen.
  { induction users as [|u users IH]; intros m; simpl.
    - by rewrite app_nil_r.
    - rewrite IH. rewrite filter_cons.
      destruct (truthy (js_or (u !! "company_id") (u !! "companyId"))) eqn:Ht.
      + pose proof (or_empty_truthy _ Ht) as Hv.
        destruct (decide (js_or (u !! "company_id") (u !! "companyId") = Some cid))
          as [Heq|Hne].
        * assert (or_empty (js_or (u !! "company_id") (u !! "companyId")) = cid) as ->
            by congruence.
          rewrite lookup_insert_eq. simpl. by rewrite <- app_assoc.
        * rewrite lookup_insert_ne; [done|]. intros Heq. apply Hne. by rewrite Hv, Heq.
      + destruct (decide _) as [Heq|Hne]; [|done].
        rewrite Heq in Ht. apply truthy_Some in Hcid. congruence. }
  rewrite Hgen. by rewrite lookup_empty.
Qed.

(** * The build, in terms of what it fetched *)

Lemma buildCompaniesCache_fetchRaw `{Collator} token accountId w raw :
  fetchRaw token accountId w = Some raw →
  (buildCompaniesCache token accountId w).1 = Return (assemble raw).
Proof.
  unfold fetchRaw, buildCompaniesCache.
  destruct (CompaniesAPI.fetchAll _ _ _) as [[companies|e] w1]; [|done].
  destruct (UsersAPI.fetchAll _ _ _) as [[users|e] w2]; [|done].
  destruct (ProjectsAPI.fetchAll _ _ _) as [[projects|e] w3]; [|done].
  intros [= <-]. cbn [fst]. unfold assemble, raw_projectIdsByCompany, raw_projectUsersCache.
  cbn [raw_companies raw_users raw_projects raw_fetches].
  rewrite !mapProjects_indexFetches. done.
Qed.

Lemma buildCompaniesCache_Return `{Collator} token accountId w caches w' :
  buildCompaniesCache token accountId w = (Return caches, w') →
  ∃ raw, fetchRaw token accountId w = Some raw ∧ caches = assemble raw.
Proof.
  intros Hb. destruct (fetchRaw token accountId w) as [raw|] eqn:Hraw.
  - exists raw. split; [done|].
    apply buildCompaniesCache_fetchRaw in Hraw. rewrite Hb in Hraw. simpl in Hraw.
    congruence.
  - exfalso. revert Hb Hraw. unfold fetchRaw, buildCompaniesCache.
    destruct (CompaniesAPI.fetchAll _ _ _) as [[companies|e] w1]; [|done].
    destruct (UsersAPI.fetchAll _ _ _) as [[users|e] w2]; [|done].
    destruct (ProjectsAPI.fetchAll _ _ _) as [[projects|e] w3]; done.
Qed.

Lemma NoDup_keys_raw raw : NoDup (raw_projectIdsByCompany raw).*1.
Proof. apply NoDup_keys_indexFetches. constructor. Qed.

(** Every fetch of the mapping loop is the fetch of a project with an id. *)
Lemma projectFetches_project token accountId total i projects w f :
  f ∈ projectFetches token accountId total i projects w →
  ∃ project, project ∈ projects ∧ hasId project ∧ idOf project = f.1.1.
Proof.
  revert i w. induction projects as [|project rest IH]; intros i w; simpl.
  - by intros ?%elem_of_nil.
  - destruct (truthy (project !! "id")) eqn:Hid; simpl.
    + intros [->|Hin]%elem_of_cons.
      * exists project. split; [by left|]. split; [unfold hasId; by rewrite Hid|done].
      * destruct (IH _ _ Hin) as (p & Hp & Hrest). exists p. split; [by right|done].
    + intros Hin. destruct (IH _ _ Hin) as (p & Hp & Hrest).
      exists p. split; [by right|done].
Qed.

(** And every project with an id has its fetch. *)
Lemma projectFetches_complete token accountId total i projects w project :
  project ∈ projects → hasId project →
  ∃ f, f ∈ projectFetches token accountId total i projects w ∧ f.1.1 = idOf project.
Proof.
  revert i w. induction projects as [|p rest IH]; intros i w; simpl.
  - by intros ?%elem_of_nil.
  - intros Hin Hid. destruct (truthy (p !! "id")) eqn:Hp; simpl.
    + apply elem_of_cons in Hin as [->|Hin].
      * eexists. split; [by left|done].
      * destruct (IH (S i) (UsersAPI.fetchProjectUsers token (or_empty (p !! "id"))
           (CompaniesAPI.fetchProjectCompanies token accountId (or_empty (p !! "id"))
              (notify "mapping" (MappingProject (S i) total
                 (or_empty (js_or (p !! "name") (p !! "id")))) w)).2).2 Hin Hid)
          as (f & Hf & Hf').
        exists f. split; [by right|done].
    + apply elem_of_cons in Hin as [->|Hin].
      * unfold hasId in Hid. by rewrite Hp in Hid.
      * by apply IH.
Qed.

Lemma fetchRaw_fetches_project token accountId w raw f :
  fetchRaw token accountId w = Some raw → f ∈ raw_fetches raw →
  ∃ project, project ∈ raw_projects raw ∧ hasId project ∧ idOf project = f.1.1.
Proof.
  unfold fetchRaw.
  destruct (CompaniesAPI.fetchAll _ _ _) as [[companies|e] w1]; [|done].
  destruct (UsersAPI.fetchAll _ _ _) as [[users|e] w2]; [|done].
  destruct (ProjectsAPI.fetchAll _ _ _) as [[projects|e] w3]; [|done].
  intros [= <-]. simpl. apply projectFetches_project.
Qed.

Lemma fetchRaw_fetches_complete token accountId w raw project :
  fetchRaw token accountId w = Some raw → project ∈ raw_projects raw → hasId project →
  ∃ f, f ∈ raw_fetches raw ∧ f.1.1 = idOf project.
Proof.
  unfold fetchRaw.
  destruct (CompaniesAPI.fetchAll _ _ _) as [[companies|e] w1]; [|done].
  destruct (UsersAPI.fetchAll _ _ _) as [[users|e] w2]; [|done].
  destruct (ProjectsAPI.fetchAll _ _ _) as [[projects|e] w3]; [|done].
  intros [= <-]. simpl. apply projectFetches_complete.
Qed.

Section assembled.
Context `{Collator}.
Variable raw : RawData.

Lemma elem_of_companiesCache C :
  C ∈ companiesCache (assemble raw) ↔
  ∃ comp, comp ∈ raw_companies raw ∧ hasId comp ∧
    C = companyEntry (raw_users raw) (raw_projects raw)
          (raw_projectIdsByCompany raw) (raw_projectUsersCache raw) comp.
Proof.
  unfold assemble, companiesResult. cbn [companiesCache].
  rewrite elem_of_sortBy, list_elem_of_fmap. split.
  - intros (comp & -> & [Hid Hin]%list_elem_of_filter). by exists comp.
  - intros (comp & Hin & Hid & ->). exists comp. split; [done|].
    by apply list_elem_of_filter.
Qed.

Lemma elem_of_projectsCache P :
  P ∈ projectsCache (assemble raw) ↔
  ∃ project, project ∈ raw_projects raw ∧ hasId project ∧
    P = projectEntry (raw_companies raw) (raw_projectIdsByCompany raw)
          (raw_projectUsersCache raw) project.
Proof.
  unfold assemble, projectsResult. cbn [projectsCache].
  rewrite elem_of_sortBy, list_elem_of_fmap. split.
  - intros (p & -> & [Hid Hin]%list_elem_of_filter). by exists p.
  - intros (p & Hin & Hid & ->). exists p. split; [done|].
    by apply list_elem_of_filter.
Qed.

Lemma elem_of_companyProjectIds cid pid :
  pid ∈ companyProjectIds (raw_projectIdsByCompany raw) cid ↔
  linked (raw_projectIdsByCompany raw) cid pid.
Proof.
  unfold companyProjectIds, linked.
  destruct (dict_get _ cid) as [s|].
  - rewrite elem_of_sortBy. split; [by exists s|]. by intros (? & [= <-] & ?).
  - split; [by intros ?%elem_of_nil|]. by intros (? & ? & ?).
Qed.

Lemma elem_of_projectRecords cid P :
  P ∈ projectRecords (raw_projects raw) (raw_projectIdsByCompany raw)
        (raw_projectUsersCache raw) cid →
  linked (raw_projectIdsByCompany raw) cid (pr_uuid P) ∧
  pr_members P = embeddedMembers (raw_projectUsersCache raw) cid (pr_uuid P).
Proof.
  unfold projectRecords. rewrite elem_of_sortBy, list_elem_of_fmap.
  intros (pid & -> & Hpid). cbn [pr_uuid pr_members].
  split; [by apply elem_of_companyProjectIds|done].
Qed.

Lemma uuid_projectRecords cid pid :
  pid ∈ pr_uuid <$> projectRecords (raw_projects raw) (raw_projectIdsByCompany raw)
                      (raw_projectUsersCache raw) cid ↔
  linked (raw_projectIdsByCompany raw) cid pid.
Proof.
  rewrite list_elem_of_fmap. split.
  - intros (P & -> & HP). by apply elem_of_projectRecords in HP as [? _].
  - intros Hl. apply elem_of_companyProjectIds in Hl.
    eexists. split; [|unfold projectRecords; apply elem_of_sortBy, list_elem_of_fmap;
                      eexists; split; [reflexivity|exact Hl]].
    done.
Qed.

Lemma elem_of_companyIdsForProject pid cid :
  cid ∈ companyIdsForProject (raw_projectIdsByCompany raw) pid ↔
  linked (raw_projectIdsByCompany raw) cid pid.
Proof.
  unfold linked. setoid_rewrite (dict_get_Some _ _ _ (NoDup_keys_raw raw)).
  unfold companyIdsForProject.
  generalize (raw_projectIdsByCompany raw). intros o.
  assert (∀ acc, cid ∈ foldl (λ s entry, if Set_has entry.2 pid
                                         then Set_add entry.1 s else s) acc o ↔
                 cid ∈ acc ∨ ∃ s, (cid, s) ∈ o ∧ pid ∈ s) as Hgen.
  { induction o as [|[k s] o IH]; intros acc; simpl.
    - split; [by left|]. intros [?|(? & ?%elem_of_nil & _)]; done.
    - rewrite IH. destruct (Set_has s pid) eqn:Hs.
      + apply Set_has_spec in Hs. rewrite elem_of_Set_add. split.
        * intros [[->|?]|(s' & Hin & Hp)].
          -- right. exists s. split; [by left|done].
          -- by left.
          -- right. exists s'. split; [by right|done].
        * intros [?|(s' & [[= -> ->]|Hin]%elem_of_cons & Hp)].
          -- left. by right.
          -- left. by left.
          -- right. by exists s'.
      + split.
        * intros [?|(s' & Hin & Hp)]; [by left|].
          right. exists s'. split; [by right|done].
        * intros [?|(s' & [[= -> ->]|Hin]%elem_of_cons & Hp)]; [by left| |].
          -- apply Set_has_spec in Hp. congruence.
          -- right. by exists s'. }
  rewrite Hgen. split; [|by right]. intros [?%elem_of_nil|?]; done.
Qed.

Lemma uuid_projectCompanies pid cid :
  cid ∈ cr_uuid <$> projectCompanies (raw_companies raw)
                      (raw_projectIdsByCompany raw) pid ↔
  linked (raw_projectIdsByCompany raw) cid pid.
Proof.
  rewrite <- elem_of_companyIdsForProject. unfold projectCompanies.
  rewrite list_elem_of_fmap. split.
  - intros (c & -> & Hc). apply elem_of_sortBy, list_elem_of_fmap in Hc
      as (cid' & -> & Hc). done.
  - intros Hc. eexists. split; [|apply elem_of_sortBy, list_elem_of_fmap;
                                 eexists; split; [reflexivity|exact Hc]].
    done.
Qed.

End assembled.

(** * Reverse-index agreement *)

(** C1. In the caches one build returns, a project's uuid is among the
    uuids of a company's [projects] exactly when the company's uuid is among
    the uuids of the project's [companies]. *)
Theorem reverse_index_agreement `{Collator} token accountId w caches w' :
  buildCompaniesCache token accountId w = (Return caches, w') →
  ∀ C P, C ∈ companiesCache caches → P ∈ projectsCache caches →
    pe_uuid P ∈ pr_uuid <$> ce_projects C ↔ ce_uuid C ∈ cr_uuid <$> pe_companies P.
Proof.
  intros (raw & Hraw & ->)%buildCompaniesCache_Return C P HC HP.
  apply elem_of_companiesCache in HC as (comp & _ & _ & ->).
  apply elem_of_projectsCache in HP as (project & _ & _ & ->).
  cbn [companyEntry projectEntry ce_projects ce_uuid pe_uuid pe_companies].
  by rewrite uuid_projectRecords, uuid_projectCompanies.
Qed.

(** * Collation *)

Lemma byName_consistent `{Collator} `{!CollatorLaws} {A} (name : A → string) :
  Consistent (byName name).
Proof.
  split; unfold byName.
  - intros a b. apply localeCompare_antisym.
  - intros a b c. apply localeCompare_trans.
Qed.

Lemma ascii_compare_trans a b c :
  Ascii.compare a b ≠ Gt → Ascii.compare b c ≠ Gt → Ascii.compare a c ≠ Gt.
Proof.
  unfold Ascii.compare. rewrite !N.compare_gt_iff. lia.
Qed.

Lemma ascii_compare_Eq_eq a b : Ascii.compare a b = Eq → a = b.
Proof. apply Ascii.compare_eq_iff. Qed.

Lemma codeUnitCompare_trans a b c :
  codeUnitCompare a b ≠ Gt → codeUnitCompare b c ≠ Gt → codeUnitCompare a c ≠ Gt.
Proof.
  unfold codeUnitCompare. revert b c.
  induction a as [|x a IH]; intros [|y b] [|z c]; simpl; try done.
  destruct (Ascii.compare x y) eqn:Hxy; [|..|done].
  - apply ascii_compare_Eq_eq in Hxy as ->.
    destruct (Ascii.compare y z) eqn:Hyz; [|done..].
    apply IH.
  - destruct (Ascii.compare y z) eqn:Hyz; [|..|done].
    + apply ascii_compare_Eq_eq in Hyz as <-. by rewrite Hxy.
    + intros _ _.
      assert (Ascii.compare x z ≠ Gt) as Hxz
        by (apply (ascii_compare_trans x y z); congruence).
      destruct (Ascii.compare x z) eqn:E; [|done..].
      apply ascii_compare_Eq_eq in E as <-.
      rewrite Ascii.compare_antisym, Hxy in Hyz. done.
Qed.

Lemma codeUnitCompare_consistent : Consistent codeUnitCompare.
Proof.
  split; [apply String.compare_antisym|apply codeUnitCompare_trans].
Qed.

Lemma codeUnit_laws : @CollatorLaws codeUnitCollator.
Proof.
  split; [apply String.compare_antisym|apply codeUnitCompare_trans].
Qed.

(** Every [.sort] of the builder returns a stable sort of its array. *)
Lemma sortBy_StableSorted `{Collator} `{!CollatorLaws} {A} (name : A → string) l :
  StableSorted name l (sortBy (byName name) l).
Proof.
  split; [apply sortBy_sorted, byName_consistent|].
  split; [apply sortBy_perm|].
  intros k. apply sortBy_stable, byName_consistent.
Qed.

(** * Members *)

Lemma filter_fmap {A B} (f : A → B) (P : B → Prop) `{!∀ b, Decision (P b)} (l : list A) :
  filter P (f <$> l) = f <$> filter (λ a, P (f a)) l.
Proof.
  induction l as [|x l IH]; [done|].
  rewrite fmap_cons, !filter_cons, IH. by destruct (decide (P (f x))).
Qed.

Lemma hasId_ne o : hasId o → idOf o ≠ "".
Proof.
  unfold hasId, idOf. intros Hid%Is_true_eq_true.
  pose proof (or_empty_truthy _ Hid) as Hv. rewrite Hv in Hid.
  by apply truthy_Some in Hid.
Qed.

Section members.
Context `{Collator}.

Lemma embeddedMembers_spec puc cid pid :
  embeddedMembers puc cid pid =
  sortBy (byName m_name) (memberOf <$> filter (ofCompany cid) (default [] (puc !! pid))).
Proof.
  unfold embeddedMembers. do 2 f_equal. apply list_filter_iff.
  intros pu. unfold ofCompany, hasId.
  rewrite andb_True, bool_decide_spec. done.
Qed.

Lemma userRecords_spec users cid :
  cid ≠ "" →
  userRecords users cid =
  sortBy (byName m_name) (memberOf <$> filter (employedBy cid) users).
Proof.
  intros Hcid. unfold userRecords. rewrite usersByCompany_lookup by done.
  rewrite list_filter_filter. do 2 f_equal. apply list_filter_iff.
  intros u. unfold employedBy, hasId. tauto.
Qed.

(** The members embedded under a company are those of the project's
    entry whose [companyId] is the company's, in the same order. *)
Lemma embeddedMembers_projectMembers `{!CollatorLaws} puc cid pid :
  cid ≠ "" →
  embeddedMembers puc cid pid =
  embed <$> filter (λ m, pm_companyId m = cid) (projectMembers puc pid).
Proof.
  intros Hcid. rewrite embeddedMembers_spec. unfold projectMembers.
  rewrite (filter_sortBy _ (byName_consistent pm_name)).
  transitivity (sortBy (byName m_name)
                  (embed <$> (projectMemberOf <$>
                     filter (ofCompany cid) (default [] (puc !! pid))))).
  { by rewrite <- list_fmap_compose. }
  rewrite (sortBy_fmap embed (byName pm_name) (byName m_name)) by done.
  do 2 f_equal. rewrite filter_fmap, list_filter_filter. f_equal.
  apply list_filter_iff.
  intros pu. unfold ofCompany, hasId. cbn [projectMemberOf pm_companyId].
  rewrite (or_empty_eq _ _ Hcid). done.
Qed.

End members.

Lemma count_fmap_NoDup {A B} `{EqDecision B} (f : A → B) (l : list A) x :
  NoDup (f <$> l) → x ∈ l → length (filter (λ y, f y = f x) l) = 1%nat.
Proof.
  induction l as [|y l IH]; [by intros _ ?%elem_of_nil|].
  rewrite fmap_cons, NoDup_cons, filter_cons. intros [Hy Hnd] Hin.
  destruct (decide (f y = f x)) as [Heq|Hne].
  - simpl. f_equal. apply length_zero_iff_nil.
    destruct (filter _ l) as [|z l'] eqn:Hf; [done|]. exfalso.
    assert (z ∈ filter (λ y0, f y0 = f x) l) as [Hz Hzl]%list_elem_of_filter
      by (rewrite Hf; apply list_elem_of_here).
    apply Hy. rewrite Heq, <- Hz. by apply list_elem_of_fmap_2.
  - apply elem_of_cons in Hin as [->|Hin]; [done|]. by apply IH.
Qed.

(** C6, as stated, fails: a member the roster lists twice is embedded
    twice, and a roster record without an id is not embedded at all. *)
Lemma repeated_and_idless_members :
  ∃ caches raw C P,
    (@buildCompaniesCache codeUnitCollator (Some "token") "account" repeated_roster).1
      = Return caches ∧
    fetchRaw (Some "token") "account" repeated_roster = Some raw ∧
    C ∈ companiesCache caches ∧ P ∈ ce_projects C ∧
    member_jo ∈ roster raw (pr_uuid P) ∧ member_jo !! "companyId" = Some (ce_uuid C) ∧
    length (filter (λ m, m_uuid m = idOf member_jo) (pr_members P)) = 2%nat ∧
    member_al ∈ roster raw (pr_uuid P) ∧ member_al !! "companyId" = Some (ce_uuid C) ∧
    memberOf member_al ∉ pr_members P.
Proof.
  destruct (fetchRaw (Some "token") "account" repeated_roster) as [raw|] eqn:Hraw;
    [|vm_compute in Hraw; discriminate].
  exists (@assemble codeUnitCollator raw), raw.
  pose proof (@buildCompaniesCache_fetchRaw codeUnitCollator _ _ _ _ Hraw) as Hb.
  vm_compute in Hraw. injection Hraw as <-.
  eexists _, _. split; [exact Hb|]. split; [reflexivity|].
  split; [vm_compute; apply list_elem_of_here|].
  split; [vm_compute; apply list_elem_of_here|].
  split; [vm_compute; apply list_elem_of_here|]. split; [reflexivity|].
  split; [vm_compute; reflexivity|].
  split; [vm_compute; do 2 apply list_elem_of_further; apply list_elem_of_here|].
  split; [reflexivity|].
  vm_compute. intros Hin. repeat (apply elem_of_cons in Hin as [Hin|Hin]; [discriminate|]).
  by apply elem_of_nil in Hin.
Qed.

(** C6, amended. Under a company C of the built [companiesCache], the
    members of a listed project P all come from records of the project's
    roster that have an id and whose [companyId] is C's uuid, and they are
    exactly the members of P's entry in [projectsCache] that carry that
    [companyId], in the same order. A member is embedded as many times as
    the roster holds such a record with its id: exactly once when the ids
    on the roster are distinct. *)
Theorem member_intersection `{Collator} `{!CollatorLaws} token accountId w caches w' raw :
  buildCompaniesCache token accountId w = (Return caches, w') →
  fetchRaw token accountId w = Some raw →
  ∀ C P, C ∈ companiesCache caches → P ∈ ce_projects C →
    (∀ m, m ∈ pr_members P →
       ∃ pu, pu ∈ roster raw (pr_uuid P) ∧ pu !! "companyId" = Some (ce_uuid C) ∧
             hasId pu ∧ m = memberOf pu) ∧
    (∃ PP, PP ∈ projectsCache caches ∧ pe_uuid PP = pr_uuid P) ∧
    (∀ PP, PP ∈ projectsCache caches → pe_uuid PP = pr_uuid P →
       pr_members P = embed <$> filter (λ m, pm_companyId m = ce_uuid C) (pe_members PP)) ∧
    (∀ i, length (filter (λ m, m_uuid m = i) (pr_members P)) =
          length (filter (λ pu, idOf pu = i)
                    (filter (ofCompany (ce_uuid C)) (roster raw (pr_uuid P))))) ∧
    (NoDup (idOf <$> filter hasId (roster raw (pr_uuid P))) →
     ∀ pu, pu ∈ roster raw (pr_uuid P) → ofCompany (ce_uuid C) pu →
       length (filter (λ m, m_uuid m = idOf pu) (pr_members P)) = 1%nat).
Proof.
  intros Hb Hraw. pose proof Hb as (raw' & Hraw' & ->)%buildCompaniesCache_Return.
  assert (raw' = raw) as -> by congruence. clear Hraw'.
  intros C P (comp & Hcomp & Hid & ->)%elem_of_companiesCache HP.
  cbn [companyEntry ce_projects ce_uuid] in *.
  apply elem_of_projectRecords in HP as [Hlinked Hmem].
  assert (∀ i, length (filter (λ m, m_uuid m = i) (pr_members P)) =
               length (filter (λ pu, idOf pu = i)
                         (filter (ofCompany (or_empty (comp !! "id")))
                                 (roster raw (pr_uuid P))))) as Hcount.
  { intros i. rewrite Hmem, embeddedMembers_spec.
    rewrite (Permutation_length (filter_Permutation _ _ _ (sortBy_perm _ _))).
    by rewrite filter_fmap, length_fmap. }
  split; [|split; [|split; [|split]]].
  - intros m. rewrite Hmem, embeddedMembers_spec, elem_of_sortBy, list_elem_of_fmap.
    intros (pu & -> & [[Hc Hi] Hin]%list_elem_of_filter). by exists pu.
  - apply linked_indexFetches in Hlinked as [(f & Hf & Hpid & _)|(s & Hs & _)];
      [|done].
    destruct (fetchRaw_fetches_project _ _ _ _ _ Hraw Hf) as (project & Hin & Hp & Hpf).
    eexists. split; [apply elem_of_projectsCache; by exists project|].
    cbn [projectEntry pe_uuid]. unfold idOf in Hpf. congruence.
  - intros PP (project & _ & _ & ->)%elem_of_projectsCache Huuid.
    cbn [projectEntry pe_uuid pe_members] in *.
    rewrite Hmem, <- Huuid. apply embeddedMembers_projectMembers. by apply hasId_ne.
  - exact Hcount.
  - intros Hnd pu Hin Hof. rewrite Hcount.
    apply (count_fmap_NoDup idOf); [|by apply list_elem_of_filter].
    rewrite <- (list_filter_filter_l (ofCompany (or_empty (comp !! "id"))) hasId)
      by (by intros ? [_ ?]).
    eapply sublist_NoDup; [exact Hnd|]. apply fmap_sublist, sublist_filter.
Qed.

Lemma example_build :
  @buildCompaniesCache codeUnitCollator (Some "token") "account" example =
  (Return example_caches,
   (@buildCompaniesCache codeUnitCollator (Some "token") "account" example).2).
Proof. vm_compute. reflexivity. Qed.

Lemma example_fetchRaw : fetchRaw (Some "token") "account" example = Some example_raw.
Proof. vm_compute. reflexivity. Qed.

Lemma example_company_in : example_company ∈ companiesCache example_caches.
Proof. apply list_elem_of_here. Qed.

Lemma example_entry_in : example_entry ∈ projectsCache example_caches.
Proof. apply list_elem_of_here. Qed.

Lemma example_project_in : example_project ∈ ce_projects example_company.
Proof. apply list_elem_of_here. Qed.

Lemma member_intersection_witness :
  length (filter (λ m, m_uuid m = "u1") (pr_members example_project)) = 1%nat.
Proof.
  refine (proj2 (proj2 (proj2 (proj2
            (@member_intersection codeUnitCollator codeUnit_laws
               (Some "token") "account" example example_caches _ example_raw
               example_build example_fetchRaw example_company example_project
               example_company_in example_project_in))))
            _ (record [("id", "u1"); ("name", "Jo"); ("companyId", "c1")]) _ _).
  - vm_compute. repeat constructor; intros Hin;
      repeat (apply elem_of_cons in Hin as [Hin|Hin]; [discriminate|]);
      by apply elem_of_nil in Hin.
  - apply list_elem_of_here.
  - split; [reflexivity|]. vm_compute. exact I.
Defined.

Lemma reverse_index_agreement_witness :
  pe_uuid example_entry ∈ pr_uuid <$> ce_projects example_company ↔
  ce_uuid example_company ∈ cr_uuid <$> pe_companies example_entry.
Proof.
  apply (@reverse_index_agreement codeUnitCollator (Some "token") "account"
           example example_caches _ example_build).
  - exact example_company_in.
  - exact example_entry_in.
Defined.

(** * The two spellings of the company field *)

(** C10. The members embedded under a company's project are computed from
    the roster records whose camelCase [companyId] is the company's id: a
    roster record without a [companyId] field, whatever its [company_id],
    contributes to no embedded list. The company's own [users] list takes
    every account user whose [company_id], or else [companyId], is the
    company's id. *)
Theorem companyId_spelling `{Collator} token accountId w caches w' raw :
  buildCompaniesCache token accountId w = (Return caches, w') →
  fetchRaw token accountId w = Some raw →
  ∀ C, C ∈ companiesCache caches →
    (∀ P, P ∈ ce_projects C →
       (∀ m, m ∈ pr_members P →
          ∃ pu, pu ∈ roster raw (pr_uuid P) ∧ pu !! "companyId" = Some (ce_uuid C) ∧
                m = memberOf pu) ∧
       pr_members P =
         sortBy (byName m_name)
           (memberOf <$>
              filter (ofCompany (ce_uuid C))
                (filter (λ pu, pu !! "companyId" ≠ None) (roster raw (pr_uuid P))))) ∧
    (∀ u, u ∈ raw_users raw → hasId u →
       js_or (u !! "company_id") (u !! "companyId") = Some (ce_uuid C) →
       memberOf u ∈ ce_users C).
Proof.
  intros Hb Hraw. pose proof Hb as (raw' & Hraw' & ->)%buildCompaniesCache_Return.
  assert (raw' = raw) as -> by congruence. clear Hraw'.
  intros C (comp & Hcomp & Hid & ->)%elem_of_companiesCache.
  cbn [companyEntry ce_projects ce_uuid ce_users]. split.
  - intros P [Hlinked Hmem]%elem_of_projectRecords. rewrite Hmem, embeddedMembers_spec.
    split.
    + intros m. rewrite elem_of_sortBy, list_elem_of_fmap.
      intros (pu & -> & [[Hc _] Hin]%list_elem_of_filter). by exists pu.
    + do 2 f_equal. rewrite list_filter_filter. apply list_filter_iff.
      intros pu. unfold ofCompany. split; [|tauto].
      intros [Hc Hi]. split; [done|]. by rewrite Hc.
  - intros u Hu Hidu Hc. rewrite userRecords_spec by (by apply hasId_ne).
    apply elem_of_sortBy, list_elem_of_fmap. exists u. split; [done|].
    apply list_elem_of_filter. done.
Qed.

Lemma companyId_spelling_witness :
  memberOf (record [("id", "u2"); ("name", "Al"); ("company_id", "c1")])
    ∈ ce_users example_company.
Proof.
  apply (@companyId_spelling codeUnitCollator (Some "token") "account"
           example example_caches _ example_raw
           example_build example_fetchRaw example_company example_company_in).
  - apply list_elem_of_further, list_elem_of_here.
  - vm_compute. exact I.
  - vm_compute. reflexivity.
Defined.

(** * Sorting of the caches *)

Lemma keys_recordCompanies pid pcs o :
  (recordCompanies pid pcs o).*1 =
  foldl (λ s x, Set_add x s) o.*1 (idOf <$> filter hasId pcs).
Proof.
  unfold recordCompanies. revert o.
  induction pcs as [|comp pcs IH]; intros o; [done|].
  cbn [foldl]. rewrite IH, filter_cons.
  destruct (decide (hasId comp)) as [Hid|Hid]; unfold hasId in Hid.
  - rewrite (Is_true_eq_true _ Hid). rewrite fmap_cons. cbn [foldl].
    f_equal. rewrite keys_dict_add. unfold Set_add, Set_has, idOf.
    destruct (decide (or_empty (comp !! "id") ∈ o.*1)).
    + by rewrite bool_decide_eq_true_2.
    + by rewrite bool_decide_eq_false_2.
  - destruct (truthy (comp !! "id")); [by destruct Hid|done].
Qed.

Lemma keys_indexFetches fs start :
  (indexFetches fs start).1.*1 =
  foldl (λ s x, Set_add x s) start.1.*1 (fs ≫= λ f, idOf <$> filter hasId f.1.2).
Proof.
  unfold indexFetches. revert start.
  induction fs as [|f fs IH]; intros start; [done|].
  cbn [foldl]. rewrite IH. cbn [fst]. rewrite keys_recordCompanies.
  rewrite bind_cons, foldl_app. done.
Qed.

(** The keys of the association index, in enumeration order. *)
Lemma keys_raw raw :
  (raw_projectIdsByCompany raw).*1 = firstOccurrences (associatedIds raw).
Proof. apply keys_indexFetches. Qed.

Lemma companyIdsForProject_keys (o : list (string * list string)) pid :
  NoDup o.*1 →
  companyIdsForProject o pid = filter (λ cid, linked o cid pid) o.*1.
Proof.
  intros Hnd. unfold companyIdsForProject.
  assert (∀ (Q : string → Prop) `{!∀ k, Decision (Q k)} o' acc,
            (∀ k s, (k, s) ∈ o' → (Q k ↔ pid ∈ s)) →
            NoDup o'.*1 → (∀ k, k ∈ acc → k ∉ o'.*1) →
            foldl (λ s entry, if Set_has entry.2 pid then Set_add entry.1 s else s) acc o'
            = acc ++ filter Q o'.*1) as Hgen.
  { intros Q HQ o'. induction o' as [|[k s] o' IH]; intros acc HQs Hnd' Hdisj.
    - by rewrite app_nil_r.
    - cbn [foldl fst snd]. rewrite fmap_cons, filter_cons. cbn [fst].
      apply NoDup_cons in Hnd' as [Hk Hnd']. rewrite fmap_cons in Hdisj.
      destruct (Set_has s pid) eqn:Hs.
      + apply Set_has_spec in Hs.
        rewrite decide_True by (apply (HQs k s); [by left|done]).
        assert (Set_add k acc = acc ++ [k]) as ->.
        { unfold Set_add, Set_has. rewrite bool_decide_eq_false_2; [done|].
          intros Hin. apply (Hdisj k Hin). by left. }
        rewrite IH; [by rewrite <- app_assoc| |done|].
        * intros k' s' Hin. apply HQs. by right.
        * intros k' [Hin|Hin]%elem_of_app.
          -- intros Hin'. apply (Hdisj k' Hin). by right.
          -- apply list_elem_of_singleton in Hin as ->. done.
      + rewrite decide_False.
        * apply IH; [|done|].
          -- intros k' s' Hin. apply HQs. by right.
          -- intros k' Hin Hin'. apply (Hdisj k' Hin). by right.
        * intros HQk. apply (HQs k s) in HQk; [|by left].
          apply Set_has_spec in HQk. congruence. }
  rewrite (Hgen (λ cid, linked o cid pid) _ o []); [done| |done|].
  - intros k s Hin. unfold linked. apply (dict_get_Some _ _ _ Hnd) in Hin.
    rewrite Hin. split; [by intros (? & [= <-] & ?)|]. intros ?. by exists s.
  - by intros k ?%elem_of_nil.
Qed.

(** C7, as stated, fails for the projects nested under a company: of two
    projects whose names differ only in case, the one with the smaller id
    comes first, though it was fetched last. *)
Lemma nested_projects_tie_order :
  ∃ caches raw,
    (@buildCompaniesCache codeUnitCollator (Some "token") "account" tie_world).1
      = Return caches ∧
    fetchRaw (Some "token") "account" tie_world = Some raw ∧
    companiesCache caches = [tie_company] ∧
    idOf <$> raw_projects raw = ["p2"; "p1"] ∧
    pr_uuid <$> ce_projects tie_company = ["p1"; "p2"] ∧
    ¬ @StableSorted codeUnitCollator _ pr_name
        (@projectRecordsInFetchOrder codeUnitCollator raw (ce_uuid tie_company))
        (ce_projects tie_company).
Proof.
  destruct (fetchRaw (Some "token") "account" tie_world) as [raw|] eqn:Hraw;
    [|vm_compute in Hraw; discriminate].
  exists (@assemble codeUnitCollator raw), raw.
  split; [by apply buildCompaniesCache_fetchRaw|].
  vm_compute in Hraw. injection Hraw as <-.
  split; [done|]. split; [vm_compute; reflexivity|].
  split; [vm_compute; reflexivity|]. split; [vm_compute; reflexivity|].
  intros (_ & _ & Hties).
  specialize (Hties {| pr_name := "tower"; pr_uuid := "p1"; pr_platform := "";
                       pr_members := [] |}).
  vm_compute in Hties. discriminate.
Qed.

Lemma fmap_fmap_cancel {A B} (f : A → B) (g : B → A) (l : list A) :
  (∀ x, g (f x) = x) → g <$> (f <$> l) = l.
Proof.
  intros Hgf. induction l as [|x l IH]; [done|].
  by rewrite !fmap_cons, Hgf, IH.
Qed.

(** C7, amended. In both caches the top-level arrays and every nested list
    are sorted ascending by case-insensitive name, by a stable sort: names
    equal up to case keep the order of the array that was sorted. That
    order is the fetch order for the two top-level arrays, for the users
    of a company and for the members of a project; for the projects nested
    under a company it is the ascending order of their ids; for the
    companies nested under a project it is the order in which the company
    ids were first returned by the per-project companies fetches.
    Companies fetched with the names bravo, Alpha, charlie come out as
    Alpha, bravo, charlie. *)
Theorem caches_sorted_by_name `{Collator} `{!CollatorLaws}
    token accountId w caches w' raw :
  buildCompaniesCache token accountId w = (Return caches, w') →
  fetchRaw token accountId w = Some raw →
  StableSorted ce_name (companiesInFetchOrder raw) (companiesCache caches) ∧
  StableSorted pe_name (projectsInFetchOrder raw) (projectsCache caches) ∧
  (∀ C, C ∈ companiesCache caches →
     StableSorted m_name
       (memberOf <$> filter (employedBy (ce_uuid C)) (raw_users raw)) (ce_users C) ∧
     (∃ pre, StableSorted pr_name pre (ce_projects C) ∧
             StronglySorted (cmpLe codeUnitCompare) (pr_uuid <$> pre)) ∧
     (∀ P, P ∈ ce_projects C →
        StableSorted m_name
          (memberOf <$> filter (ofCompany (ce_uuid C)) (roster raw (pr_uuid P)))
          (pr_members P))) ∧
  (∀ PP, PP ∈ projectsCache caches →
     StableSorted pm_name
       (projectMemberOf <$> filter hasId (roster raw (pe_uuid PP))) (pe_members PP) ∧
     (∃ pre, StableSorted cr_name pre (pe_companies PP) ∧
             cr_uuid <$> pre =
             filter (λ cid, linked (raw_projectIdsByCompany raw) cid (pe_uuid PP))
                    (firstOccurrences (associatedIds raw)))) ∧
  (localeCompare "alpha" "bravo" = Lt → localeCompare "bravo" "charlie" = Lt →
   (λ comp, or_empty (comp !! "name")) <$> filter hasId (raw_companies raw)
     = ["bravo"; "Alpha"; "charlie"] →
   ce_name <$> companiesCache caches = ["Alpha"; "bravo"; "charlie"]).
Proof.
  intros Hb Hraw. pose proof Hb as (raw' & Hraw' & ->)%buildCompaniesCache_Return.
  assert (raw' = raw) as -> by congruence. clear Hraw'.
  split; [apply sortBy_StableSorted|]. split; [apply sortBy_StableSorted|].
  split; [|split].
  - intros C (comp & Hcomp & Hid & ->)%elem_of_companiesCache.
    cbn [companyEntry ce_users ce_projects ce_uuid]. split; [|split].
    + rewrite userRecords_spec by (by apply hasId_ne). apply sortBy_StableSorted.
    + eexists. split; [apply sortBy_StableSorted|].
      rewrite fmap_fmap_cancel by done. unfold companyProjectIds.
      destruct (dict_get _ _); [|constructor].
      apply sortBy_sorted, codeUnitCompare_consistent.
    + intros P [_ ->]%elem_of_projectRecords. rewrite embeddedMembers_spec.
      apply sortBy_StableSorted.
  - intros PP (project & Hp & Hid & ->)%elem_of_projectsCache.
    cbn [projectEntry pe_members pe_companies pe_uuid]. split.
    + apply sortBy_StableSorted.
    + eexists. split; [apply sortBy_StableSorted|].
      rewrite fmap_fmap_cancel by done. rewrite <- keys_raw.
      apply companyIdsForProject_keys, NoDup_keys_raw.
  - intros Hab Hbc Hnames. unfold assemble, companiesResult. cbn [companiesCache].
    rewrite <- (sortBy_fmap ce_name (byName ce_name) (byName (λ s : string, s))) by done.
    rewrite <- list_fmap_compose.
    change (ce_name ∘ _) with (λ comp : Obj, or_empty (comp !! "name")).
    change (filter (λ comp, truthy (comp !! "id")) (raw_companies raw))
      with (filter hasId (raw_companies raw)).
    rewrite Hnames. clear Hnames.
    assert (localeCompare "alpha" "charlie" ≠ Gt) as Hac
      by (apply (localeCompare_trans _ "bravo"); congruence).
    assert (localeCompare "bravo" "alpha" = Gt) as Hba
      by (by rewrite localeCompare_antisym, Hab).
    assert (toLowerCase "Alpha" = "alpha") as HA by (vm_compute; reflexivity).
    assert (toLowerCase "bravo" = "bravo") as HB by (vm_compute; reflexivity).
    assert (toLowerCase "charlie" = "charlie") as HC by (vm_compute; reflexivity).
    unfold sortBy, byName. cbn [foldr insertBy]. rewrite HA, HC.
    destruct (localeCompare "alpha" "charlie") eqn:Hac'; [| |done].
    all: cbn [insertBy]; rewrite ?HA, ?HB, Hba; cbn [insertBy].
    all: rewrite ?HB, ?HC, Hbc; reflexivity.
Qed.

Lemma caches_sorted_by_name_witness :
  ce_name <$> companiesCache (@assemble codeUnitCollator alphabet_raw)
  = ["Alpha"; "bravo"; "charlie"].
Proof.
  refine (proj2 (proj2 (proj2 (proj2
            (@caches_sorted_by_name codeUnitCollator codeUnit_laws
               (Some "token") "account" alphabet_world
               (@assemble codeUnitCollator alphabet_raw)
               (@buildCompaniesCache codeUnitCollator (Some "token") "account"
                  alphabet_world).2 alphabet_raw _ _)))) _ _ _);
    vm_compute; reflexivity.
Defined.

(** * The pagination loops *)

Lemma len_nil_iff {A} (l : list A) : (len l =? 0) = true ↔ l = [].
Proof.
  unfold len. rewrite Z.eqb_eq. destruct l; simpl; [done|]. split; [lia|done].
Qed.

Lemma paginate_full what url limit batchOf offset acc sent resp batch more :
  fullPage batchOf limit resp batch →
  paginate what url limit batchOf offset acc sent (resp :: more) =
  paginate what url limit batchOf (offset + limit) (acc ++ batch) (sent ++ [url offset]) more.
Proof.
  intros (status & text & json & -> & Hok & Hjson & Hbatch & Hne & Hlen).
  cbn [paginate]. rewrite Hok. cbn [negb]. rewrite Hbatch.
  destruct (len batch =? 0) eqn:H0; [by apply len_nil_iff in H0|].
  destruct (len batch <? limit) eqn:Hlt; [apply Z.ltb_lt in Hlt; lia|].
  by destruct json.
Qed.

Lemma offsets_S limit n : offsets limit (S n) = offsets limit n ++ [Z.of_nat n * limit].
Proof. unfold offsets. by rewrite seq_S, fmap_app. Qed.

Lemma offsets_cons limit n :
  offsets limit (S n) = 0 :: ((λ z, z + limit) <$> offsets limit n).
Proof.
  unfold offsets. cbn [seq]. rewrite <- seq_shift, fmap_cons, <- !list_fmap_compose.
  f_equal. apply list_fmap_ext. intros i k _. simpl. lia.
Qed.

Lemma paginate_pages what url limit batchOf pages batches :
  Forall2 (fullPage batchOf limit) pages batches →
  ∀ offset acc sent more,
    paginate what url limit batchOf offset acc sent (pages ++ more) =
    paginate what url limit batchOf (offset + Z.of_nat (length pages) * limit)
      (acc ++ concat batches)
      (sent ++ ((λ k, url (offset + k)) <$> offsets limit (length pages))) more.
Proof.
  induction 1 as [|resp batch pages batches Hfull _ IH]; intros offset acc sent more.
  - cbn [length app concat]. unfold offsets. cbn [seq fmap list_fmap].
    rewrite !app_nil_r. by replace (offset + Z.of_nat 0 * limit) with offset by lia.
  - cbn [app]. rewrite (paginate_full _ _ _ _ _ _ _ _ _ _ Hfull), IH.
    cbn [length concat].
    replace (offset + limit + Z.of_nat (length pages) * limit)
      with (offset + Z.of_nat (S (length pages)) * limit) by lia.
    rewrite <- !app_assoc, offsets_cons, fmap_cons. cbn [app].
    replace (offset + 0) with offset by lia.
    rewrite <- list_fmap_compose.
    rewrite (list_fmap_ext (λ k, url (offset + limit + k))
               ((λ k, url (offset + k)) ∘ (λ z, z + limit))); [done|].
    intros i k _. simpl. f_equal. lia.
Qed.

Lemma fetchAllWith_contract what url limit batchOf :
  paginationContract (fetchAllWith what url limit batchOf) what url limit batchOf.
Proof.
  intros w pages batches resp rest Hpending Hpages after.
  assert (sent w ++ (url <$> offsets limit (S (length pages))) =
          (sent w ++ ((λ k, url (0 + k)) <$> offsets limit (length pages)))
          ++ [url (0 + Z.of_nat (length pages) * limit)]) as Hsent.
  { rewrite offsets_S, fmap_app, app_assoc. done. }
  split.
  - intros batch (status & text & json & -> & Hok & Hjson & Hbatch & Hshort).
    unfold fetchAllWith. rewrite Hpending, (paginate_pages _ _ _ _ _ _ Hpages).
    cbn [paginate]. rewrite Hok. cbn [negb]. rewrite Hbatch.
    subst after. rewrite Hsent. cbn [app].
    destruct (len batch =? 0) eqn:H0.
    + apply len_nil_iff in H0 as ->. rewrite !app_nil_r. by destruct json.
    + destruct Hshort as [->|Hlt]; [done|].
      apply Z.ltb_lt in Hlt. rewrite Hlt. by destruct json.
  - intros status text json -> Hok.
    unfold fetchAllWith. rewrite Hpending, (paginate_pages _ _ _ _ _ _ Hpages).
    cbn [paginate]. rewrite Hok. cbn [negb].
    subst after. by rewrite Hsent.
Qed.

Lemma fetchProjectCompanies_full url limit offset acc sent resp batch more :
  fullPage arrayBatch limit resp batch →
  CompaniesAPI.fetchProjectCompanies_loop url limit offset acc sent (resp :: more) =
  CompaniesAPI.fetchProjectCompanies_loop url limit (offset + limit) (acc ++ batch)
    (sent ++ [url offset]) more.
Proof.
  intros (status & text & json & -> & Hok & Hjson & Hbatch & Hne & Hlen).
  destruct json; try done. injection Hbatch as ->.
  cbn [CompaniesAPI.fetchProjectCompanies_loop]. rewrite Hok. cbn [negb].
  destruct (len batch =? 0) eqn:H0; [by apply len_nil_iff in H0|].
  destruct (len batch <? limit) eqn:Hlt; [apply Z.ltb_lt in Hlt; lia|done].
Qed.

(** Where the companies loop of a project stops, by the response that
    follows the full pages. *)
Lemma fetchProjectCompanies_pages url limit pages batches :
  Forall2 (fullPage arrayBatch limit) pages batches →
  ∀ offset acc sent resp rest,
    (notOk resp →
     (CompaniesAPI.fetchProjectCompanies_loop url limit offset acc sent
        (pages ++ resp :: rest)).1.1 = acc ++ concat batches) ∧
    (thrown resp →
     (CompaniesAPI.fetchProjectCompanies_loop url limit offset acc sent
        (pages ++ resp :: rest)).1.1 = []).
Proof.
  induction 1 as [|page batch pages batches Hfull _ IH]; intros offset acc sent resp rest.
  - cbn [app concat]. rewrite app_nil_r. split.
    + intros (status & text & json & -> & Hok).
      cbn [CompaniesAPI.fetchProjectCompanies_loop]. by rewrite Hok.
    + intros [->|(status & text & -> & Hok)]; [done|].
      cbn [CompaniesAPI.fetchProjectCompanies_loop]. by rewrite Hok.
  - cbn [app concat]. rewrite (fetchProjectCompanies_full _ _ _ _ _ _ _ _ Hfull).
    rewrite app_assoc. apply IH.
Qed.

Lemma fetchProjectUsers_pages url limit pages :
  ∀ batches offset acc sent resp rest,
    usersPages limit offset pages batches →
    notOk resp ∨ thrown resp →
    (UsersAPI.fetchProjectUsers_loop url limit offset acc sent
       (pages ++ resp :: rest)).1.1 = acc ++ concat batches.
Proof.
  induction pages as [|page pages IH]; intros [|batch batches] offset acc sent resp rest;
    cbn [usersPages]; try done.
  - intros _ Hfail. cbn [app concat]. rewrite app_nil_r.
    destruct Hfail as [(status & text & json & -> & Hok)
                      |[->|(status & text & -> & Hok)]]; [|done|].
    + cbn [UsersAPI.fetchProjectUsers_loop]. by rewrite Hok.
    + cbn [UsersAPI.fetchProjectUsers_loop]. by rewrite Hok.
  - intros [(status & text & total & -> & Hok & Hne & Hlen & Htotal) Hrest] Hfail.
    cbn [app concat UsersAPI.fetchProjectUsers_loop]. rewrite Hok. cbn [negb].
    destruct (len batch =? 0) eqn:H0; [by apply len_nil_iff in H0|].
    assert (match total with Some t => t <=? offset + len batch | None => false end
            = false) as ->.
    { destruct total as [t|]; [|done]. apply Z.leb_gt. done. }
    destruct (len batch <? limit) eqn:Hlt; [apply Z.ltb_lt in Hlt; lia|].
    rewrite app_assoc. by apply IH.
Qed.

(** C5, as stated, fails for the companies of a project: when a request
    is rejected after a first full page, the page collected is dropped and
    the empty list is returned. *)
Lemma rejected_page_drops_collected :
  Forall2 (fullPage arrayBatch 100) [page hundred_companies] [hundred_companies] ∧
  thrown NetworkError ∧
  (CompaniesAPI.fetchProjectCompanies (Some "token") "account" "p1"
     rejected_second_page).1 = [] ∧
  (CompaniesAPI.fetchProjectCompanies (Some "token") "account" "p1"
     rejected_second_page).1 ≠ concat [hundred_companies].
Proof.
  split; [|split; [by left|split; [vm_compute; reflexivity|vm_compute; discriminate]]].
  constructor; [|constructor].
  exists 200, None, (JArray hundred_companies).
  repeat split; try done; vm_compute; discriminate.
Qed.

(** C5, amended. Every account-level fetcher requests pages at offsets 0,
    limit, 2 * limit, ..., concatenates them in request order, stops at a
    page with fewer records than the limit or with none, and on a response
    that is not a success throws an error carrying the status and the body.
    The per-project fetchers return what was collected so far on a response
    that is not a success; on a rejected request, [fetchProjectUsers]
    returns what was collected so far and [fetchProjectCompanies] returns
    the empty list. *)
Theorem pagination_contract (token : option string) (accountId projectId : string) :
  paginationContract (CompaniesAPI.fetchAll token accountId) "companies"
    (GetPage (AccountCompanies accountId) token 100) 100 arrayBatch ∧
  paginationContract (UsersAPI.fetchAll token accountId) "users"
    (GetPage (AccountUsers accountId) token 100) 100 arrayBatch ∧
  paginationContract (ProjectsAPI.fetchAll token accountId) "projects"
    (GetPage (AccountProjects accountId) token 200) 200 resultsBatch ∧
  (∀ w pages batches resp rest,
     pending w = pages ++ resp :: rest →
     Forall2 (fullPage arrayBatch 100) pages batches →
     (notOk resp →
      (CompaniesAPI.fetchProjectCompanies token accountId projectId w).1
        = concat batches) ∧
     (thrown resp →
      (CompaniesAPI.fetchProjectCompanies token accountId projectId w).1 = [])) ∧
  (∀ w pages batches resp rest,
     pending w = pages ++ resp :: rest →
     usersPages 100 0 pages batches →
     notOk resp ∨ thrown resp →
     (UsersAPI.fetchProjectUsers token projectId w).1 = concat batches).
Proof.
  split; [apply fetchAllWith_contract|].
  split; [apply fetchAllWith_contract|].
  split; [apply fetchAllWith_contract|].
  split.
  - intros w pages batches resp rest Hpending Hpages.
    unfold CompaniesAPI.fetchProjectCompanies, withNet. rewrite Hpending.
    pose proof (fetchProjectCompanies_pages
                  (GetPage (ProjectCompanies accountId projectId) token 100) 100
                  pages batches Hpages 0 [] (sent w) resp rest) as [Hnot Hthrown].
    destruct (CompaniesAPI.fetchProjectCompanies_loop _ _ _ _ _ _) as [[r s] p].
    split; [exact Hnot|exact Hthrown].
  - intros w pages batches resp rest Hpending Hpages Hfail.
    unfold UsersAPI.fetchProjectUsers, withNet. rewrite Hpending.
    pose proof (fetchProjectUsers_pages
                  (GetPage (ProjectUsers projectId) token 100) 100
                  pages batches 0 [] (sent w) resp rest Hpages Hfail) as Hres.
    destruct (UsersAPI.fetchProjectUsers_loop _ _ _ _ _ _) as [[r s] p].
    exact Hres.
Qed.

Lemma pagination_contract_witness :
  CompaniesAPI.fetchAll (Some "token") "account"
    (script [page hundred_companies; page example_companies]) =
  (Return (concat [hundred_companies] ++ example_companies),
   {| pending := [];
      sent := [GetPage (AccountCompanies "account") (Some "token") 100 0;
               GetPage (AccountCompanies "account") (Some "token") 100 100];
      progress := [] |}).
Proof.
  refine (proj1 (proj1 (pagination_contract (Some "token") "account" "p1")
                   (script [page hundred_companies; page example_companies])
                   [page hundred_companies] [hundred_companies]
                   (page example_companies) [] eq_refl _) example_companies _).
  - constructor; [|constructor].
    exists 200, None, (JArray hundred_companies).
    repeat split; try done; vm_compute; discriminate.
  - exists 200, None, (JArray example_companies).
    repeat split; try done. right. vm_compute. reflexivity.
Defined.

(** * Failures of the per-project fetches *)

Lemma fetchProjectCompanies_failsAtOnce token accountId projectId w :
  failsAtOnce (pending w) →
  (CompaniesAPI.fetchProjectCompanies token accountId projectId w).1 = [].
Proof.
  unfold CompaniesAPI.fetchProjectCompanies, withNet, failsAtOnce.
  destruct (pending w) as [|resp rest]; [done|].
  intros [(status & text & json & -> & Hok)|[->|(status & text & -> & Hok)]].
  - cbn [CompaniesAPI.fetchProjectCompanies_loop]. by rewrite Hok.
  - done.
  - cbn [CompaniesAPI.fetchProjectCompanies_loop]. by rewrite Hok.
Qed.

Lemma fetchProjectUsers_failsAtOnce token projectId w :
  failsAtOnce (pending w) →
  (UsersAPI.fetchProjectUsers token projectId w).1 = [].
Proof.
  unfold UsersAPI.fetchProjectUsers, withNet, failsAtOnce.
  destruct (pending w) as [|resp rest]; [done|].
  intros [(status & text & json & -> & Hok)|[->|(status & text & -> & Hok)]].
  - cbn [UsersAPI.fetchProjectUsers_loop]. by rewrite Hok.
  - done.
  - cbn [UsersAPI.fetchProjectUsers_loop]. by rewrite Hok.
Qed.

(** The build completes as soon as the three account-level fetches do. *)
Lemma buildCompaniesCache_completes `{Collator} token accountId w :
  is_Some (fetchRaw token accountId w) ↔
  ∃ caches w', buildCompaniesCache token accountId w = (Return caches, w').
Proof.
  split.
  - intros [raw Hraw]. pose proof (buildCompaniesCache_fetchRaw _ _ _ _ Hraw) as Hb.
    destruct (buildCompaniesCache token accountId w) as [r w']. simpl in Hb. subst r.
    by eexists _, _.
  - intros (caches & w' & Hb). apply buildCompaniesCache_Return in Hb as (raw & -> & _).
    by eexists.
Qed.

Lemma not_linked_without_companies raw pid :
  (∀ f, f ∈ raw_fetches raw → f.1.1 = pid → f.1.2 = []) →
  ∀ cid, ¬ linked (raw_projectIdsByCompany raw) cid pid.
Proof.
  intros Hempty cid [(f & Hf & Hpid & comp & Hcomp & _)|(s & Hs & _)]%linked_indexFetches.
  - rewrite (Hempty f Hf Hpid) in Hcomp. by apply elem_of_nil in Hcomp.
  - done.
Qed.

Lemma roster_without_members raw pid :
  (∀ f, f ∈ raw_fetches raw → f.1.1 = pid → f.2 = []) → roster raw pid = [].
Proof.
  intros Hempty. unfold roster, raw_projectUsersCache. rewrite roster_indexFetches.
  destruct (last _) as [f|] eqn:Hlast; [|done].
  apply last_Some_elem_of, list_elem_of_filter in Hlast as [Hpid Hf].
  simpl. by apply Hempty.
Qed.

(** C3, as stated, fails: the companies fetch of a project that fails on
    its second page leaves the project with the companies of the first
    page, and the project under those companies. *)
Lemma late_failure_keeps_first_page :
  ∃ caches w' PP C,
    @buildCompaniesCache codeUnitCollator (Some "token") "account" late_failure
      = (Return caches, w') ∧
    sent w' !! 4%nat = Some (GetPage (ProjectCompanies "account" "p1") (Some "token") 100 100) ∧
    PP ∈ projectsCache caches ∧ pe_uuid PP = "p1" ∧ length (pe_companies PP) = 100%nat ∧
    C ∈ companiesCache caches ∧ ce_uuid C = "c1" ∧ "p1" ∈ pr_uuid <$> ce_projects C.
Proof.
  destruct (@buildCompaniesCache codeUnitCollator (Some "token") "account" late_failure)
    as [[caches|e] w'] eqn:Hb; vm_compute in Hb; [|discriminate].
  injection Hb as <- <-.
  eexists _, _, _, _. split; [reflexivity|].
  split; [reflexivity|].
  split; [apply list_elem_of_here|]. split; [reflexivity|]. split; [reflexivity|].
  split; [apply list_elem_of_here|]. split; [reflexivity|].
  apply list_elem_of_here.
Qed.

(** C3, amended. The per-project fetchers never throw (they return a
    list), so the build completes as soon as the three account-level
    fetches succeed. A per-project fetch whose first request fails returns
    the empty list. When the companies fetches of a project P returned
    nothing, P appears in [projectsCache] with [companies: []] and no
    company's [projects] list contains P; when the members fetches of P
    returned nothing, P appears with [members: []]. (A fetch that fails on
    a later page returns the pages before it, as C5 says, and these are
    kept.) *)
Theorem per_project_failure_tolerance `{Collator} token accountId :
  (∀ projectId w, failsAtOnce (pending w) →
     (CompaniesAPI.fetchProjectCompanies token accountId projectId w).1 = [] ∧
     (UsersAPI.fetchProjectUsers token projectId w).1 = []) ∧
  (∀ w companies w1 users w2 projects w3,
     CompaniesAPI.fetchAll token accountId (notify "companies" FetchingCompanies w)
       = (Return companies, w1) →
     UsersAPI.fetchAll token accountId
       (notify "users" FetchingUsers
          (notify "companies" (FoundCompanies (length companies)) w1))
       = (Return users, w2) →
     ProjectsAPI.fetchAll token accountId
       (notify "projects" FetchingProjects
          (notify "users" (FoundUsers (length users)) w2))
       = (Return projects, w3) →
     ∃ caches w' raw,
       buildCompaniesCache token accountId w = (Return caches, w') ∧
       fetchRaw token accountId w = Some raw ∧
       raw_companies raw = companies ∧ raw_users raw = users ∧
       raw_projects raw = projects) ∧
  (∀ w caches w' raw,
     buildCompaniesCache token accountId w = (Return caches, w') →
     fetchRaw token accountId w = Some raw →
     ∀ project, project ∈ raw_projects raw → hasId project →
       (∃ PP, PP ∈ projectsCache caches ∧ pe_uuid PP = idOf project) ∧
       ((∀ f, f ∈ raw_fetches raw → f.1.1 = idOf project → f.1.2 = []) →
          (∀ PP, PP ∈ projectsCache caches → pe_uuid PP = idOf project →
             pe_companies PP = []) ∧
          (∀ C, C ∈ companiesCache caches →
             idOf project ∉ pr_uuid <$> ce_projects C)) ∧
       ((∀ f, f ∈ raw_fetches raw → f.1.1 = idOf project → f.2 = []) →
          ∀ PP, PP ∈ projectsCache caches → pe_uuid PP = idOf project →
            pe_members PP = [])).
Proof.
  split; [|split].
  - intros projectId w Hfail. split.
    + by apply fetchProjectCompanies_failsAtOnce.
    + by apply fetchProjectUsers_failsAtOnce.
  - intros w companies w1 users w2 projects w3 Hc Hu Hp.
    assert (∃ raw, fetchRaw token accountId w = Some raw ∧
                   raw_companies raw = companies ∧ raw_users raw = users ∧
                   raw_projects raw = projects) as (raw & Hraw & Hrest).
    { unfold fetchRaw. rewrite Hc, Hu, Hp. by eexists. }
    pose proof (buildCompaniesCache_fetchRaw _ _ _ _ Hraw) as Hb.
    destruct (buildCompaniesCache token accountId w) as [r w'] eqn:Hbuild.
    simpl in Hb. subst r. by exists (assemble raw), w', raw.
  - intros w caches w' raw Hb Hraw.
    pose proof Hb as (raw' & Hraw' & ->)%buildCompaniesCache_Return.
    assert (raw' = raw) as -> by congruence. clear Hraw'.
    intros project Hin Hid. split; [|split].
    + eexists. split; [apply elem_of_projectsCache; by exists project|done].
    + intros Hempty.
      pose proof (not_linked_without_companies raw _ Hempty) as Hnot. split.
      * intros PP (p & _ & _ & ->)%elem_of_projectsCache Huuid.
        cbn [projectEntry pe_uuid pe_companies] in *.
        destruct (projectCompanies _ _ _) as [|c l] eqn:Hpc; [done|].
        exfalso. apply (Hnot (cr_uuid c)). rewrite <- Huuid.
        apply uuid_projectCompanies. rewrite Hpc. apply list_elem_of_here.
      * intros C (comp & _ & _ & ->)%elem_of_companiesCache.
        cbn [companyEntry ce_projects]. rewrite uuid_projectRecords. apply Hnot.
    + intros Hempty PP (p & _ & _ & ->)%elem_of_projectsCache Huuid.
      cbn [projectEntry pe_uuid pe_members] in *. unfold projectMembers.
      fold (roster raw (or_empty (p !! "id"))). rewrite Huuid.
      by rewrite (roster_without_members raw _ Hempty).
Qed.

Lemma early_failure_build :
  @buildCompaniesCache codeUnitCollator (Some "token") "account" early_failure =
  (Return early_failure_caches,
   (@buildCompaniesCache codeUnitCollator (Some "token") "account" early_failure).2).
Proof. vm_compute. reflexivity. Qed.

Lemma early_failure_fetchRaw :
  fetchRaw (Some "token") "account" early_failure = Some early_failure_raw.
Proof. vm_compute. reflexivity. Qed.

Lemma per_project_failure_tolerance_witness :
  pe_companies {| pe_name := "Tower"; pe_uuid := "p1"; pe_platform := "";
                  pe_members := []; pe_companies := [] |} = [].
Proof.
  refine (proj1 (proj1 (proj2
            (proj2 (proj2 (@per_project_failure_tolerance codeUnitCollator
                             (Some "token") "account"))
               early_failure early_failure_caches _ early_failure_raw
               early_failure_build early_failure_fetchRaw
               (record [("id", "p1"); ("name", "Tower")]) _ _)) _) _ _ _).
  - apply list_elem_of_here.
  - vm_compute. exact I.
  - intros f Hf _. apply list_elem_of_singleton in Hf as ->. reflexivity.
  - apply list_elem_of_here.
  - reflexivity.
Defined.

(** * The build orchestrator *)

Lemma get2LeggedToken_frame s r s' :
  get2LeggedToken s = (r, s') →
  cacheBuilding s' = cacheBuilding s ∧ sameCache s s' ∧ now s' = now s ∧
  r ≠ Throw BuildInProgress.
Proof.
  unfold get2LeggedToken, sameCache.
  destruct (negb _ || negb _); [by intros [= <- <-]|].
  destruct (fetchToken _ _ _) as [[|status text json] w']; cbn [fst snd];
    [by intros [= <- <-]|].
  destruct (negb (ok status)); [by intros [= <- <-]|].
  destruct json; by intros [= <- <-].
Qed.

Lemma ensureToken_frame s r s' :
  ensureToken s = (r, s') →
  cacheBuilding s' = cacheBuilding s ∧ sameCache s s' ∧ now s' = now s ∧
  r ≠ Throw BuildInProgress.
Proof.
  unfold ensureToken. destruct (_ || _).
  - apply get2LeggedToken_frame.
  - by intros [= <- <-].
Qed.

Lemma paginate_error what url limit batchOf offset acc sent pending e sent' pending' :
  paginate what url limit batchOf offset acc sent pending = (Throw e, sent', pending') →
  e ≠ BuildInProgress.
Proof.
  revert offset acc sent. induction pending as [|resp rest IH]; intros offset acc sent.
  - by intros [= <- _ _].
  - cbn [paginate]. destruct resp as [|status text json]; [by intros [= <- _ _]|].
    destruct (negb (ok status)); [by intros [= <- _ _]|].
    assert (match batchOf json with
            | Some batch =>
                if len batch =? 0 then (Return acc, sent ++ [url offset], rest)
                else if len batch <? limit
                     then (Return (acc ++ batch), sent ++ [url offset], rest)
                     else paginate what url limit batchOf (offset + limit) (acc ++ batch)
                            (sent ++ [url offset]) rest
            | None => (Return acc, sent ++ [url offset], rest)
            end = (Throw e, sent', pending') → e ≠ BuildInProgress) as Hrest.
    { destruct (batchOf json) as [batch|]; [|done].
      destruct (len batch =? 0); [done|].
      destruct (len batch <? limit); [done|]. apply IH. }
    destruct json; [by intros [= <- _ _]|exact Hrest..].
Qed.

Lemma fetchAllWith_error what url limit batchOf w e w' :
  fetchAllWith what url limit batchOf w = (Throw e, w') → e ≠ BuildInProgress.
Proof.
  unfold fetchAllWith.
  destruct (paginate _ _ _ _ _ _ _ _) as [[r s] p] eqn:Hp.
  intros [= -> _]. by eapply paginate_error.
Qed.

Lemma buildCompaniesCache_error `{Collator} token accountId w e w' :
  buildCompaniesCache token accountId w = (Throw e, w') → e ≠ BuildInProgress.
Proof.
  unfold buildCompaniesCache.
  destruct (CompaniesAPI.fetchAll _ _ _) as [[companies|e1] w1] eqn:H1;
    [|intros [= <- _]; by eapply fetchAllWith_error].
  destruct (UsersAPI.fetchAll _ _ _) as [[users|e2] w2] eqn:H2;
    [|intros [= <- _]; by eapply fetchAllWith_error].
  destruct (ProjectsAPI.fetchAll _ _ _) as [[projects|e3] w3] eqn:H3;
    [|intros [= <- _]; by eapply fetchAllWith_error].
  done.
Qed.

(** One resumption of an admitted invocation: it keeps the flag up until
    it settles and lowers it when it does; it never fails with the error of
    a rejected call; it writes the caches at most once, with one timestamp,
    and only on the way to success. *)
Lemma resume_spec `{Collator} t s r s' :
  resume t s = (r, s') →
  match r with
  | inl t' =>
      cacheBuilding s' = cacheBuilding s ∧
      (sameCache s s' ∨
       ∃ caches, t' = AwaitStored caches ∧
         s' = local_set {| set_companiesCache := companiesCache caches;
                           set_companiesCacheTimestamp := now s;
                           set_projectsCache := projectsCache caches;
                           set_projectsCacheTimestamp := now s |}
                (with_world (world s') s))
  | inr c =>
      cacheBuilding s' = false ∧ sameCache s s' ∧ c ≠ Throw BuildInProgress ∧
      (∀ e, c = Throw e → ∀ caches, t ≠ AwaitStored caches)
  end.
Proof.
  unfold sameCache. destruct t as [|token|token accountId|caches]; cbn [resume].
  - destruct (ensureToken s) as [[token|e] s1] eqn:He; intros [= <- <-];
      apply ensureToken_frame in He as (Hf & [Hl Hw] & _ & Hne).
    + split; [done|]. by left.
    + repeat split; try done; congruence.
  - destruct (negb _); intros [= <- <-].
    + repeat split; try done.
    + split; [done|]. by left.
  - destruct (buildCompaniesCache _ _ _) as [[caches|e] w1] eqn:Hb; intros [= <- <-].
    + split; [done|]. right. by exists caches.
    + apply buildCompaniesCache_error in Hb. repeat split; try done; congruence.
  - intros [= <- <-]. repeat split; try done.
Qed.

Lemma step_singleFlight `{Collator} e sys : singleFlight sys → singleFlight (step e sys).
Proof.
  unfold singleFlight. destruct sys as [s ts os]. cbn [tasks worker].
  destruct e as [id|id|se w tm]; cbn [step tasks worker].
  - destruct ts as [|[id' t] [|? ?]]; [| |done].
    + intros Hf. rewrite Hf. done.
    + intros Hf. rewrite Hf. done.
  - destruct ts as [|[id' t] [|? ?]]; [done| |done].
    intros Hflag. cbn [resumeTask]. destruct (Nat.eqb id' id); [|done].
    destruct (resume t s) as [[t'|c] s'] eqn:Hr; apply resume_spec in Hr; cbn [fst snd].
    + destruct Hr as [-> _]. done.
    + by destruct Hr as [-> _].
  - destruct ts as [|[id' t] [|? ?]]; done.
Qed.

Lemma run_app `{Collator} es es' sys : run (es ++ es') sys = run es' (run es sys).
Proof. unfold run. apply foldl_app. Qed.

Lemma run_singleFlight `{Collator} es sys : singleFlight sys → singleFlight (run es sys).
Proof.
  revert sys. induction es as [|e es IH]; intros sys Hsys; [done|].
  cbn [run foldl]. apply IH. by apply step_singleFlight.
Qed.

Lemma boot_singleFlight lo se w t : singleFlight (boot lo se w t).
Proof. done. Qed.

Lemma singleFlight_flag sys :
  singleFlight sys →
  (length (tasks sys) ≤ 1)%nat ∧ (cacheBuilding (worker sys) = true ↔ tasks sys ≠ []).
Proof.
  unfold singleFlight. destruct (tasks sys) as [|? [|? ?]]; [| |done].
  - intros ->. split; [simpl; lia|]. split; done.
  - intros ->. split; [simpl; lia|]. split; done.
Qed.

(** The outcomes only grow, and nothing else depends on them. *)
Lemma step_outcomes `{Collator} e sys :
  ∃ new, ∀ o, step e (with_outcomes o sys) = with_outcomes (o ++ new) (step e sys)
              ∧ outcomes (step e sys) = outcomes sys ++ new.
Proof.
  destruct sys as [s ts os]. destruct e as [id|id|se w t]; cbn [step with_outcomes worker tasks outcomes].
  - destruct (cacheBuilding s).
    + exists [(id, Throw BuildInProgress)]. done.
    + exists []. intros o. by rewrite !app_nil_r.
  - exists (resumeTask id ts s).1.2. done.
  - exists []. intros o. by rewrite !app_nil_r.
Qed.

Lemma run_outcomes `{Collator} es sys :
  ∃ later, outcomes (run es sys) = outcomes sys ++ later ∧
           ∀ o, run es (with_outcomes o sys) = with_outcomes (o ++ later) (run es sys).
Proof.
  revert sys. induction es as [|e es IH]; intros sys.
  - exists []. rewrite app_nil_r. split; [done|]. intros o. rewrite app_nil_r.
    by destruct sys.
  - cbn [run foldl]. destruct (step_outcomes e sys) as [new Hnew].
    destruct (IH (step e sys)) as (later & Hlater & Hrun).
    exists (new ++ later). split.
    + unfold run in Hlater. rewrite Hlater. destruct (Hnew []) as [_ ->].
      by rewrite app_assoc.
    + intros o. destruct (Hnew o) as [-> _].
      assert (step e sys = with_outcomes (outcomes (step e sys)) (step e sys)) as Heq
        by (by destruct (step e sys)).
      specialize (Hrun (o ++ new)). unfold run in Hrun.
      replace (with_outcomes (o ++ new) (step e sys))
        with (with_outcomes (o ++ new) (with_outcomes (outcomes (step e sys)) (step e sys)))
        by (by destruct (step e sys)).
      rewrite <- Heq. unfold run. rewrite Hrun. by rewrite app_assoc.
Qed.

(** * Single flight *)

(** C2, as stated, fails: a call made while a build is in flight settles
    at once, by failure, and the flag is not reset after it. Here call 1
    is admitted and suspended, call 2 is rejected and so has settled, the
    flag is still up, and call 3 is rejected in turn. *)
Lemma rejected_call_keeps_flag :
  let sys := run (H:=codeUnitCollator) [Invoke 1%nat; Invoke 2%nat]
               (boot configured no_session token_then_example 1700000000000) in
  outcomes sys = [(2%nat, Throw BuildInProgress)] ∧
  tasks sys = [(1%nat, AwaitToken)] ∧
  cacheBuilding (worker sys) = true ∧
  outcomes (step (H:=codeUnitCollator) (Invoke 3%nat) sys) =
    [(2%nat, Throw BuildInProgress); (3%nat, Throw BuildInProgress)] ∧
  tasks (step (H:=codeUnitCollator) (Invoke 3%nat) sys) = [(1%nat, AwaitToken)].
Proof. vm_compute. done. Qed.

(** C2, amended. In every state the service worker can reach, at most one
    invocation of [triggerCacheBuild] is in flight and [cacheBuilding] is
    set exactly then. While one is in flight, a new invocation fails at
    once with the error that only a rejected call gets; it changes nothing
    (no request, no write, and the flag stays up), and whatever happens
    next the state of the worker and the outcomes of the other invocations
    are what they would have been without it. When the invocation in
    flight, the admitted one, settles, by success or by failure, the flag
    is lowered, and the next call is admitted. *)
Theorem single_flight `{Collator} lo se w t es :
  let sys := run es (boot lo se w t) in
  (length (tasks sys) ≤ 1)%nat ∧
  (cacheBuilding (worker sys) = true ↔ tasks sys ≠ []) ∧
  (∀ id, tasks sys ≠ [] →
     step (Invoke id) sys =
     with_outcomes (outcomes sys ++ [(id, Throw BuildInProgress)]) sys) ∧
  (∀ id es', tasks sys ≠ [] →
     ∃ later,
       outcomes (run es' sys) = outcomes sys ++ later ∧
       run es' (step (Invoke id) sys) =
       with_outcomes (outcomes sys ++ (id, Throw BuildInProgress) :: later)
         (run es' sys)) ∧
  (∀ id task c s',
     tasks sys = [(id, task)] → resume task (worker sys) = (inr c, s') →
     c ≠ Throw BuildInProgress ∧
     step (Resume id) sys =
       {| worker := s'; tasks := []; outcomes := outcomes sys ++ [(id, c)] |} ∧
     cacheBuilding s' = false) ∧
  (∀ id, tasks sys = [] →
     step (Invoke id) sys =
     {| worker := with_cacheBuilding true (worker sys);
        tasks := [(id, AwaitToken)];
        outcomes := outcomes sys |}).
Proof.
  intros sys.
  assert (singleFlight sys) as Hsf by apply run_singleFlight, boot_singleFlight.
  destruct (singleFlight_flag sys Hsf) as [Hlen Hflag].
  assert (∀ id, tasks sys ≠ [] →
            step (Invoke id) sys =
            with_outcomes (outcomes sys ++ [(id, Throw BuildInProgress)]) sys) as Hrej.
  { intros id Hbusy. apply Hflag in Hbusy. cbn [step]. by rewrite Hbusy. }
  split; [done|]. split; [done|]. split; [done|]. split; [|split].
  - intros id es' Hbusy. rewrite (Hrej id Hbusy).
    destruct (run_outcomes es' sys) as (later & Hlater & Hrun).
    exists later. split; [done|]. rewrite Hrun. by rewrite <- app_assoc.
  - intros id task c s' Htasks Hres.
    pose proof (resume_spec _ _ _ _ Hres) as (Hdown & _ & Hne & _).
    split; [done|]. split; [|done].
    cbn [step]. rewrite Htasks. cbn [resumeTask]. rewrite Nat.eqb_refl, Hres. done.
  - intros id Hidle. cbn [step].
    assert (cacheBuilding (worker sys) = false) as ->.
    { apply not_true_is_false. intros Hb. by apply Hflag in Hb. }
    by rewrite Hidle.
Qed.

Lemma single_flight_witness :
  step (H:=codeUnitCollator) (Invoke 2)
    (run (H:=codeUnitCollator) [Invoke 1%nat] (boot configured no_session token_then_example 0)) =
  with_outcomes [(2%nat, Throw BuildInProgress)]
    (run (H:=codeUnitCollator) [Invoke 1%nat] (boot configured no_session token_then_example 0)).
Proof.
  refine (proj1 (proj2 (proj2 (@single_flight codeUnitCollator configured no_session
                                 token_then_example 0 [Invoke 1%nat]))) 2%nat _).
  vm_compute. discriminate.
Defined.

(** An invocation that nothing interrupts goes through its four [await]s
    and settles as [triggerCacheBuild] says. *)
Lemma triggerCacheBuild_uninterrupted `{Collator} s id :
  cacheBuilding s = false →
  run [Invoke id; Resume id; Resume id; Resume id; Resume id]
      {| worker := s; tasks := []; outcomes := [] |}
  = {| worker := (triggerCacheBuild s).2; tasks := [];
       outcomes := [(id, (triggerCacheBuild s).1)] |}.
Proof.
  intros Hidle. unfold run, triggerCacheBuild, triggerCacheBuild_try.
  cbn [foldl step worker tasks outcomes]. rewrite Hidle.
  cbn [worker tasks outcomes app resumeTask]. rewrite Nat.eqb_refl. cbn [resume].
  destruct (ensureToken (with_cacheBuilding true s)) as [[token|e] s1]; cbn [fst snd];
    [|done].
  cbn [resumeTask app]. rewrite Nat.eqb_refl. cbn [resume].
  destruct (negb (truthy (accAccountId (session s1)))); cbn [fst snd]; [done|].
  cbn [resumeTask app]. rewrite Nat.eqb_refl. cbn [resume].
  destruct (buildCompaniesCache _ _ _) as [[caches|e] w1]; cbn [fst snd]; [|done].
  cbn [resumeTask app]. rewrite Nat.eqb_refl. cbn [resume fst snd]. done.
Qed.

Lemma triggerCacheBuild_try_spec `{Collator} s r s' :
  triggerCacheBuild_try s = (r, s') →
  match r with
  | Throw e => sameCache s s' ∧ e ≠ BuildInProgress
  | Return cc =>
      ∃ pc, localWrites s' = localWrites s ++
              [{| set_companiesCache := cc; set_companiesCacheTimestamp := now s;
                  set_projectsCache := pc; set_projectsCacheTimestamp := now s |}] ∧
            local s' =
              {| apsClientId := apsClientId (local s);
                 apsClientSecret := apsClientSecret (local s);
                 apsAccountId := apsAccountId (local s);
                 stored_companiesCache := Some cc;
                 companiesCacheTimestamp := Some (now s);
                 stored_projectsCache := Some pc;
                 projectsCacheTimestamp := Some (now s) |}
  end.
Proof.
  unfold triggerCacheBuild_try, sameCache.
  destruct (ensureToken s) as [[token|e] s1] eqn:He;
    apply ensureToken_frame in He as (_ & [Hl Hw] & Hnow & Hne);
    [|intros [= <- <-]; split; [done|congruence]].
  destruct (negb _); [by intros [= <- <-]|].
  destruct (buildCompaniesCache _ _ _) as [[caches|e] w1] eqn:Hb; intros [= <- <-].
  - exists (projectsCache caches). cbn. rewrite Hl, Hw, Hnow. done.
  - apply buildCompaniesCache_error in Hb. done.
Qed.


(** * Persistence *)


Lemma example_triggerCacheBuild :
  triggerCacheBuild (H:=codeUnitCollator) example_worker =
  (Return [example_company], (triggerCacheBuild (H:=codeUnitCollator) example_worker).2).
Proof. vm_compute. reflexivity. Qed.


(** A second call made while the first build is in flight is rejected;
    the first build succeeds; a third call, made after it, is admitted. *)
Example single_flight_run :
  let sys := run (H:=codeUnitCollator)
               [Invoke 1%nat; Invoke 2%nat; Resume 1%nat; Resume 1%nat; Resume 1%nat;
                Resume 1%nat; Invoke 3%nat]
               (boot configured no_session token_then_example 1700000000000) in
  outcomes sys = [(2%nat, Throw BuildInProgress); (1%nat, Return [example_company])] ∧
  tasks sys = [(3%nat, AwaitToken)] ∧
  length (localWrites (worker sys)) = 1%nat.
Proof. vm_compute. done. Qed.

(** * More on the built caches *)

Lemma indexById_lookup_gen (records : list Obj) (m : gmap string Obj) k :
  foldl (λ m r, if truthy (r !! "id") then <[or_empty (r !! "id") := r]> m else m)
        m records !! k =
  match last (filter (λ r, hasId r ∧ idOf r = k) records) with
  | Some r => Some r
  | None => m !! k
  end.
Proof.
  revert m. induction records as [|r records IH]; intros m; [done|].
  cbn [foldl]. rewrite IH, filter_cons.
  destruct (decide (hasId r ∧ idOf r = k)) as [[Hid Hk]|Hnot].
  - unfold hasId in Hid. rewrite (Is_true_eq_true _ Hid).
    destruct (filter _ records) as [|r' l] eqn:Hl.
    + simpl. unfold idOf in Hk. by rewrite Hk, lookup_insert_eq.
    + rewrite last_cons_cons.
      destruct (last (r' :: l)) eqn:Hlast; [done|]. by apply last_None in Hlast.
  - destruct (last _); [done|].
    destruct (truthy (r !! "id")) eqn:Hid; [|done].
    rewrite lookup_insert_ne; [done|]. intros Hk. apply Hnot.
    split; [unfold hasId; by rewrite Hid|done].
Qed.

(** [projectsById] and [companiesById] answer with a record of the array
    that has the id asked for (the last one), when there is one. *)
Lemma indexById_Some records k r :
  indexById records !! k = Some r → r ∈ records ∧ hasId r ∧ idOf r = k.
Proof.
  unfold indexById. rewrite indexById_lookup_gen.
  destruct (last _) as [r'|] eqn:Hlast; [|by rewrite lookup_empty].
  intros [= <-]. apply last_Some_elem_of, list_elem_of_filter in Hlast.
  tauto.
Qed.

Lemma indexById_is_Some records k r :
  r ∈ records → hasId r → idOf r = k → is_Some (indexById records !! k).
Proof.
  intros Hin Hid Hk. unfold indexById. rewrite indexById_lookup_gen.
  destruct (last _) as [r'|] eqn:Hlast; [by eexists|].
  apply last_None in Hlast.
  assert (r ∈ filter (λ r, hasId r ∧ idOf r = k) records) as Hr
    by (by apply list_elem_of_filter).
  rewrite Hlast in Hr. by apply elem_of_nil in Hr.
Qed.

Lemma list_nil_iff {A} (l : list A) : l = [] ↔ ∀ x, x ∉ l.
Proof.
  split; [intros -> x; apply not_elem_of_nil|].
  destruct l as [|x l]; [done|]. intros Hno. destruct (Hno x). apply list_elem_of_here.
Qed.

Lemma fmap_nil_iff {A B} (f : A → B) (l : list A) : f <$> l = [] ↔ l = [].
Proof. destruct l; split; done. Qed.

Section built.
Context `{Collator}.
Variables (token : option string) (accountId : string) (w : World) (raw : RawData).
Hypothesis Hraw : fetchRaw token accountId w = Some raw.

Lemma linked_project cid pid :
  linked (raw_projectIdsByCompany raw) cid pid →
  cid ≠ "" ∧
  (∃ f comp, f ∈ raw_fetches raw ∧ f.1.1 = pid ∧ comp ∈ f.1.2 ∧ hasId comp ∧
             idOf comp = cid) ∧
  ∃ project, project ∈ raw_projects raw ∧ hasId project ∧ idOf project = pid.
Proof.
  intros [(f & Hf & Hpid & comp & Hcomp & Hid & Hcid)|(s & Hs & _)]%linked_indexFetches;
    [|done].
  split; [rewrite <- Hcid; by apply hasId_ne|]. split; [by exists f, comp|].
  destruct (fetchRaw_fetches_project _ _ _ _ _ Hraw Hf) as (project & Hin & Hp & Hpf).
  exists project. split; [done|]. split; [done|]. congruence.
Qed.

Lemma linked_of_fetch f comp :
  f ∈ raw_fetches raw → comp ∈ f.1.2 → hasId comp →
  linked (raw_projectIdsByCompany raw) (idOf comp) f.1.1.
Proof.
  intros Hf Hcomp Hid. apply linked_indexFetches. left.
  exists f. split; [done|]. split; [done|]. by exists comp.
Qed.

Lemma nested_project_entry C P :
  C ∈ companiesCache (assemble raw) → P ∈ ce_projects C →
  ∃ PP, PP ∈ projectsCache (assemble raw) ∧ pe_uuid PP = pr_uuid P ∧
        pe_name PP = pr_name P ∧ pe_platform PP = pr_platform P.
Proof.
  intros (comp & _ & _ & ->)%elem_of_companiesCache.
  cbn [companyEntry ce_projects]. unfold projectRecords.
  rewrite elem_of_sortBy, list_elem_of_fmap. intros (pid & -> & Hpid).
  cbn [pr_uuid pr_name pr_platform].
  apply elem_of_companyProjectIds in Hpid.
  destruct (linked_project _ _ Hpid) as (_ & _ & p & Hp & Hid & Hpp).
  destruct (indexById_is_Some _ _ _ Hp Hid Hpp) as [q Hq]. rewrite Hq.
  apply indexById_Some in Hq as (Hqin & Hqid & Hqq). cbn [default].
  exists (projectEntry (raw_companies raw) (raw_projectIdsByCompany raw)
            (raw_projectUsersCache raw) q).
  split; [apply elem_of_projectsCache; by exists q|]. done.
Qed.

End built.

(** X1. The caches hold one entry for every fetched company, respectively
    project, that has an id, and none for the others; no uuid anywhere in
    the two caches is the empty string. *)
Theorem caches_hold_the_entities_with_ids `{Collator} token accountId w caches w' raw :
  buildCompaniesCache token accountId w = (Return caches, w') →
  fetchRaw token accountId w = Some raw →
  ce_uuid <$> companiesCache caches ≡ₚ idOf <$> filter hasId (raw_companies raw) ∧
  pe_uuid <$> projectsCache caches ≡ₚ idOf <$> filter hasId (raw_projects raw) ∧
  (∀ C, C ∈ companiesCache caches →
     ce_uuid C ≠ "" ∧
     Forall (λ m, m_uuid m ≠ "") (ce_users C) ∧
     Forall (λ P, pr_uuid P ≠ "" ∧ Forall (λ m, m_uuid m ≠ "") (pr_members P))
            (ce_projects C)) ∧
  (∀ PP, PP ∈ projectsCache caches →
     pe_uuid PP ≠ "" ∧
     Forall (λ m, pm_uuid m ≠ "") (pe_members PP) ∧
     Forall (λ c, cr_uuid c ≠ "") (pe_companies PP)).
Proof.
  intros Hb Hraw. pose proof Hb as (raw' & Hraw' & ->)%buildCompaniesCache_Return.
  assert (raw' = raw) as -> by congruence. clear Hraw'.
  split; [|split; [|split]].
  - unfold assemble, companiesResult. cbn [companiesCache].
    rewrite sortBy_perm, <- list_fmap_compose. done.
  - unfold assemble, projectsResult. cbn [projectsCache].
    rewrite sortBy_perm, <- list_fmap_compose. done.
  - intros C (comp & Hcomp & Hid & ->)%elem_of_companiesCache.
    cbn [companyEntry ce_uuid ce_users ce_projects].
    split; [by apply hasId_ne|]. split.
    + apply Forall_forall. intros m. unfold userRecords.
      rewrite elem_of_sortBy, list_elem_of_fmap.
      intros (u & -> & [Hu _]%list_elem_of_filter). by apply hasId_ne.
    + apply Forall_forall. intros P [Hl Hm]%elem_of_projectRecords.
      split.
      * destruct (linked_project _ _ _ _ Hraw _ _ Hl) as (_ & _ & p & _ & Hp & <-).
        by apply hasId_ne.
      * rewrite Hm, embeddedMembers_spec. apply Forall_forall. intros m.
        rewrite elem_of_sortBy, list_elem_of_fmap.
        intros (u & -> & [[_ Hu] _]%list_elem_of_filter). by apply hasId_ne.
  - intros PP (project & Hp & Hid & ->)%elem_of_projectsCache.
    cbn [projectEntry pe_uuid pe_members pe_companies].
    split; [by apply hasId_ne|]. split.
    + apply Forall_forall. intros m. unfold projectMembers.
      rewrite elem_of_sortBy, list_elem_of_fmap.
      intros (u & -> & [Hu _]%list_elem_of_filter). by apply hasId_ne.
    + apply Forall_forall. intros c Hc.
      assert (linked (raw_projectIdsByCompany raw) (cr_uuid c) (or_empty (project !! "id")))
        as Hl by (apply uuid_projectCompanies, list_elem_of_fmap; by exists c).
      by destruct (linked_project _ _ _ _ Hraw _ _ Hl) as (Hne & _).
Qed.

Lemma caches_hold_the_entities_with_ids_witness :
  ce_uuid <$> companiesCache example_caches ≡ₚ idOf <$> filter hasId (raw_companies example_raw).
Proof.
  exact (proj1 (@caches_hold_the_entities_with_ids codeUnitCollator
                  (Some "token") "account" example example_caches _ example_raw
                  example_build example_fetchRaw)).
Defined.

(** X2. The two caches of one build agree on their nested records: a
    project nested under a company has an entry in [projectsCache] with the
    same uuid, name and platform; a company nested under a project has an
    entry in [companiesCache] with the same uuid and name, unless no account
    company has its id, and then its name is empty. *)
Theorem nested_records_agree `{Collator} token accountId w caches w' raw :
  buildCompaniesCache token accountId w = (Return caches, w') →
  fetchRaw token accountId w = Some raw →
  (∀ C P, C ∈ companiesCache caches → P ∈ ce_projects C →
     ∃ PP, PP ∈ projectsCache caches ∧ pe_uuid PP = pr_uuid P ∧
           pe_name PP = pr_name P ∧ pe_platform PP = pr_platform P) ∧
  (∀ PP c, PP ∈ projectsCache caches → c ∈ pe_companies PP →
     (∃ C, C ∈ companiesCache caches ∧ ce_uuid C = cr_uuid c ∧ ce_name C = cr_name c) ∨
     (cr_name c = "" ∧ ∀ C, C ∈ companiesCache caches → ce_uuid C ≠ cr_uuid c)).
Proof.
  intros Hb Hraw. pose proof Hb as (raw' & Hraw' & ->)%buildCompaniesCache_Return.
  assert (raw' = raw) as -> by congruence. clear Hraw'.
  split.
  - intros C P. by apply (nested_project_entry token accountId w).
  - intros PP c (project & _ & _ & ->)%elem_of_projectsCache.
    cbn [projectEntry pe_companies]. unfold projectCompanies.
    rewrite elem_of_sortBy, list_elem_of_fmap. intros (cid & -> & Hcid).
    cbn [cr_uuid cr_name].
    destruct (indexById (raw_companies raw) !! cid) as [comp|] eqn:Hcomp.
    + left. apply indexById_Some in Hcomp as (Hin & Hid & Hc).
      exists (companyEntry (raw_users raw) (raw_projects raw)
                (raw_projectIdsByCompany raw) (raw_projectUsersCache raw) comp).
      split; [apply elem_of_companiesCache; by exists comp|]. done.
    + right. split; [done|].
      intros C (comp & Hin & Hid & ->)%elem_of_companiesCache Heq.
      cbn [companyEntry ce_uuid] in Heq.
      destruct (indexById_is_Some _ _ _ Hin Hid Heq) as [q Hq]. congruence.
Qed.

Lemma nested_records_agree_witness :
  ∃ PP, PP ∈ projectsCache example_caches ∧ pe_uuid PP = pr_uuid example_project ∧
        pe_name PP = pr_name example_project ∧
        pe_platform PP = pr_platform example_project.
Proof.
  exact (proj1 (@nested_records_agree codeUnitCollator
                  (Some "token") "account" example example_caches _ example_raw
                  example_build example_fetchRaw)
           example_company example_project example_company_in example_project_in).
Defined.

(** X3. A company's [projects] list is empty exactly when no companies
    fetch of any project returned a record with the company's id, and its
    [users] list is empty exactly when no account user with an id names the
    company; the company is listed all the same. *)
Theorem empty_nested_lists `{Collator} token accountId w caches w' raw :
  buildCompaniesCache token accountId w = (Return caches, w') →
  fetchRaw token accountId w = Some raw →
  ∀ C, C ∈ companiesCache caches →
    (ce_projects C = [] ↔
       ∀ f comp, f ∈ raw_fetches raw → comp ∈ f.1.2 → hasId comp →
                 idOf comp ≠ ce_uuid C) ∧
    (ce_users C = [] ↔ ∀ u, u ∈ raw_users raw → ¬ employedBy (ce_uuid C) u).
Proof.
  intros Hb Hraw. pose proof Hb as (raw' & Hraw' & ->)%buildCompaniesCache_Return.
  assert (raw' = raw) as -> by congruence. clear Hraw'.
  intros C (comp & Hin & Hid & ->)%elem_of_companiesCache.
  cbn [companyEntry ce_projects ce_users ce_uuid]. split.
  - rewrite <- (fmap_nil_iff pr_uuid), list_nil_iff. split.
    + intros Hno f c Hf Hc Hcid Heq. apply (Hno f.1.1).
      apply uuid_projectRecords. rewrite <- Heq. by apply linked_of_fetch.
    + intros Hno pid Hpid%uuid_projectRecords.
      destruct (linked_project _ _ _ _ Hraw _ _ Hpid) as (_ & (f & c & Hf & _ & Hc & Hcid & Heq) & _).
      by apply (Hno f c).
  - rewrite userRecords_spec by (by apply hasId_ne).
    rewrite list_nil_iff. split.
    + intros Hno u Hu He. apply (Hno (memberOf u)).
      apply elem_of_sortBy, list_elem_of_fmap. exists u. split; [done|].
      by apply list_elem_of_filter.
    + intros Hno m. rewrite elem_of_sortBy, list_elem_of_fmap.
      intros (u & -> & [He Hu]%list_elem_of_filter). by apply (Hno u).
Qed.

Lemma empty_nested_lists_witness :
  ce_projects {| ce_name := "Acme"; ce_uuid := "c1"; ce_projects := []; ce_users := [] |}
    = [] ↔
  ∀ f comp, f ∈ raw_fetches early_failure_raw → comp ∈ f.1.2 → hasId comp →
            idOf comp ≠ "c1".
Proof.
  refine (proj1 (@empty_nested_lists codeUnitCollator
                  (Some "token") "account" early_failure early_failure_caches _
                  early_failure_raw early_failure_build early_failure_fetchRaw _ _)).
  apply list_elem_of_here.
Defined.

(** * The request log *)

Lemma exchange_refl w : exchange w w [].
Proof. split; [by rewrite app_nil_r|done]. Qed.

Lemma exchange_trans w1 w2 w3 l1 l2 :
  exchange w1 w2 l1 → exchange w2 w3 l2 → exchange w1 w3 (l1 ++ l2).
Proof.
  intros [Hs1 Hp1] [Hs2 Hp2]. split.
  - by rewrite Hs2, Hs1, app_assoc.
  - by rewrite Hp2, Hp1, drop_drop, length_app.
Qed.

Lemma exchange_notify_l step detail w w' l :
  exchange (notify step detail w) w' l ↔ exchange w w' l.
Proof. done. Qed.

Lemma exchange_notify_r step detail w w' l :
  exchange w (notify step detail w') l ↔ exchange w w' l.
Proof. done. Qed.

Lemma offsets_length limit n : length (offsets limit n) = n.
Proof. unfold offsets. by rewrite length_fmap, length_seq. Qed.

Lemma offsets_shift (url : Z → Request) limit offset n :
  url offset :: ((λ k, url (offset + limit + k)) <$> offsets limit n) =
  (λ k, url (offset + k)) <$> offsets limit (S n).
Proof.
  rewrite offsets_cons, fmap_cons, Z.add_0_r. f_equal.
  rewrite <- list_fmap_compose. apply list_fmap_ext. intros _ k _. simpl.
  f_equal. lia.
Qed.

Lemma paginate_log what url limit batchOf pending :
  ∀ offset acc sent,
    ∃ n, (1 ≤ n ≤ S (length pending))%nat ∧
      (paginate what url limit batchOf offset acc sent pending).1.2 =
        sent ++ ((λ k, url (offset + k)) <$> offsets limit n) ∧
      (paginate what url limit batchOf offset acc sent pending).2 = drop n pending.
Proof.
  assert (∀ offset, [url offset] = (λ k, url (offset + k)) <$> offsets limit 1) as Hone.
  { intros offset. cbn. by rewrite Z.add_0_r. }
  induction pending as [|resp rest IH]; intros offset acc sent.
  { exists 1%nat. cbn [paginate fst snd]. rewrite <- Hone. split; [simpl; lia|done]. }
  assert (∀ r : Completion (list Obj), ∃ n, (1 ≤ n ≤ S (length (resp :: rest)))%nat ∧
            (r, sent ++ [url offset], rest).1.2 =
              sent ++ ((λ k, url (offset + k)) <$> offsets limit n) ∧
            (r, sent ++ [url offset], rest).2 = drop n (resp :: rest)) as Hstop.
  { intros r. exists 1%nat. cbn [fst snd]. rewrite <- Hone. split; [simpl; lia|done]. }
  cbn [paginate]. destruct resp as [|status text json]; [apply Hstop|].
  destruct (negb (ok status)); [apply Hstop|].
  assert (∀ payload,
    ∃ n, (1 ≤ n ≤ S (length (Http status text json :: rest)))%nat ∧
      (match batchOf payload with
       | None => (Return acc, sent ++ [url offset], rest)
       | Some batch =>
           if len batch =? 0 then (Return acc, sent ++ [url offset], rest)
           else if len batch <? limit then (Return (acc ++ batch), sent ++ [url offset], rest)
           else paginate what url limit batchOf (offset + limit) (acc ++ batch)
                  (sent ++ [url offset]) rest
       end).1.2 = sent ++ ((λ k, url (offset + k)) <$> offsets limit n) ∧
      (match batchOf payload with
       | None => (Return acc, sent ++ [url offset], rest)
       | Some batch =>
           if len batch =? 0 then (Return acc, sent ++ [url offset], rest)
           else if len batch <? limit then (Return (acc ++ batch), sent ++ [url offset], rest)
           else paginate what url limit batchOf (offset + limit) (acc ++ batch)
                  (sent ++ [url offset]) rest
       end).2 = drop n (Http status text json :: rest)) as Hpayload.
  { intros payload. destruct (batchOf payload) as [batch|]; [|apply Hstop].
    destruct (len batch =? 0); [apply Hstop|].
    destruct (len batch <? limit); [apply Hstop|].
    destruct (IH (offset + limit) (acc ++ batch) (sent ++ [url offset]))
      as (n & Hn & Hsent & Hpending).
    exists (S n). split; [simpl; lia|]. rewrite Hsent, Hpending. split; [|done].
    by rewrite <- app_assoc, <- offsets_shift. }
  destruct json; [apply Hstop|apply Hpayload..].
Qed.

Lemma fetchAllWith_pagesThrough what url limit batchOf w :
  pagesThrough url limit w (fetchAllWith what url limit batchOf w).2.
Proof.
  unfold fetchAllWith.
  destruct (paginate_log what url limit batchOf (pending w) 0 [] (sent w))
    as (n & Hn & Hsent & Hpending).
  destruct (paginate _ _ _ _ _ _ _ _) as [[r sent'] pending'].
  cbn [fst snd] in *. exists n. split; [done|]. split; [|done].
  split; cbn [sent pending].
  - rewrite Hsent. reflexivity.
  - by rewrite Hpending, length_fmap, offsets_length.
Qed.

Lemma fetchProjectCompanies_log url limit pending :
  ∀ offset acc sent,
    ∃ n, (1 ≤ n ≤ S (length pending))%nat ∧
      (CompaniesAPI.fetchProjectCompanies_loop url limit offset acc sent pending).1.2 =
        sent ++ ((λ k, url (offset + k)) <$> offsets limit n) ∧
      (CompaniesAPI.fetchProjectCompanies_loop url limit offset acc sent pending).2 =
        drop n pending.
Proof.
  assert (∀ offset, [url offset] = (λ k, url (offset + k)) <$> offsets limit 1) as Hone.
  { intros offset. cbn. by rewrite Z.add_0_r. }
  induction pending as [|resp rest IH]; intros offset acc sent.
  { exists 1%nat. cbn [CompaniesAPI.fetchProjectCompanies_loop fst snd].
    rewrite <- Hone. split; [simpl; lia|done]. }
  assert (∀ r : list Obj, ∃ n, (1 ≤ n ≤ S (length (resp :: rest)))%nat ∧
            (r, sent ++ [url offset], rest).1.2 =
              sent ++ ((λ k, url (offset + k)) <$> offsets limit n) ∧
            (r, sent ++ [url offset], rest).2 = drop n (resp :: rest)) as Hstop.
  { intros r. exists 1%nat. cbn [fst snd]. rewrite <- Hone. split; [simpl; lia|done]. }
  cbn [CompaniesAPI.fetchProjectCompanies_loop].
  destruct resp as [|status text json]; [apply Hstop|].
  destruct (negb (ok status)); [apply Hstop|].
  destruct json as [|batch| |]; try apply Hstop.
  destruct (len batch =? 0); [apply Hstop|].
  destruct (len batch <? limit); [apply Hstop|].
  destruct (IH (offset + limit) (acc ++ batch) (sent ++ [url offset]))
    as (n & Hn & Hsent & Hpending).
  exists (S n). split; [simpl; lia|]. rewrite Hsent, Hpending. split; [|done].
  by rewrite <- app_assoc, <- offsets_shift.
Qed.

Lemma fetchProjectCompanies_pagesThrough token accountId projectId w :
  pagesThrough (GetPage (ProjectCompanies accountId projectId) token 100) 100 w
    (CompaniesAPI.fetchProjectCompanies token accountId projectId w).2.
Proof.
  unfold CompaniesAPI.fetchProjectCompanies, withNet.
  destruct (fetchProjectCompanies_log
              (GetPage (ProjectCompanies accountId projectId) token 100) 100
              (pending w) 0 [] (sent w)) as (n & Hn & Hsent & Hpending).
  destruct (CompaniesAPI.fetchProjectCompanies_loop _ _ _ _ _ _) as [[r sent'] pending'].
  cbn [fst snd] in *. exists n. split; [done|]. split; [|done].
  split; cbn [sent pending].
  - rewrite Hsent. reflexivity.
  - by rewrite Hpending, length_fmap, offsets_length.
Qed.

Lemma CompaniesAPI_fetchAll_pagesThrough token accountId w :
  pagesThrough (GetPage (AccountCompanies accountId) token 100) 100 w
    (CompaniesAPI.fetchAll token accountId w).2.
Proof. apply fetchAllWith_pagesThrough. Qed.

Lemma UsersAPI_fetchAll_pagesThrough token accountId w :
  pagesThrough (GetPage (AccountUsers accountId) token 100) 100 w
    (UsersAPI.fetchAll token accountId w).2.
Proof. apply fetchAllWith_pagesThrough. Qed.

Lemma ProjectsAPI_fetchAll_pagesThrough token accountId w :
  pagesThrough (GetPage (AccountProjects accountId) token 200) 200 w
    (ProjectsAPI.fetchAll token accountId w).2.
Proof. apply fetchAllWith_pagesThrough. Qed.

(** X4. Whatever the responses, each account-level fetcher and the
    per-project companies fetcher page through their endpoint from offset
    0 by steps of their page size (100, and 200 for projects). They send
    at least one request, take one response per request and stop at the
    latest when the responses run out; they emit no progress
    notification. *)
Theorem fetchers_page_through token accountId projectId w :
  pagesThrough (GetPage (AccountCompanies accountId) token 100) 100 w
    (CompaniesAPI.fetchAll token accountId w).2 ∧
  pagesThrough (GetPage (AccountUsers accountId) token 100) 100 w
    (UsersAPI.fetchAll token accountId w).2 ∧
  pagesThrough (GetPage (AccountProjects accountId) token 200) 200 w
    (ProjectsAPI.fetchAll token accountId w).2 ∧
  pagesThrough (GetPage (ProjectCompanies accountId projectId) token 100) 100 w
    (CompaniesAPI.fetchProjectCompanies token accountId projectId w).2.
Proof.
  split; [apply CompaniesAPI_fetchAll_pagesThrough|].
  split; [apply UsersAPI_fetchAll_pagesThrough|].
  split; [apply ProjectsAPI_fetchAll_pagesThrough|].
  apply fetchProjectCompanies_pagesThrough.
Qed.

Lemma received_0 batches : received batches 0 = 0.
Proof. done. Qed.

Lemma received_S batch batches k :
  received (batch :: batches) (S k) = len batch + received batches k.
Proof. unfold received, len. cbn [take concat]. rewrite length_app. lia. Qed.

Lemma fetchProjectUsers_log url limit pending :
  ∀ offset users sent,
    ∃ batches n,
      (UsersAPI.fetchProjectUsers_loop url limit offset users sent pending).1.1 =
        users ++ concat batches ∧
      Forall (λ batch, batch ≠ []) batches ∧
      (n = length batches ∨ n = S (length batches)) ∧
      (1 ≤ n ≤ S (length pending))%nat ∧
      (UsersAPI.fetchProjectUsers_loop url limit offset users sent pending).1.2 =
        sent ++ ((λ k, url (offset + received batches k)) <$> seq 0 n) ∧
      (UsersAPI.fetchProjectUsers_loop url limit offset users sent pending).2 = drop n pending.
Proof.
  induction pending as [|resp rest IH]; intros offset users sent.
  { exists [], 1%nat. cbn. rewrite app_nil_r, Z.add_0_r.
    split; [done|]. split; [done|]. split; [by right|]. split; [lia|done]. }
  assert (∃ batches n,
            (users, sent ++ [url offset], rest).1.1 = users ++ concat batches ∧
            Forall (λ batch : list Obj, batch ≠ []) batches ∧
            (n = length batches ∨ n = S (length batches)) ∧
            (1 ≤ n ≤ S (length (resp :: rest)))%nat ∧
            (users, sent ++ [url offset], rest).1.2 =
              sent ++ ((λ k, url (offset + received batches k)) <$> seq 0 n) ∧
            (users, sent ++ [url offset], rest).2 = drop n (resp :: rest)) as Hstop.
  { exists [], 1%nat. cbn. rewrite app_nil_r, Z.add_0_r.
    split; [done|]. split; [done|]. split; [by right|]. split; [lia|done]. }
  cbn [UsersAPI.fetchProjectUsers_loop].
  destruct resp as [|status text json]; [apply Hstop|].
  destruct (negb (ok status)); [apply Hstop|].
  destruct json as [| |[results|] total|]; try apply Hstop.
  destruct (len results =? 0) eqn:Hlen; [apply Hstop|].
  assert (results ≠ []) as Hne by (intros ->; done).
  assert (∃ batches n,
            (users ++ results, sent ++ [url offset], rest).1.1 = users ++ concat batches ∧
            Forall (λ batch : list Obj, batch ≠ []) batches ∧
            (n = length batches ∨ n = S (length batches)) ∧
            (1 ≤ n ≤ S (length (Http status text (JPage (Some results) total) :: rest)))%nat ∧
            (users ++ results, sent ++ [url offset], rest).1.2 =
              sent ++ ((λ k, url (offset + received batches k)) <$> seq 0 n) ∧
            (users ++ results, sent ++ [url offset], rest).2 =
              drop n (Http status text (JPage (Some results) total) :: rest)) as Hlast.
  { exists [results], 1%nat. cbn. rewrite app_nil_r, Z.add_0_r.
    split; [done|]. split; [by constructor|]. split; [by left|]. split; [lia|done]. }
  destruct (match total with Some t => t <=? offset + len results | None => false end);
    [apply Hlast|].
  destruct (len results <? limit); [apply Hlast|].
  destruct (IH (offset + len results) (users ++ results) (sent ++ [url offset]))
    as (batches & n & Hres & Hall & Hn & Hbound & Hsent & Hpending).
  exists (results :: batches), (S n).
  rewrite Hres, Hsent, Hpending. cbn [concat length seq fmap list_fmap].
  split; [by rewrite <- app_assoc|]. split; [by constructor|].
  split; [destruct Hn as [->| ->]; [by left|by right]|]. split; [simpl; lia|].
  split; [|done].
  rewrite <- app_assoc. cbn [app]. rewrite received_0, Z.add_0_r. do 2 f_equal.
  rewrite <- fmap_S_seq, <- list_fmap_compose. apply list_fmap_ext. intros _ k _.
  cbn. rewrite received_S. f_equal. lia.
Qed.

Lemma fetchProjectUsers_exchange token projectId w :
  ∃ cursors,
    exchange w (UsersAPI.fetchProjectUsers token projectId w).2
      (GetPage (ProjectUsers projectId) token 100 <$> cursors) ∧
    progress (UsersAPI.fetchProjectUsers token projectId w).2 = progress w.
Proof.
  unfold UsersAPI.fetchProjectUsers, withNet.
  destruct (fetchProjectUsers_log (GetPage (ProjectUsers projectId) token 100) 100
              (pending w) 0 [] (sent w))
    as (batches & n & _ & _ & _ & _ & Hsent & Hpending).
  destruct (UsersAPI.fetchProjectUsers_loop _ _ _ _ _ _) as [[r sent'] pending'].
  cbn [fst snd] in *. exists (received batches <$> seq 0 n). split; [|done].
  split; cbn [sent pending].
  - rewrite Hsent, <- list_fmap_compose. reflexivity.
  - by rewrite Hpending, !length_fmap, length_seq.
Qed.

Lemma received_all batches : received batches (length batches) = len (concat batches).
Proof. unfold received. by rewrite firstn_all. Qed.

Lemma usersPages_length limit pages :
  ∀ offset batches, usersPages limit offset pages batches → length pages = length batches.
Proof.
  induction pages as [|resp pages IH]; intros offset [|batch batches]; cbn [usersPages];
    try done.
  intros [_ Hrest]. cbn [length]. f_equal. by eapply IH.
Qed.

(** The loop, followed from any point through the pages that keep it
    going and up to the response at which it stops. *)
Lemma fetchProjectUsers_run url limit pages :
  ∀ batches offset users sent rest,
    usersPages limit offset pages batches →
    stopsAt limit (offset + len (concat batches)) rest →
    UsersAPI.fetchProjectUsers_loop url limit offset users sent (pages ++ rest) =
    (users ++ concat batches ++ lastMembers rest,
     sent ++ ((λ k, url (offset + received batches k)) <$> seq 0 (S (length pages))),
     drop 1 rest).
Proof.
  induction pages as [|page pages IH]; intros [|batch batches] offset users sent rest;
    cbn [usersPages]; try done.
  - intros _ Hstop. cbn [app concat length seq fmap list_fmap].
    rewrite received_0, Z.add_0_r. unfold len in Hstop. cbn [concat length Z.of_nat] in Hstop.
    rewrite Z.add_0_r in Hstop.
    destruct rest as [|resp rest]; cbn [UsersAPI.fetchProjectUsers_loop lastMembers drop].
    { by rewrite app_nil_r. }
    destruct resp as [|status text json]; cbn [membersOf]; [by rewrite app_nil_r|].
    destruct (ok status) eqn:Hok; cbn [negb].
    2:{ destruct json as [| |[results|] total|]; by rewrite app_nil_r. }
    destruct json as [| |[results|] total|]; try by rewrite app_nil_r.
    destruct (len results =? 0) eqn:H0.
    { apply len_nil_iff in H0 as ->. by rewrite app_nil_r. }
    destruct (match total with Some t => t <=? offset + len results | None => false end)
      eqn:Htotal; [done|].
    destruct (len results <? limit) eqn:Hlt; [done|].
    destruct (Hstop results). cbn [usersPages]. split; [|done].
    exists status, text, total. split; [done|]. split; [done|].
    split; [intros ->; by rewrite (proj2 (len_nil_iff _)) in H0|].
    split; [by apply Z.ltb_ge in Hlt|].
    destruct total as [t|]; [|done]. by apply Z.leb_gt in Htotal.
  - intros [(status & text & total & -> & Hok & Hne & Hlen & Htotal) Hrest] Hstop.
    cbn [app concat UsersAPI.fetchProjectUsers_loop]. rewrite Hok. cbn [negb].
    destruct (len batch =? 0) eqn:H0; [by apply len_nil_iff in H0|].
    assert (match total with Some t => t <=? offset + len batch | None => false end
            = false) as ->.
    { destruct total as [t|]; [|done]. apply Z.leb_gt. done. }
    destruct (len batch <? limit) eqn:Hlt; [apply Z.ltb_lt in Hlt; lia|].
    rewrite (IH batches (offset + len batch) (users ++ batch) (sent ++ [url offset]) rest Hrest).
    2:{ replace (offset + len batch + len (concat batches))
          with (offset + len (concat (batch :: batches))); [done|].
        unfold len. cbn [concat]. rewrite length_app. lia. }
    f_equal. f_equal.
    + by rewrite <- !app_assoc.
    + rewrite <- app_assoc. cbn [app length]. f_equal.
      change (seq 0 (S (S (length pages)))) with (0%nat :: seq 1 (S (length pages))).
      rewrite fmap_cons, received_0, Z.add_0_r. f_equal.
      rewrite <- fmap_S_seq, <- list_fmap_compose. apply list_fmap_ext. intros _ k _.
      cbn. rewrite received_S. f_equal. lia.
Qed.

(** Every script splits into the pages that keep the loop going and the
    rest, at which it stops. *)
Lemma usersPages_split limit pending :
  ∀ offset,
    ∃ pages batches rest,
      pending = pages ++ rest ∧ usersPages limit offset pages batches ∧
      stopsAt limit (offset + len (concat batches)) rest.
Proof.
  induction pending as [|resp pending IH]; intros offset.
  { by exists [], [], []. }
  assert ((∃ batch, usersPages limit offset [resp] [batch]) ∨
          (∀ batch, ¬ usersPages limit offset [resp] [batch])) as [[batch Hpage]|Hstop].
  { destruct resp as [|status text json].
    { right. by intros batch [(? & ? & ? & ? & _) _]. }
    destruct (ok status) eqn:Hok.
    2:{ right. intros batch [(? & ? & ? & [= <- _ _] & ? & _) _]. congruence. }
    destruct json as [| |[results|] total|];
      try (right; by intros batch [(? & ? & ? & ? & _) _]).
    destruct (decide (results = [])) as [->|Hne].
    { right. by intros batch [(? & ? & ? & [= _ _ <- _] & _ & ? & _) _]. }
    destruct (decide (limit ≤ len results)) as [Hlen|Hlen].
    2:{ right. by intros batch [(? & ? & ? & [= _ _ <- _] & _ & _ & ? & _) _]. }
    destruct total as [t|].
    - destruct (decide (offset + len results < t)) as [Ht|Ht].
      + left. exists results. split; [|done]. by exists status, text, (Some t).
      + right. by intros batch [(? & ? & ? & [= _ _ <- <-] & _ & _ & _ & ?) _].
    - left. exists results. split; [|done]. by exists status, text, None. }
  - destruct (IH (offset + len batch)) as (pages & batches & rest & -> & Hpages & Hrest).
    exists (resp :: pages), (batch :: batches), rest. split; [done|]. split.
    + cbn [usersPages]. by destruct Hpage as [Hpage _].
    + replace (offset + len (concat (batch :: batches)))
        with (offset + len batch + len (concat batches)); [done|].
      unfold len. cbn [concat]. rewrite length_app. lia.
  - exists [], [], (resp :: pending). split; [done|]. split; [done|].
    cbn [stopsAt concat]. unfold len. cbn [length Z.of_nat]. by rewrite Z.add_0_r.
Qed.

(** X5. The members fetcher advances its cursor by what it received. The
    responses split into the pages that keep the loop going (a success
    response whose [results] are not empty, number at least the page size
    and do not reach [totalResults]) and the rest. The fetcher sends one
    request for each of these pages and one more, the offset of each being
    the number of members the pages before it held; it takes one response
    for each request. It returns the members of these pages in order,
    followed by the members of the response at which it stopped, when that
    is a success response with [results]; it emits no progress
    notification. *)
Theorem fetchProjectUsers_cursor token projectId w :
  (∃ pages batches rest,
     pending w = pages ++ rest ∧ usersPages 100 0 pages batches ∧
     stopsAt 100 (received batches (length pages)) rest) ∧
  (∀ pages batches rest,
     pending w = pages ++ rest → usersPages 100 0 pages batches →
     stopsAt 100 (received batches (length pages)) rest →
     (UsersAPI.fetchProjectUsers token projectId w).1 = concat batches ++ lastMembers rest ∧
     exchange w (UsersAPI.fetchProjectUsers token projectId w).2
       ((λ k, GetPage (ProjectUsers projectId) token 100 (received batches k))
          <$> seq 0 (S (length pages))) ∧
     progress (UsersAPI.fetchProjectUsers token projectId w).2 = progress w).
Proof.
  split.
  - destruct (usersPages_split 100 (pending w) 0)
      as (pages & batches & rest & Hpending & Hpages & Hstop).
    exists pages, batches, rest. split; [done|]. split; [done|].
    by rewrite (usersPages_length _ _ _ _ Hpages), received_all.
  - intros pages batches rest Hpending Hpages Hstop.
    rewrite (usersPages_length _ _ _ _ Hpages), received_all in Hstop.
    unfold UsersAPI.fetchProjectUsers, withNet. rewrite Hpending.
    rewrite (fetchProjectUsers_run _ 100 pages batches 0 [] (sent w) rest Hpages Hstop).
    cbn [fst snd]. split; [done|]. split; [|done].
    split; cbn [sent pending]; [done|].
    rewrite length_fmap, length_seq, Hpending.
    change (S (length pages)) with (1 + length pages)%nat.
    by rewrite Nat.add_comm, <- drop_drop, drop_app_length.
Qed.

Lemma fetchProjectUsers_cursor_witness :
  (UsersAPI.fetchProjectUsers (Some "token") "p1" two_member_pages).1 =
    concat [hundred_companies] ++ example_roster ∧
  exchange two_member_pages
    (UsersAPI.fetchProjectUsers (Some "token") "p1" two_member_pages).2
    [GetPage (ProjectUsers "p1") (Some "token") 100 0;
     GetPage (ProjectUsers "p1") (Some "token") 100 100].
Proof.
  destruct (proj2 (fetchProjectUsers_cursor (Some "token") "p1" two_member_pages)
              [resultsPage hundred_companies None] [hundred_companies]
              [resultsPage example_roster None]) as (Hresult & Hlog & _).
  - reflexivity.
  - split; [|exact I]. exists 200, None, None.
    split; [reflexivity|]. split; [reflexivity|]. split; [discriminate|].
    split; [vm_compute; discriminate|exact I].
  - intros batch [(status & text & total & Heq & _ & _ & Hlen & _) _].
    injection Heq as _ _ <- _. vm_compute in Hlen. by apply Hlen.
  - split; [exact Hresult|exact Hlog].
Defined.

Lemma mapProjects_log token accountId total projects :
  ∀ i ix cache w,
    ∃ new,
      exchange w (mapProjects token accountId total i projects ix cache w).2 new ∧
      Forall (λ q, ∃ project, project ∈ projects ∧ hasId project ∧
                     projectRequest token accountId (idOf project) q) new.
Proof.
  induction projects as [|project rest IH]; intros i ix cache w.
  { exists []. split; [apply exchange_refl|done]. }
  cbn [mapProjects].
  destruct (truthy (project !! "id")) eqn:Hid; cbn [negb].
  - set (w1 := notify _ _ w).
    set (r1 := CompaniesAPI.fetchProjectCompanies _ _ _ w1).
    set (r2 := UsersAPI.fetchProjectUsers _ _ r1.2).
    destruct (fetchProjectCompanies_pagesThrough token accountId
                (or_empty (project !! "id")) w1) as (n1 & _ & Hx1 & _).
    destruct (fetchProjectUsers_exchange token (or_empty (project !! "id")) r1.2)
      as (cursors & Hx2 & _).
    destruct (IH (S i) (recordCompanies (or_empty (project !! "id")) r1.1 ix)
                (<[or_empty (project !! "id") := r2.1]> cache) r2.2)
      as (new & Hx3 & Hall).
    eexists. split.
    + eapply exchange_trans; [|exact Hx3].
      eapply exchange_trans; [|exact Hx2].
      apply exchange_notify_l in Hx1. exact Hx1.
    + assert (hasId project) as Hp by (unfold hasId; by rewrite Hid).
      repeat apply Forall_app_2.
      * apply Forall_fmap, Forall_forall. intros offset _. exists project.
        split; [apply list_elem_of_here|]. split; [done|].
        exists 100, offset. by left.
      * apply Forall_fmap, Forall_forall. intros k _. exists project.
        split; [apply list_elem_of_here|]. split; [done|].
        eexists 100, _. by right.
      * eapply Forall_impl; [exact Hall|]. intros q (p & Hin & Hp' & Hq).
        exists p. split; [by apply list_elem_of_further|done].
  - destruct (IH (S i) ix cache w) as (new & Hx & Hall). exists new. split; [done|].
    eapply Forall_impl; [exact Hall|]. intros q (p & Hin & Hp' & Hq).
    exists p. split; [by apply list_elem_of_further|done].
Qed.

Lemma Forall_accountRequest token accountId (url : Z → Request) (l : list Z) :
  (∀ offset, accountRequest token accountId (url offset)) →
  Forall (accountRequest token accountId) (url <$> l).
Proof. intros Hurl. apply Forall_fmap, Forall_forall. intros offset _. apply Hurl. Qed.

(** X6. The requests of one build. Whatever the responses,
    [buildCompaniesCache] sends page requests only, each with the token it
    was given, and takes one response for each. A request is either for
    one of the three collections of the account it was given, or for the
    companies or members of a project that the projects fetch returned
    with an id. A build that throws has sent account-level requests
    only. *)
Theorem build_requests `{Collator} token accountId w :
  ∃ new,
    exchange w (buildCompaniesCache token accountId w).2 new ∧
    Forall (λ q, accountRequest token accountId q ∨
                 ∃ raw project,
                   fetchRaw token accountId w = Some raw ∧
                   project ∈ raw_projects raw ∧ hasId project ∧
                   projectRequest token accountId (idOf project) q) new ∧
    (∀ e, (buildCompaniesCache token accountId w).1 = Throw e →
          Forall (accountRequest token accountId) new).
Proof.
  unfold buildCompaniesCache, fetchRaw.
  set (w0 := notify "companies" FetchingCompanies w).
  destruct (CompaniesAPI_fetchAll_pagesThrough token accountId w0) as (n1 & _ & Hx1 & _).
  apply exchange_notify_l in Hx1.
  assert (Forall (accountRequest token accountId)
            (GetPage (AccountCompanies accountId) token 100 <$> offsets 100 n1)) as Ha1.
  { apply Forall_accountRequest. intros offset. exists 100, offset. by left. }
  destruct (CompaniesAPI.fetchAll token accountId w0) as [[companies|e] w1]; cbn [snd] in Hx1.
  2:{ eexists. split; [exact Hx1|]. split; [|done].
      eapply Forall_impl; [exact Ha1|]. by left. }
  set (w1' := notify "users" FetchingUsers _).
  destruct (UsersAPI_fetchAll_pagesThrough token accountId w1') as (n2 & _ & Hx2 & _).
  do 2 apply exchange_notify_l in Hx2.
  assert (Forall (accountRequest token accountId)
            (GetPage (AccountUsers accountId) token 100 <$> offsets 100 n2)) as Ha2.
  { apply Forall_accountRequest. intros offset. exists 100, offset. right. by left. }
  pose proof (exchange_trans _ _ _ _ _ Hx1 Hx2) as Hx12.
  pose proof (Forall_app_2 _ _ _ Ha1 Ha2) as Ha12.
  destruct (UsersAPI.fetchAll token accountId w1') as [[users|e] w2]; cbn [snd] in Hx12.
  2:{ eexists. split; [exact Hx12|]. split; [|done].
      eapply Forall_impl; [exact Ha12|]. by left. }
  set (w2' := notify "projects" FetchingProjects _).
  destruct (ProjectsAPI_fetchAll_pagesThrough token accountId w2') as (n3 & _ & Hx3 & _).
  do 2 apply exchange_notify_l in Hx3.
  assert (Forall (accountRequest token accountId)
            (GetPage (AccountProjects accountId) token 200 <$> offsets 200 n3)) as Ha3.
  { apply Forall_accountRequest. intros offset. exists 200, offset. right. by right. }
  pose proof (exchange_trans _ _ _ _ _ Hx12 Hx3) as Hx123.
  pose proof (Forall_app_2 _ _ _ Ha12 Ha3) as Ha123.
  destruct (ProjectsAPI.fetchAll token accountId w2') as [[projects|e] w3]; cbn [snd] in Hx123.
  2:{ eexists. split; [exact Hx123|]. split; [|done].
      eapply Forall_impl; [exact Ha123|]. by left. }
  set (w3' := notify "mapping" MappingCompanies _).
  destruct (mapProjects_log token accountId (length projects) projects 0 [] ∅ w3')
    as (new & Hx4 & Ha4).
  do 2 apply exchange_notify_l in Hx4.
  cbn [fst snd]. eexists. split.
  { do 2 apply exchange_notify_r. eapply exchange_trans; [exact Hx123|exact Hx4]. }
  split; [|done]. apply Forall_app_2.
  - eapply Forall_impl; [exact Ha123|]. by left.
  - eapply Forall_impl; [exact Ha4|]. intros q (project & Hin & Hp & Hq). right.
    eexists _, project. split; [reflexivity|]. done.
Qed.

Lemma build_requests_witness :
  ∃ new,
    exchange unreachable
      (@buildCompaniesCache codeUnitCollator (Some "token") "account" unreachable).2 new ∧
    Forall (accountRequest (Some "token") "account") new.
Proof.
  destruct (@build_requests codeUnitCollator (Some "token") "account" unreachable)
    as (new & Hx & _ & Hthrow).
  exists new. split; [exact Hx|]. apply (Hthrow NetworkFailure). reflexivity.
Defined.

(** * The progress notifications *)

Lemma fetchProjectCompanies_progress token accountId projectId w :
  progress (CompaniesAPI.fetchProjectCompanies token accountId projectId w).2 = progress w.
Proof. by destruct (fetchProjectCompanies_pagesThrough token accountId projectId w) as (? & _ & _ & ?). Qed.

Lemma fetchProjectUsers_progress token projectId w :
  progress (UsersAPI.fetchProjectUsers token projectId w).2 = progress w.
Proof.
  by destruct (fetchProjectUsers_exchange token projectId w) as (? & _ & ?).
Qed.

Lemma mapProjects_progress token accountId total projects :
  ∀ i ix cache w,
    progress (mapProjects token accountId total i projects ix cache w).2 =
    progress w ++ mappingNotes total i projects.
Proof.
  unfold mappingNotes.
  induction projects as [|project rest IH]; intros i ix cache w.
  { cbn. by rewrite app_nil_r. }
  cbn [mapProjects length seq zip zip_with]. rewrite filter_cons. cbn [snd].
  destruct (decide (hasId project)) as [Hid|Hid].
  - rewrite (Is_true_eq_true _ Hid). cbn [negb]. rewrite IH.
    rewrite fetchProjectUsers_progress, fetchProjectCompanies_progress.
    cbn [notify progress fmap list_fmap fst snd]. by rewrite <- app_assoc.
  - apply Is_true_false_1 in Hid. rewrite Hid. cbn [negb]. by rewrite IH.
Qed.

Lemma paginate_what what url limit batchOf pending :
  ∀ offset acc sent status what' body,
    (paginate what url limit batchOf offset acc sent pending).1.1
      = Throw (ApiError status what' body) → what' = what.
Proof.
  induction pending as [|resp rest IH]; intros offset acc sent status what' body;
    cbn [paginate fst]; [done|].
  destruct resp as [|st text json]; [done|].
  destruct (negb (ok st)); [by intros [= _ <- _]|].
  assert (∀ payload,
    (match batchOf payload with
     | None => (Return acc, sent ++ [url offset], rest)
     | Some batch =>
         if len batch =? 0 then (Return acc, sent ++ [url offset], rest)
         else if len batch <? limit then (Return (acc ++ batch), sent ++ [url offset], rest)
         else paginate what url limit batchOf (offset + limit) (acc ++ batch)
                (sent ++ [url offset]) rest
     end).1.1 = Throw (ApiError status what' body) → what' = what) as Hpayload.
  { intros payload. destruct (batchOf payload) as [batch|]; [|done].
    destruct (len batch =? 0); [done|]. destruct (len batch <? limit); [done|].
    apply IH. }
  destruct json; [done|apply Hpayload..].
Qed.

Lemma fetchAllWith_what what url limit batchOf w status what' body :
  (fetchAllWith what url limit batchOf w).1 = Throw (ApiError status what' body) →
  what' = what.
Proof.
  unfold fetchAllWith.
  pose proof (paginate_what what url limit batchOf (pending w) 0 [] (sent w)
                status what' body) as Hw.
  destruct (paginate _ _ _ _ _ _ _ _) as [[r sent'] pending']. exact Hw.
Qed.

Lemma fetchAllWith_progress what url limit batchOf w :
  progress (fetchAllWith what url limit batchOf w).2 = progress w.
Proof. by destruct (fetchAllWith_pagesThrough what url limit batchOf w) as (? & _ & _ & ?). Qed.

(** X7. The progress notifications of a build. A build that succeeds has
    notified, in this order: the start and the count of the companies, of
    the users and of the projects; the start of the mapping; one
    notification for each project with an id, numbered by the place of
    the project in the fetched array, out of the number of all fetched
    projects, and labelled with its name or else its id; the two assembling
    steps. A build that throws stops right after the notification that
    opens the collection whose fetch failed, and an API error names that
    collection. *)
Theorem build_progress `{Collator} token accountId w :
  (∀ caches w' raw,
     buildCompaniesCache token accountId w = (Return caches, w') →
     fetchRaw token accountId w = Some raw →
     progress w' = progress w ++ buildNotes raw) ∧
  (∀ e w',
     buildCompaniesCache token accountId w = (Throw e, w') →
     ∃ before note what,
       progress w' = progress w ++ before ++ [note] ∧ opening what note ∧
       ∀ status what' body, e = ApiError status what' body → what' = what).
Proof.
  unfold buildCompaniesCache, fetchRaw, buildNotes.
  set (w0 := notify "companies" FetchingCompanies w).
  pose proof (fetchAllWith_progress "companies"
                (GetPage (AccountCompanies accountId) token 100) 100 arrayBatch w0) as Hp1.
  pose proof (fetchAllWith_what "companies"
                (GetPage (AccountCompanies accountId) token 100) 100 arrayBatch w0) as Hw1.
  change (fetchAllWith "companies" _ _ _) with (CompaniesAPI.fetchAll token accountId) in *.
  destruct (CompaniesAPI.fetchAll token accountId w0) as [[companies|e1] w1];
    cbn [fst snd] in *.
  2:{ split; [done|]. intros e w' [= <- <-].
      exists [], ("companies", FetchingCompanies), "companies".
      split; [by rewrite Hp1|]. split; [by left|].
      intros status what' body ->. by eapply Hw1. }
  set (w1' := notify "users" FetchingUsers _).
  pose proof (fetchAllWith_progress "users"
                (GetPage (AccountUsers accountId) token 100) 100 arrayBatch w1') as Hp2.
  pose proof (fetchAllWith_what "users"
                (GetPage (AccountUsers accountId) token 100) 100 arrayBatch w1') as Hw2.
  change (fetchAllWith "users" _ _ _) with (UsersAPI.fetchAll token accountId) in *.
  destruct (UsersAPI.fetchAll token accountId w1') as [[users|e2] w2];
    cbn [fst snd] in *.
  2:{ split; [done|]. intros e w' [= <- <-].
      exists [("companies", FetchingCompanies);
              ("companies", FoundCompanies (length companies))],
             ("users", FetchingUsers), "users".
      split; [rewrite Hp2; cbn; rewrite Hp1; cbn; by rewrite <- !app_assoc|].
      split; [right; by left|].
      intros status what' body ->. by eapply Hw2. }
  set (w2' := notify "projects" FetchingProjects _).
  pose proof (fetchAllWith_progress "projects"
                (GetPage (AccountProjects accountId) token 200) 200 resultsBatch w2') as Hp3.
  pose proof (fetchAllWith_what "projects"
                (GetPage (AccountProjects accountId) token 200) 200 resultsBatch w2') as Hw3.
  change (fetchAllWith "projects" _ _ _) with (ProjectsAPI.fetchAll token accountId) in *.
  destruct (ProjectsAPI.fetchAll token accountId w2') as [[projects|e3] w3];
    cbn [fst snd] in *.
  2:{ split; [done|]. intros e w' [= <- <-].
      exists [("companies", FetchingCompanies);
              ("companies", FoundCompanies (length companies));
              ("users", FetchingUsers); ("users", FoundUsers (length users))],
             ("projects", FetchingProjects), "projects".
      split; [rewrite Hp3; cbn; rewrite Hp2; cbn; rewrite Hp1; cbn;
              by rewrite <- !app_assoc|].
      split; [right; by right|].
      intros status what' body ->. by eapply Hw3. }
  split; [|done]. intros caches w' raw [= <- <-] [= <-].
  cbn [notify progress raw_companies raw_users raw_projects].
  rewrite mapProjects_progress. cbn [notify progress].
  rewrite Hp3. cbn. rewrite Hp2. cbn. rewrite Hp1. cbn.
  by rewrite <- !app_assoc.
Qed.

Lemma gap_build :
  @buildCompaniesCache codeUnitCollator (Some "token") "account" gap_world =
  (Return gap_caches,
   (@buildCompaniesCache codeUnitCollator (Some "token") "account" gap_world).2).
Proof. vm_compute. reflexivity. Qed.

Lemma gap_fetchRaw : fetchRaw (Some "token") "account" gap_world = Some gap_raw.
Proof. vm_compute. reflexivity. Qed.

Lemma build_progress_witness :
  progress (@buildCompaniesCache codeUnitCollator (Some "token") "account" gap_world).2 =
  progress gap_world ++ buildNotes gap_raw.
Proof.
  exact (proj1 (@build_progress codeUnitCollator (Some "token") "account" gap_world)
           gap_caches _ gap_raw gap_build gap_fetchRaw).
Defined.

(** * The service worker *)

Lemma get2LeggedToken_world s :
  progress (world (get2LeggedToken s).2) = progress (world s) ∧
  (truthy (apsClientId (local s)) && truthy (apsClientSecret (local s)) = false →
     get2LeggedToken s = (Throw CredentialsNotConfigured, s)) ∧
  (truthy (apsClientId (local s)) && truthy (apsClientSecret (local s)) = true →
     exchange (world s) (world (get2LeggedToken s).2)
       [PostToken (or_empty (apsClientId (local s)))
                  (or_empty (apsClientSecret (local s)))]).
Proof.
  unfold get2LeggedToken.
  destruct (truthy (apsClientId (local s))), (truthy (apsClientSecret (local s)));
    cbn [negb orb andb fst snd]; try done.
  unfold fetchToken.
  destruct (pending (world s)) as [|resp rest] eqn:Hpending; cbn [fst snd];
    [|destruct resp as [|status text json];
      [|destruct (negb (ok status)); [|destruct json]]];
    cbn [snd world with_world with_session progress];
    (split; [done|]); (split; [done|]); intros _;
    (split; cbn; [done|by rewrite Hpending]).
Qed.

Lemma get2LeggedToken_session s :
  (∀ e, (get2LeggedToken s).1 = Throw e → session (get2LeggedToken s).2 = session s) ∧
  (∀ token, (get2LeggedToken s).1 = Return token →
     accBearerToken (session (get2LeggedToken s).2) = token ∧
     accAccountId (session (get2LeggedToken s).2) = apsAccountId (local s) ∧
     ∀ expiresAt, tokenExpiresAt (session (get2LeggedToken s).2) = Some expiresAt →
       ∃ status text expires_in,
         head (pending (world s)) = Some (Http status text (JToken token (Some expires_in))) ∧
         expiresAt = now s + expires_in * 1000).
Proof.
  unfold get2LeggedToken.
  destruct (negb _ || negb _); cbn [fst snd]; [done|].
  unfold fetchToken.
  destruct (pending (world s)) as [|resp rest]; cbn [fst snd]; [done|].
  destruct resp as [|status text json]; [done|].
  destruct (negb (ok status)); [done|].
  destruct json as [|items|results total|token expires_in]; cbn [fst snd]; try done.
  - split; [done|]. by intros token [= <-].
  - split; [done|]. by intros token [= <-].
  - split; [done|]. intros ? [= <-]. cbn. split; [done|]. split; [done|].
    intros expiresAt Hexp. destruct expires_in as [e|]; [|done].
    exists status, text, e. split; [done|]. cbn in Hexp. congruence.
Qed.




Lemma example_get2LeggedToken :
  get2LeggedToken example_worker =
  (Return (Some "token"), (get2LeggedToken example_worker).2).
Proof. vm_compute. reflexivity. Qed.


Lemma ensureToken_at_time t s :
  ensureToken (at_time t s) =
  if negb (truthy (accBearerToken (session s)))
     || match tokenExpiresAt (session s) with
        | None => true
        | Some e => (e =? 0) || (e - 5 * 60 * 1000 <? t)
        end
  then get2LeggedToken (at_time t s)
  else (Return (accBearerToken (session s)), at_time t s).
Proof. done. Qed.

(** X10. A token is reused until five minutes before it expires. After a
    token request that returned a token with a lifetime, [ensureToken]
    answers with that token, sends nothing and changes nothing as long as
    the clock has not passed the expiry minus five minutes, and the
    [GET_TOKEN] message is answered with the token and the account id that
    local storage held at the time of the request. Past that moment
    [ensureToken] requests a new token. A response without a token is
    never reused. *)
Theorem token_is_reused `{Collator} s token s1 :
  get2LeggedToken s = (Return token, s1) →
  (∀ expiresAt t,
     truthy token = true →
     tokenExpiresAt (session s1) = Some expiresAt → expiresAt ≠ 0 →
     (t ≤ expiresAt - 300000 →
        ensureToken (at_time t s1) = (Return token, at_time t s1) ∧
        onMessage GET_TOKEN (at_time t s1) =
          (TokenReply token (apsAccountId (local s)), at_time t s1)) ∧
     (expiresAt - 300000 < t →
        ensureToken (at_time t s1) = get2LeggedToken (at_time t s1))) ∧
  (truthy token = false → ∀ t, ensureToken (at_time t s1) = get2LeggedToken (at_time t s1)).
Proof.
  intros Hget.
  destruct (get2LeggedToken_session s) as (_ & Hreturn).
  rewrite Hget in Hreturn. cbn [fst snd] in Hreturn.
  destruct (Hreturn token eq_refl) as (Htoken & Hacc & _).
  split.
  - intros expiresAt t Ht Hexp Hne.
    assert ((expiresAt =? 0) = false) as Hz by by apply Z.eqb_neq.
    split.
    + intros Hle.
      assert (ensureToken (at_time t s1) = (Return token, at_time t s1)) as Hens.
      { rewrite ensureToken_at_time, Htoken, Ht, Hexp, Hz. cbn [negb orb].
        by rewrite (proj2 (Z.ltb_ge _ _)) by lia. }
      split; [done|]. cbn [onMessage]. rewrite Hens. cbn [at_time session]. by rewrite Hacc.
    + intros Hlt. rewrite ensureToken_at_time, Htoken, Ht, Hexp, Hz. cbn [negb orb].
      by rewrite (proj2 (Z.ltb_lt _ _)) by lia.
  - intros Ht t. by rewrite ensureToken_at_time, Htoken, Ht.
Qed.

Lemma token_is_reused_witness :
  ensureToken (at_time 1700003300000 (get2LeggedToken example_worker).2) =
  (Return (Some "token"), at_time 1700003300000 (get2LeggedToken example_worker).2).
Proof.
  refine (proj1 (proj1 (proj1 (@token_is_reused codeUnitCollator example_worker
                                 (Some "token") _ example_get2LeggedToken)
                          1700003600000 1700003300000 _ _ _) _)).
  - reflexivity.
  - vm_compute. reflexivity.
  - lia.
  - lia.
Defined.

Lemma ensureToken_progress s :
  progress (world (ensureToken s).2) = progress (world s).
Proof.
  unfold ensureToken. destruct (_ || _); [|done].
  by destruct (get2LeggedToken_world s) as (? & _).
Qed.

Lemma mappingNotes_step total i projects :
  Forall (λ note : string * Detail, note.1 = "mapping") (mappingNotes total i projects).
Proof. unfold mappingNotes. apply Forall_fmap, Forall_forall. by intros ip _. Qed.

Lemma buildCompaniesCache_no_done `{Collator} token accountId w :
  ∃ new,
    progress (buildCompaniesCache token accountId w).2 = progress w ++ new ∧
    Forall (λ note : string * Detail, note.1 ≠ "done") new.
Proof.
  unfold buildCompaniesCache.
  set (w0 := notify "companies" FetchingCompanies w).
  pose proof (fetchAllWith_progress "companies"
                (GetPage (AccountCompanies accountId) token 100) 100 arrayBatch w0) as Hp1.
  change (fetchAllWith "companies" _ _ _) with (CompaniesAPI.fetchAll token accountId) in *.
  destruct (CompaniesAPI.fetchAll token accountId w0) as [[companies|e1] w1];
    cbn [fst snd] in *.
  2:{ eexists. rewrite Hp1. split; [reflexivity|]. by repeat constructor. }
  set (w1' := notify "users" FetchingUsers _).
  pose proof (fetchAllWith_progress "users"
                (GetPage (AccountUsers accountId) token 100) 100 arrayBatch w1') as Hp2.
  change (fetchAllWith "users" _ _ _) with (UsersAPI.fetchAll token accountId) in *.
  destruct (UsersAPI.fetchAll token accountId w1') as [[users|e2] w2];
    cbn [fst snd] in *.
  2:{ eexists. rewrite Hp2. cbn. rewrite Hp1. cbn. rewrite <- !app_assoc.
      split; [reflexivity|]. by repeat constructor. }
  set (w2' := notify "projects" FetchingProjects _).
  pose proof (fetchAllWith_progress "projects"
                (GetPage (AccountProjects accountId) token 200) 200 resultsBatch w2') as Hp3.
  change (fetchAllWith "projects" _ _ _) with (ProjectsAPI.fetchAll token accountId) in *.
  destruct (ProjectsAPI.fetchAll token accountId w2') as [[projects|e3] w3];
    cbn [fst snd] in *.
  2:{ eexists. rewrite Hp3. cbn. rewrite Hp2. cbn. rewrite Hp1. cbn. rewrite <- !app_assoc.
      split; [reflexivity|]. by repeat constructor. }
  cbn [notify progress]. rewrite mapProjects_progress. cbn [notify progress].
  rewrite Hp3. cbn. rewrite Hp2. cbn. rewrite Hp1. cbn. rewrite <- !app_assoc.
  eexists. split; [reflexivity|].
  cbn [app]. repeat (apply Forall_cons; split; [done|]).
  apply Forall_app_2; [|by repeat constructor].
  eapply Forall_impl; [apply mappingNotes_step|]. by intros note ->.
Qed.

Lemma triggerCacheBuild_Return `{Collator} s cc s' :
  triggerCacheBuild s = (Return cc, s') →
  cacheBuilding s = false ∧ cacheBuilding s' = false ∧ now s' = now s ∧
  ∃ token accountId w caches w',
    buildCompaniesCache token accountId w = (Return caches, w') ∧
    cc = companiesCache caches ∧
    stored_companiesCache (local s') = Some (companiesCache caches) ∧
    stored_projectsCache (local s') = Some (projectsCache caches) ∧
    companiesCacheTimestamp (local s') = Some (now s) ∧
    projectsCacheTimestamp (local s') = Some (now s) ∧
    world s' = notify "done" (CacheBuilt (length (companiesCache caches))
                                         (length (projectsCache caches))) w'.
Proof.
  unfold triggerCacheBuild. destruct (cacheBuilding s) eqn:Hflag; [done|].
  unfold triggerCacheBuild_try.
  destruct (ensureToken (with_cacheBuilding true s)) as [[token|e] s1] eqn:He;
    apply ensureToken_frame in He as (_ & _ & Hnow & _); cbn [fst snd]; [|done].
  destruct (negb _); cbn [fst snd]; [done|].
  destruct (buildCompaniesCache _ _ _) as [[caches|e] w1] eqn:Hb; cbn [fst snd]; [|done].
  intros [= <- <-]. split; [done|]. split; [done|]. split; [done|].
  exists token, (or_empty (accAccountId (session s1))), (world s1), caches, w1.
  split; [done|]. cbn. by rewrite Hnow.
Qed.

(** X8. The ["done"] notification. [triggerCacheBuild] only appends to the
    progress notifications. When it succeeds, the last one is ["done"],
    with the lengths of the two caches that local storage now holds, and
    no earlier one of this call is ["done"]; when it throws, it has
    notified no ["done"]. *)
Theorem done_is_notified_on_success `{Collator} s :
  ∃ new,
    progress (world (triggerCacheBuild s).2) = progress (world s) ++ new ∧
    match (triggerCacheBuild s).1 with
    | Return cc =>
        ∃ pc before,
          stored_companiesCache (local (triggerCacheBuild s).2) = Some cc ∧
          stored_projectsCache (local (triggerCacheBuild s).2) = Some pc ∧
          new = before ++ [("done", CacheBuilt (length cc) (length pc))] ∧
          Forall (λ note, note.1 ≠ "done") before
    | Throw e => Forall (λ note, note.1 ≠ "done") new
    end.
Proof.
  unfold triggerCacheBuild.
  destruct (cacheBuilding s); cbn [fst snd].
  { exists []. by rewrite app_nil_r. }
  unfold triggerCacheBuild_try.
  pose proof (ensureToken_progress (with_cacheBuilding true s)) as Hp. cbn in Hp.
  destruct (ensureToken (with_cacheBuilding true s)) as [[token|e] s1]; cbn [fst snd] in *.
  2:{ exists []. by rewrite app_nil_r. }
  destruct (negb _); cbn [fst snd].
  { exists []. by rewrite app_nil_r. }
  destruct (buildCompaniesCache_no_done token (or_empty (accAccountId (session s1)))
              (world s1)) as (new & Hnew & Hall).
  destruct (buildCompaniesCache _ _ _) as [[caches|e] w1]; cbn [fst snd] in *.
  - exists (new ++ [("done", CacheBuilt (length (companiesCache caches))
                                        (length (projectsCache caches)))]).
    cbn [world with_cacheBuilding sendProgress with_world notify progress local_set
         local stored_companiesCache stored_projectsCache].
    split; [by rewrite Hnew, Hp, app_assoc|].
    by exists (projectsCache caches), new.
  - exists new. cbn [world with_cacheBuilding with_world].
    split; [by rewrite Hnew, Hp|done].
Qed.

Lemma isCacheStale_after now t :
  now ≠ 0 → isCacheStale t (Some now) = (CACHE_MAX_AGE_MS <? t - now).
Proof. intros Hne. cbn [isCacheStale]. by rewrite (proj2 (Z.eqb_neq _ _)). Qed.

(** X11. A build and the two cache messages. The [BUILD_CACHE] message is
    answered with a count or with an error. When it is answered with a
    count, one build returned both caches that local storage now holds and
    the count is the number of companies; from then on, if the build ran
    at a clock reading other than 0, [GET_CACHE] and [GET_PROJECTS_CACHE]
    are answered with these caches, the time of the build, and a stale
    flag that is raised once more than two hours have passed since; the
    two messages change nothing. When it is answered with an error, the
    two messages are answered as they would have been before. *)
Theorem build_then_get `{Collator} s :
  match (onMessage BUILD_CACHE s).1 with
  | BuildReply count =>
      ∃ token accountId w caches w',
        buildCompaniesCache token accountId w = (Return caches, w') ∧
        count = length (companiesCache caches) ∧
        (now s ≠ 0 → ∀ t,
           onMessage GET_CACHE (at_time t (onMessage BUILD_CACHE s).2) =
             (CacheReply (Some (companiesCache caches)) (Some (now s))
                         (CACHE_MAX_AGE_MS <? t - now s),
              at_time t (onMessage BUILD_CACHE s).2) ∧
           onMessage GET_PROJECTS_CACHE (at_time t (onMessage BUILD_CACHE s).2) =
             (ProjectsCacheReply (Some (projectsCache caches)) (Some (now s))
                                 (CACHE_MAX_AGE_MS <? t - now s),
              at_time t (onMessage BUILD_CACHE s).2))
  | ErrorReply e =>
      ∀ t msg, msg = GET_CACHE ∨ msg = GET_PROJECTS_CACHE →
        (onMessage msg (at_time t (onMessage BUILD_CACHE s).2)).1 =
        (onMessage msg (at_time t s)).1
  | _ => False
  end.
Proof.
  cbn [onMessage].
  destruct (triggerCacheBuild s) as [[cc|e] s'] eqn:Hb; cbn [fst snd].
  - apply triggerCacheBuild_Return in Hb
      as (_ & _ & _ & token & accountId & w & caches & w' & Hbuild & -> & Hcc & Hpc
          & Hct & Hpt & _).
    exists token, accountId, w, caches, w'. split; [done|]. split; [done|].
    intros Hne t. cbn [at_time local now]. rewrite Hcc, Hpc, Hct, Hpt.
    rewrite isCacheStale_after by done. cbn [or_null].
    by rewrite (proj2 (Z.eqb_neq _ _)).
  - intros t msg Hmsg.
    assert (local s' = local s) as Hl.
    { unfold triggerCacheBuild in Hb. destruct (cacheBuilding s); [by injection Hb as _ <-|].
      destruct (triggerCacheBuild_try _) as [r s1] eqn:Htry.
      apply triggerCacheBuild_try_spec in Htry. injection Hb as -> <-.
      by destruct Htry as [[Hl _] _]. }
    destruct Hmsg as [-> | ->]; cbn [onMessage at_time local now fst]; by rewrite Hl.
Qed.

Lemma build_then_get_witness :
  ∃ cache,
    onMessage (H:=codeUnitCollator) GET_CACHE
      (at_time 1700000000001 (onMessage (H:=codeUnitCollator) BUILD_CACHE example_worker).2) =
    (CacheReply (Some cache) (Some 1700000000000) false,
     at_time 1700000000001 (onMessage (H:=codeUnitCollator) BUILD_CACHE example_worker).2).
Proof.
  pose proof (@build_then_get codeUnitCollator example_worker) as Hx.
  assert ((onMessage (H:=codeUnitCollator) BUILD_CACHE example_worker).1 = BuildReply 1)
    as Hreply by (vm_compute; reflexivity).
  rewrite Hreply in Hx.
  destruct Hx as (token & accountId & w & caches & w' & _ & _ & Hget).
  destruct (Hget ltac:(vm_compute; discriminate) 1700000000001) as [Hcache _].
  exists (companiesCache caches). rewrite Hcache. reflexivity.
Defined.

Lemma triggerCacheBuild_busy `{Collator} s :
  cacheBuilding s = true → triggerCacheBuild s = (Throw BuildInProgress, s).
Proof. intros Hflag. unfold triggerCacheBuild. by rewrite Hflag. Qed.

Lemma String_eqb_false a b : a ≠ b → String.eqb a b = false.
Proof. intros Hne. by apply String.eqb_neq. Qed.

(** X12. The refresh alarm. The alarm handler leaves the service worker
    as it is: for an alarm of another name; when a credential is missing
    from local storage; when the companies cache is not stale; and when a
    build is in flight. So after a build that succeeded (at a clock
    reading other than 0) no alarm of the next two hours sends a request.
    In the remaining case the handler runs [triggerCacheBuild] and drops
    its outcome. *)
Theorem alarm_rebuilds_a_stale_cache_only `{Collator} name s :
  (name ≠ CACHE_ALARM_NAME ∨
   truthy (apsClientId (local s)) = false ∨
   truthy (apsClientSecret (local s)) = false ∨
   isCacheStale (now s) (companiesCacheTimestamp (local s)) = false ∨
   cacheBuilding s = true →
   onAlarm name s = s) ∧
  (∀ cc s1 t,
     triggerCacheBuild s = (Return cc, s1) → now s ≠ 0 →
     t - now s ≤ CACHE_MAX_AGE_MS →
     onAlarm name (at_time t s1) = at_time t s1) ∧
  (name = CACHE_ALARM_NAME →
   truthy (apsClientId (local s)) = true →
   truthy (apsClientSecret (local s)) = true →
   isCacheStale (now s) (companiesCacheTimestamp (local s)) = true →
   onAlarm name s = (triggerCacheBuild s).2).
Proof.
  assert (∀ s, isCacheStale (now s) (companiesCacheTimestamp (local s)) = false →
               onAlarm name s = s) as Hfresh.
  { intros s0 Hf. unfold onAlarm. rewrite Hf. cbn [negb].
    destruct (negb (String.eqb _ _)); [done|]. by destruct (negb _ || negb _). }
  split; [|split].
  - intros [Hname|[Hid|[Hsecret|[Hf|Hflag]]]].
    + unfold onAlarm. by rewrite String_eqb_false.
    + unfold onAlarm. rewrite Hid. cbn [negb orb]. by destruct (negb (String.eqb _ _)).
    + unfold onAlarm. rewrite Hsecret. cbn [negb]. rewrite orb_true_r.
      by destruct (negb (String.eqb _ _)).
    + by apply Hfresh.
    + unfold onAlarm. rewrite triggerCacheBuild_busy by done. cbn [snd].
      destruct (negb (String.eqb _ _)); [done|].
      destruct (negb _ || negb _); [done|]. by destruct (negb (isCacheStale _ _)).
  - intros cc s1 t Hb Hne Ht. apply Hfresh.
    apply triggerCacheBuild_Return in Hb
      as (_ & _ & _ & _ & _ & _ & caches & _ & _ & _ & _ & _ & Hct & _).
    cbn [at_time local now]. rewrite Hct, isCacheStale_after by done.
    apply Z.ltb_ge. lia.
  - intros -> Hid Hsecret Hstale. unfold onAlarm.
    by rewrite String.eqb_refl, Hid, Hsecret, Hstale.
Qed.

Lemma alarm_rebuilds_a_stale_cache_only_witness :
  onAlarm (H:=codeUnitCollator) CACHE_ALARM_NAME
    (at_time 1700007200000 (triggerCacheBuild (H:=codeUnitCollator) example_worker).2) =
  at_time 1700007200000 (triggerCacheBuild (H:=codeUnitCollator) example_worker).2.
Proof.
  refine (proj1 (proj2 (@alarm_rebuilds_a_stale_cache_only codeUnitCollator
                          CACHE_ALARM_NAME example_worker))
            [example_company] _ 1700007200000 example_triggerCacheBuild _ _).
  - vm_compute. discriminate.
  - vm_compute. discriminate.
Defined.

(** X16. An invocation of [triggerCacheBuild] made when none is
    suspended and then resumed at each of its four [await]s, with nothing
    happening in between, settles: no invocation is left suspended, one
    outcome is added to those recorded before, and this outcome and the
    state of the service worker are those of [triggerCacheBuild] run in
    one go. This holds as well when the call is rejected for a build in
    flight. *)
Theorem uninterrupted_invocation_settles `{Collator} s id settled :
  run [Invoke id; Resume id; Resume id; Resume id; Resume id]
      {| worker := s; tasks := []; outcomes := settled |}
  = {| worker := (triggerCacheBuild s).2; tasks := [];
       outcomes := settled ++ [(id, (triggerCacheBuild s).1)] |}.
Proof.
  destruct (cacheBuilding s) eqn:Hflag.
  - rewrite triggerCacheBuild_busy by done. unfold run.
    cbn [foldl step worker tasks outcomes]. rewrite Hflag.
    cbn [foldl step worker tasks outcomes resumeTask fst snd].
    by rewrite !app_nil_r.
  - pose proof (triggerCacheBuild_uninterrupted s id Hflag) as Hrun.
    destruct (run_outcomes [Invoke id; Resume id; Resume id; Resume id; Resume id]
                {| worker := s; tasks := []; outcomes := [] |})
      as (later & Hlater & Hany).
    rewrite Hrun in Hlater. cbn [outcomes app] in Hlater. subst later.
    specialize (Hany settled). unfold with_outcomes in Hany at 1.
    cbn [worker tasks] in Hany. rewrite Hany, Hrun. done.
Qed.

(** * The readers of the caches *)

Lemma find_Some_elem_of {A} (f : A → bool) (l : list A) x :
  List.find f l = Some x → x ∈ l ∧ f x = true.
Proof. intros [Hin Hf]%List.find_some. split; [by apply list_elem_of_In|done]. Qed.

Lemma find_is_Some {A} (f : A → bool) (l : list A) x :
  x ∈ l → f x = true → is_Some (List.find f l).
Proof.
  intros Hin Hf. destruct (List.find f l) as [y|] eqn:Hfind; [by eexists|].
  apply list_elem_of_In in Hin. pose proof (List.find_none _ _ Hfind _ Hin). congruence.
Qed.

Lemma or_empty_Some s : or_empty (Some s) = s.
Proof.
  unfold or_empty, js_or. destruct (truthy (Some s)) eqn:Hs; [done|].
  cbn in Hs. apply negb_false_iff, String.eqb_eq in Hs. done.
Qed.

Lemma findCachedCompanyById_Some cache id C :
  findCachedCompanyById cache id = Some C →
  ∃ l, cache = Some l ∧ C ∈ l ∧ id = Some (ce_uuid C) ∧ ce_uuid C ≠ "".
Proof.
  unfold findCachedCompanyById. destruct cache as [l|]; [|done].
  destruct (truthy id) eqn:Hid; cbn [negb]; [|done].
  intros [Hin Heq%String.eqb_eq]%find_Some_elem_of. exists l.
  apply or_empty_truthy in Hid as Hsome. apply truthy_spec in Hid as (i & -> & Hne).
  cbn in Hsome. injection Hsome as Hi. rewrite Heq, <- Hi. done.
Qed.

Lemma findCachedProject_Some cache id P :
  findCachedProject cache id = Some P →
  ∃ l, cache = Some l ∧ P ∈ l ∧ id = Some (pe_uuid P) ∧ pe_uuid P ≠ "".
Proof.
  unfold findCachedProject. destruct cache as [l|]; [|done].
  destruct (truthy id) eqn:Hid; cbn [negb]; [|done].
  intros [Hin Heq%String.eqb_eq]%find_Some_elem_of. exists l.
  apply or_empty_truthy in Hid as Hsome. apply truthy_spec in Hid as (i & -> & Hne).
  cbn in Hsome. injection Hsome as Hi. rewrite Heq, <- Hi. done.
Qed.

(** X13. Lookup by id in the caches of a build. Every company and every
    project that was fetched with an id is found by that id, in an entry
    with that uuid. What a lookup finds is an entry of the cache whose
    uuid is the id asked for, and that id is not empty. Nothing is found
    before a cache is loaded. *)
Theorem entries_are_found_by_id `{Collator} token accountId w caches w' raw :
  buildCompaniesCache token accountId w = (Return caches, w') →
  fetchRaw token accountId w = Some raw →
  (∀ comp, comp ∈ raw_companies raw → hasId comp →
     ∃ C, findCachedCompanyById (Some (companiesCache caches)) (comp !! "id") = Some C ∧
          ce_uuid C = idOf comp) ∧
  (∀ project, project ∈ raw_projects raw → hasId project →
     ∃ P, findCachedProject (Some (projectsCache caches)) (project !! "id") = Some P ∧
          pe_uuid P = idOf project) ∧
  (∀ cache id C, findCachedCompanyById cache id = Some C →
     ∃ l, cache = Some l ∧ C ∈ l ∧ id = Some (ce_uuid C) ∧ ce_uuid C ≠ "") ∧
  (∀ cache id P, findCachedProject cache id = Some P →
     ∃ l, cache = Some l ∧ P ∈ l ∧ id = Some (pe_uuid P) ∧ pe_uuid P ≠ "") ∧
  (∀ id, findCachedCompanyById None id = None ∧ findCachedProject None id = None).
Proof.
  intros Hb Hraw. pose proof Hb as (raw' & Hraw' & ->)%buildCompaniesCache_Return.
  assert (raw' = raw) as -> by congruence. clear Hraw'.
  split; [|split; [|split; [|split]]].
  - intros comp Hin Hid.
    assert (is_Some (findCachedCompanyById (Some (companiesCache (assemble raw)))
                       (comp !! "id"))) as [C HC].
    { unfold findCachedCompanyById. unfold hasId in Hid.
      rewrite (Is_true_eq_true _ Hid). cbn [negb].
      eapply find_is_Some.
      - apply elem_of_companiesCache. by exists comp.
      - cbn [companyEntry ce_uuid]. apply String.eqb_refl. }
    exists C. split; [done|].
    apply findCachedCompanyById_Some in HC as (_ & _ & _ & Hsome & _).
    unfold idOf. by rewrite Hsome, or_empty_Some.
  - intros project Hin Hid.
    assert (is_Some (findCachedProject (Some (projectsCache (assemble raw)))
                       (project !! "id"))) as [P HP].
    { unfold findCachedProject. unfold hasId in Hid.
      rewrite (Is_true_eq_true _ Hid). cbn [negb].
      eapply find_is_Some.
      - apply elem_of_projectsCache. by exists project.
      - cbn [projectEntry pe_uuid]. apply String.eqb_refl. }
    exists P. split; [done|].
    apply findCachedProject_Some in HP as (_ & _ & _ & Hsome & _).
    unfold idOf. by rewrite Hsome, or_empty_Some.
  - apply findCachedCompanyById_Some.
  - apply findCachedProject_Some.
  - done.
Qed.

Lemma entries_are_found_by_id_witness :
  ∃ C, findCachedCompanyById (Some (companiesCache example_caches))
         (record [("id", "c1"); ("name", "Acme")] !! "id") = Some C ∧
       ce_uuid C = idOf (record [("id", "c1"); ("name", "Acme")]).
Proof.
  refine (proj1 (@entries_are_found_by_id codeUnitCollator (Some "token") "account"
                   example example_caches _ example_raw example_build example_fetchRaw)
            (record [("id", "c1"); ("name", "Acme")]) _ _).
  - apply list_elem_of_here.
  - vm_compute. exact I.
Defined.

Lemma toLowerCase_nil s : toLowerCase s = "" ↔ s = "".
Proof. by destruct s. Qed.

Lemma findCachedCompany_Some cache name C :
  findCachedCompany cache name = Some C →
  ∃ l, cache = Some l ∧ C ∈ l ∧ ce_name C ≠ "" ∧
       toLowerCase (ce_name C) = toLowerCase (or_empty name).
Proof.
  unfold findCachedCompany. destruct cache as [l|]; [|done].
  destruct (truthy name) eqn:Hname; cbn [negb]; [|done].
  intros [Hin Heq%String.eqb_eq]%find_Some_elem_of. exists l.
  split; [done|]. split; [done|]. split; [|done].
  intros Hempty. rewrite Hempty in Heq. cbn [toLowerCase] in Heq. symmetry in Heq.
  apply (proj1 (toLowerCase_nil _)) in Heq.
  apply truthy_spec in Hname as (n & -> & Hne). by rewrite or_empty_Some in Heq.
Qed.

(** X14. Lookup by name in the companies cache. The lookup does not
    depend on the case of the name asked for. What it finds is an entry of
    the cache whose name equals the name asked for up to case; that name
    is not empty, so a company without a name is never found by name. In
    the cache of a build, a name that a fetched company with an id carries
    is always found. *)
Theorem companies_are_found_by_name `{Collator} token accountId w caches w' raw :
  buildCompaniesCache token accountId w = (Return caches, w') →
  fetchRaw token accountId w = Some raw →
  (∀ cache a b, toLowerCase a = toLowerCase b →
     findCachedCompany cache (Some a) = findCachedCompany cache (Some b)) ∧
  (∀ cache name C, findCachedCompany cache name = Some C →
     ∃ l, cache = Some l ∧ C ∈ l ∧ ce_name C ≠ "" ∧
          toLowerCase (ce_name C) = toLowerCase (or_empty name)) ∧
  (∀ comp, comp ∈ raw_companies raw → hasId comp → truthy (comp !! "name") = true →
     ∃ C, findCachedCompany (Some (companiesCache caches)) (comp !! "name") = Some C ∧
          toLowerCase (ce_name C) = toLowerCase (or_empty (comp !! "name"))) ∧
  (∀ cache, findCachedCompany cache None = None ∧ findCachedCompany cache (Some "") = None).
Proof.
  intros Hb Hraw. pose proof Hb as (raw' & Hraw' & ->)%buildCompaniesCache_Return.
  assert (raw' = raw) as -> by congruence. clear Hraw'.
  split; [|split; [|split]].
  - intros cache a b Hab. unfold findCachedCompany. destruct cache as [l|]; [|done].
    assert (truthy (Some a) = truthy (Some b)) as Ht.
    { destruct a, b; cbn in Hab |- *; congruence. }
    rewrite Ht. destruct (truthy (Some b)); cbn [negb]; [|done].
    by rewrite !or_empty_Some, Hab.
  - apply findCachedCompany_Some.
  - intros comp Hin Hid Hname.
    assert (is_Some (findCachedCompany (Some (companiesCache (assemble raw)))
                       (comp !! "name"))) as [C HC].
    { unfold findCachedCompany. rewrite Hname. cbn [negb].
      eapply find_is_Some.
      - apply elem_of_companiesCache. by exists comp.
      - cbn [companyEntry ce_name]. apply String.eqb_refl. }
    exists C. split; [done|].
    by apply findCachedCompany_Some in HC as (_ & _ & _ & _ & Heq).
  - intros cache. by destruct cache.
Qed.

Lemma companies_are_found_by_name_witness :
  findCachedCompany (Some (companiesCache example_caches)) (Some "ACME") =
  findCachedCompany (Some (companiesCache example_caches)) (Some "acme").
Proof.
  refine (proj1 (@companies_are_found_by_name codeUnitCollator (Some "token") "account"
                   example example_caches _ example_raw example_build example_fetchRaw)
            _ "ACME" "acme" _).
  vm_compute. reflexivity.
Defined.

(** * Display names *)

Lemma append_cons c s t : String c s +:+ t = String c (s +:+ t).
Proof. reflexivity. Qed.

Lemma append_nil t : "" +:+ t = t.
Proof. reflexivity. Qed.

Lemma trimEnd_app_white s : trimEnd (s +:+ " ") = trimEnd s.
Proof.
  induction s as [|c s IH]; [done|].
  rewrite append_cons. cbn [trimEnd]. by rewrite IH.
Qed.

Lemma trimEnd_app s t : trimEnd t ≠ "" → trimEnd (s +:+ t) = s +:+ trimEnd t.
Proof.
  intros Ht. induction s as [|c s IH]; [done|].
  rewrite !append_cons. cbn [trimEnd]. rewrite IH.
  destruct (s +:+ trimEnd t) eqn:Happ; [|done].
  destruct s; [done|]. by rewrite append_cons in Happ.
Qed.

Lemma trimStart_length s : (String.length (trimStart s) ≤ String.length s)%nat.
Proof.
  induction s as [|c s IH]; [done|]. cbn [trimStart].
  destruct (is_white c); cbn [String.length]; lia.
Qed.

Lemma trimStart_fixed_app s t : s ≠ "" → trimStart s = s → trimStart (s +:+ t) = s +:+ t.
Proof.
  destruct s as [|c s]; [done|]. intros _ Hfix. rewrite append_cons.
  cbn [trimStart] in *.
  destruct (is_white c); [|done].
  pose proof (trimStart_length s) as Hlen. rewrite Hfix in Hlen.
  cbn [String.length] in Hlen. lia.
Qed.

Lemma trim_fixed s : trimStart (trim s) = trim s ∧ trimEnd (trim s) = trim s.
Proof.
  unfold trim. split; [|apply trimEnd_idemp].
  by rewrite trimStart_trimEnd, trimStart_idemp.
Qed.

Lemma trim_join first last :
  trimStart first = first → trimEnd first = first →
  trimStart last = last → trimEnd last = last →
  trim (first +:+ " " +:+ last) =
  if String.eqb last "" then first
  else if String.eqb first "" then last
  else first +:+ " " +:+ last.
Proof.
  intros Hsf Hef Hsl Hel. unfold trim.
  destruct (String.eqb last "") eqn:Hl.
  - apply String.eqb_eq in Hl as ->.
    destruct (String.eqb first "") eqn:Hf.
    + apply String.eqb_eq in Hf as ->. done.
    + apply String.eqb_neq in Hf.
      rewrite trimStart_fixed_app by done.
      change (first +:+ " " +:+ "") with (first +:+ " "). by rewrite trimEnd_app_white.
  - apply String.eqb_neq in Hl.
    destruct (String.eqb first "") eqn:Hf.
    + apply String.eqb_eq in Hf as ->.
      change (trimStart ("" +:+ " " +:+ last)) with (trimStart last). by rewrite Hsl.
    + apply String.eqb_neq in Hf.
      rewrite trimStart_fixed_app by done.
      rewrite trimEnd_app by (rewrite trimEnd_app by (by rewrite Hel);
                              rewrite Hel; by destruct last).
      rewrite trimEnd_app by by rewrite Hel.
      by rewrite Hel.
Qed.

(** X15. The display name in closed form. With [name], [first] and [last]
    the trimmed name, first name and last name (each first name or last
    name read from the snake_case field, or else from the camelCase one):
    the display name is [name] when that is not empty; else [first] when
    [last] is empty; else [last] when [first] is empty; else [first], one
    space, [last]. So a user with only one of the two parts gets no stray
    space, and the display name is empty exactly when all three are. *)
Theorem displayUserName_closed_form (user : Obj) :
  let name := trim (or_empty (user !! "name")) in
  let first := trim (or_empty (js_or (user !! "first_name") (user !! "firstName"))) in
  let last := trim (or_empty (js_or (user !! "last_name") (user !! "lastName"))) in
  UsersAPI.displayUserName user =
    (if negb (String.eqb name "") then name
     else if String.eqb last "" then first
     else if String.eqb first "" then last
     else first +:+ " " +:+ last) ∧
  (UsersAPI.displayUserName user = "" ↔ name = "" ∧ first = "" ∧ last = "").
Proof.
  intros name first last.
  assert (UsersAPI.displayUserName user =
          (if negb (String.eqb name "") then name
           else if String.eqb last "" then first
           else if String.eqb first "" then last
           else first +:+ " " +:+ last)) as Hform.
  { unfold UsersAPI.displayUserName. fold name first last.
    destruct (negb (String.eqb name "")); [done|].
    apply trim_join; apply trim_fixed. }
  split; [done|]. rewrite Hform.
  destruct (String.eqb name "") eqn:Hn; cbn [negb].
  - apply String.eqb_eq in Hn.
    destruct (String.eqb last "") eqn:Hl.
    + apply String.eqb_eq in Hl. tauto.
    + apply String.eqb_neq in Hl.
      destruct (String.eqb first "") eqn:Hf.
      * tauto.
      * apply String.eqb_neq in Hf. split; [|tauto].
        intros Hempty. by destruct first.
  - apply String.eqb_neq in Hn. tauto.
Qed.

(** * The popup *)

Lemma trim_truthy s : truthy (Some (trim s)) = true ↔ trim s ≠ "".
Proof. apply truthy_Some. Qed.

Lemma get2LeggedToken_configured s :
  truthy (apsClientId (local s)) = true → truthy (apsClientSecret (local s)) = true →
  (get2LeggedToken s).1 ≠ Throw CredentialsNotConfigured.
Proof.
  intros Hid Hsecret. unfold get2LeggedToken. rewrite Hid, Hsecret. cbn [negb orb].
  destruct (fetchToken _ _ _) as [[|status text json] w']; cbn [fst snd]; [done|].
  destruct (negb (ok status)); [done|]. by destruct json.
Qed.

(** X17. Credentials saved through the popup are complete. A save stores
    the three fields trimmed, only when none of them is blank, and leaves
    the caches in storage alone; a field that is blank stops the save.
    After a save, a token request never fails for missing credentials: it
    sends its request with the trimmed client id and secret, and when it
    succeeds the session holds the saved account id, which is not
    empty. *)
Theorem saved_credentials_are_complete clientId clientSecret accountId s :
  (trim clientId = "" ∨ trim clientSecret = "" ∨ trim accountId = "" →
     Popup.save clientId clientSecret accountId (local s) = None) ∧
  (∀ lo, Popup.save clientId clientSecret accountId (local s) = Some lo →
     apsClientId lo = Some (trim clientId) ∧ trim clientId ≠ "" ∧
     apsClientSecret lo = Some (trim clientSecret) ∧ trim clientSecret ≠ "" ∧
     apsAccountId lo = Some (trim accountId) ∧ trim accountId ≠ "" ∧
     stored_companiesCache lo = stored_companiesCache (local s) ∧
     companiesCacheTimestamp lo = companiesCacheTimestamp (local s) ∧
     stored_projectsCache lo = stored_projectsCache (local s) ∧
     projectsCacheTimestamp lo = projectsCacheTimestamp (local s) ∧
     (get2LeggedToken (with_local lo s)).1 ≠ Throw CredentialsNotConfigured ∧
     exchange (world s) (world (get2LeggedToken (with_local lo s)).2)
       [PostToken (trim clientId) (trim clientSecret)] ∧
     (∀ token, (get2LeggedToken (with_local lo s)).1 = Return token →
        accAccountId (session (get2LeggedToken (with_local lo s)).2)
          = Some (trim accountId))).
Proof.
  unfold Popup.save. split.
  - intros Hblank.
    destruct (truthy (Some (trim clientId))) eqn:H1; [|done].
    destruct (truthy (Some (trim clientSecret))) eqn:H2; [|done].
    destruct (truthy (Some (trim accountId))) eqn:H3; [|done].
    apply trim_truthy in H1, H2, H3. tauto.
  - intros lo.
    destruct (truthy (Some (trim clientId))) eqn:H1; [|done].
    destruct (truthy (Some (trim clientSecret))) eqn:H2; [|done].
    destruct (truthy (Some (trim accountId))) eqn:H3; [|done].
    cbn [negb orb]. intros [= <-]. cbn [apsClientId apsClientSecret apsAccountId
      stored_companiesCache companiesCacheTimestamp stored_projectsCache
      projectsCacheTimestamp].
    pose proof (proj1 (trim_truthy _) H1). pose proof (proj1 (trim_truthy _) H2).
    pose proof (proj1 (trim_truthy _) H3).
    repeat (split; [done|]).
    set (lo := {| apsClientId := _ |}).
    destruct (get2LeggedToken_world (with_local lo s)) as (_ & _ & Hyes).
    destruct (get2LeggedToken_session (with_local lo s)) as (_ & Hreturn).
    cbn [with_local local world apsClientId apsClientSecret apsAccountId lo] in Hyes, Hreturn.
    rewrite H1, H2, !or_empty_Some in Hyes. specialize (Hyes eq_refl).
    split; [|split; [done|]].
    + by apply get2LeggedToken_configured.
    + intros token Htoken. by destruct (Hreturn token Htoken) as (_ & -> & _).
Qed.

Lemma saved_credentials_are_complete_witness :
  Popup.save " client " "secret" "  " (local example_worker) = None.
Proof.
  refine (proj1 (saved_credentials_are_complete " client " "secret" "  " example_worker) _).
  right. right. vm_compute. reflexivity.
Defined.

(** X18. The status line of the popup and the staleness the service worker
    reports. The popup shows "No cache built yet." exactly when the
    timestamp of the companies cache is missing or 0, and the service
    worker then calls the cache stale. Otherwise it shows the numbers of
    stored companies and projects and the age of the cache; it marks the
    cache stale when the age exceeds 24 hours, while the service worker
    calls it stale when the age exceeds 2 hours. So a cache marked stale by
    the popup is stale for the service worker, and a cache aged between 2
    and 24 hours is stale for the service worker only. *)
Theorem popup_status_and_staleness now lo :
  (Popup.loadCacheStatus now lo = Popup.NoCacheBuiltYet ↔
     or_null (companiesCacheTimestamp lo) = None) ∧
  (Popup.loadCacheStatus now lo = Popup.NoCacheBuiltYet →
     isCacheStale now (companiesCacheTimestamp lo) = true) ∧
  (∀ companyCount projectCount age stale,
     Popup.loadCacheStatus now lo = Popup.Built companyCount projectCount age stale →
     ∃ t, companiesCacheTimestamp lo = Some t ∧ age = now - t ∧
       companyCount = length (default [] (stored_companiesCache lo)) ∧
       projectCount = length (default [] (stored_projectsCache lo)) ∧
       (stale = true ↔ 12 * CACHE_MAX_AGE_MS < age) ∧
       (isCacheStale now (companiesCacheTimestamp lo) = true ↔ CACHE_MAX_AGE_MS < age) ∧
       (stale = true → isCacheStale now (companiesCacheTimestamp lo) = true)).
Proof.
  unfold Popup.loadCacheStatus, or_null, isCacheStale.
  destruct (companiesCacheTimestamp lo) as [t|]; [|done].
  destruct (t =? 0) eqn:Ht; [done|]. cbn [orb].
  split; [done|]. split; [done|].
  intros companyCount projectCount age stale [= <- <- <- <-].
  exists t. unfold CACHE_MAX_AGE_MS. rewrite !Z.ltb_lt.
  repeat split; try done; lia.
Qed.

Lemma popup_status_and_staleness_witness :
  isCacheStale 1700010800000 (companiesCacheTimestamp
     (local (triggerCacheBuild (H:=codeUnitCollator) example_worker).2)) = true ↔
  CACHE_MAX_AGE_MS < 10800000.
Proof.
  destruct (proj2 (proj2 (popup_status_and_staleness 1700010800000
              (local (triggerCacheBuild (H:=codeUnitCollator) example_worker).2)))
              1%nat 1%nat 10800000 false) as (t & _ & _ & _ & _ & _ & Hstale & _).
  - vm_compute. reflexivity.
  - exact Hstale.
Defined.

(** * Writes and successes *)

Lemma resumeTask_writes `{Collator} id ts s :
  (length (localWrites (resumeTask id ts s).2)
   + length (filter (λ t : nat * Task, ∃ caches, t.2 = AwaitStored caches) ts)
   = length (localWrites s)
     + length (filter (λ o : nat * Completion (list CompanyEntry), ∃ cc, o.2 = Return cc)
                      (resumeTask id ts s).1.2)
     + length (filter (λ t : nat * Task, ∃ caches, t.2 = AwaitStored caches)
                      (resumeTask id ts s).1.1))%nat.
Proof.
  induction ts as [|[id' t] ts IH]; [cbn; lia|].
  cbn [resumeTask]. destruct (Nat.eqb id' id).
  - destruct (resume t s) as [[t'|c] s'] eqn:Hr; cbn [fst snd].
    + rewrite !filter_cons. cbn [snd].
      destruct t; cbn [resume] in Hr.
      * destruct (ensureToken s) as [[token|e] s1] eqn:He; [|done].
        injection Hr as <- <-. apply ensureToken_frame in He as (_ & [_ ->] & _).
        rewrite !decide_False by (by intros [? ?]). cbn. lia.
      * destruct (negb _); [done|]. injection Hr as <- <-.
        rewrite !decide_False by (by intros [? ?]). cbn. lia.
      * destruct (buildCompaniesCache _ _ _) as [[caches|e] w1]; [|done].
        injection Hr as <- <-.
        rewrite decide_False by (by intros [? ?]).
        rewrite decide_True by (by eexists).
        cbn [local_set localWrites with_world length]. rewrite length_app. cbn. lia.
      * done.
    + rewrite !filter_cons. cbn [snd filter length].
      destruct t; cbn [resume] in Hr.
      * destruct (ensureToken s) as [[token|e] s1] eqn:He; [done|].
        injection Hr as <- <-. apply ensureToken_frame in He as (_ & [_ Hw] & _).
        cbn [with_cacheBuilding localWrites]. rewrite Hw.
        rewrite !decide_False by (by intros [? ?]). cbn. lia.
      * destruct (negb _); [|done]. injection Hr as <- <-.
        rewrite !decide_False by (by intros [? ?]). cbn. lia.
      * destruct (buildCompaniesCache _ _ _) as [[caches|e] w1]; [done|].
        injection Hr as <- <-.
        rewrite !decide_False by (by intros [? ?]). cbn. lia.
      * injection Hr as <- <-.
        rewrite !decide_True by (by eexists). cbn. lia.
  - cbn [fst snd]. rewrite !filter_cons. cbn [snd].
    destruct (decide (∃ caches, t = AwaitStored caches)); cbn [length]; lia.
Qed.

Lemma step_writes_successes `{Collator} e sys :
  length (localWrites (worker sys)) =
    (length (successes sys) + length (storedTasks sys))%nat →
  length (localWrites (worker (step e sys))) =
    (length (successes (step e sys)) + length (storedTasks (step e sys)))%nat.
Proof.
  unfold successes, storedTasks. destruct sys as [s ts os].
  destruct e as [id|id|se w t]; cbn [step worker tasks outcomes]; intros Hinv.
  - destruct (cacheBuilding s); cbn [worker tasks outcomes with_cacheBuilding localWrites].
    + rewrite filter_app, length_app, filter_cons, filter_nil.
      destruct (decide _) as [[? ?]|]; [done|]. cbn [length] in *. lia.
    + rewrite filter_app, length_app, filter_cons, filter_nil.
      destruct (decide _) as [[? ?]|]; [done|]. cbn [length] in *. lia.
  - rewrite filter_app, length_app. pose proof (resumeTask_writes id ts s). lia.
  - done.
Qed.

(** X19. Writes and successes. In every run of the service worker from
    its start, whatever is invoked, resumed or done in between, the number
    of writes to local storage is the number of invocations that have
    settled with a result, plus the invocation, if any, that has written
    and not yet settled: no invocation reports success without its write,
    and none writes twice. *)
Theorem writes_match_successes `{Collator} lo se w t es :
  let sys := run es (boot lo se w t) in
  length (localWrites (worker sys)) =
    (length (successes sys) + length (storedTasks sys))%nat ∧
  (length (storedTasks sys) ≤ 1)%nat.
Proof.
  intros sys. split.
  - subst sys. induction es as [|e es IH] using rev_ind; [done|].
    rewrite run_app. cbn [run foldl]. by apply step_writes_successes.
  - pose proof (run_singleFlight es (boot lo se w t) (boot_singleFlight lo se w t)) as Hsf.
    apply singleFlight_flag in Hsf as [Hlen _]. fold sys in Hlen.
    unfold storedTasks. etrans; [apply length_filter|done].
Qed.

Lemma resolveAmongCompanies_Some cache projectName pid :
  resolveAmongCompanies cache projectName = Some pid →
  ∃ C P, C ∈ cache ∧ P ∈ ce_projects C ∧ pr_name P = projectName ∧ pr_uuid P = pid.
Proof.
  induction cache as [|company rest IH]; [done|]. cbn [resolveAmongCompanies].
  destruct (List.find _ (ce_projects company)) as [P|] eqn:Hfind.
  - intros [= <-]. apply find_Some_elem_of in Hfind as [Hin Heq%String.eqb_eq].
    exists company, P. split; [apply list_elem_of_here|done].
  - intros (C & P & HC & HP)%IH. exists C, P. split; [by apply list_elem_of_further|done].
Qed.

(** X20. Resolving a project name from the caches of one build. The
    answer, when there is one, is the uuid of an entry of the projects
    cache that has this name; this also holds when only the companies
    cache is loaded, so the scan of the companies cache finds nothing the
    projects cache does not hold. Every name a fetched project with an id
    carries is resolved: the function goes on to the network exactly when
    no fetched project with an id has the name. *)
Theorem project_names_resolve_from_the_caches `{Collator}
    token accountId w caches w' raw projectName :
  buildCompaniesCache token accountId w = (Return caches, w') →
  fetchRaw token accountId w = Some raw →
  (∀ loaded pid,
     loaded = Some (projectsCache caches) ∨ loaded = None →
     resolveProjectId_cached loaded (Some (companiesCache caches)) projectName = Some pid →
     ∃ PP, PP ∈ projectsCache caches ∧ pe_name PP = projectName ∧ pe_uuid PP = pid) ∧
  (resolveProjectId_cached (Some (projectsCache caches)) (Some (companiesCache caches))
     projectName = None ↔
   ∀ project, project ∈ raw_projects raw → hasId project →
              or_empty (project !! "name") ≠ projectName).
Proof.
  intros Hb Hraw. pose proof Hb as (raw' & Hraw' & ->)%buildCompaniesCache_Return.
  assert (raw' = raw) as -> by congruence. clear Hraw'.
  unfold resolveProjectId_cached. cbn zeta.
  assert (∀ pid, resolveAmongCompanies (companiesCache (assemble raw)) projectName
                   = Some pid →
                 ∃ PP, PP ∈ projectsCache (assemble raw) ∧ pe_name PP = projectName ∧
                       pe_uuid PP = pid) as Hscan.
  { intros pid (C & P & HC & HP & Hname & Hpid)%resolveAmongCompanies_Some.
    destruct (nested_project_entry token accountId w raw Hraw C P HC HP)
      as (PP & HPP & Hu & Hn & _).
    exists PP. split; [done|]. split; congruence. }
  split.
  - intros loaded pid [-> | ->]; [|apply Hscan].
    destruct (List.find _ (projectsCache (assemble raw))) as [PP|] eqn:Hfind;
      [|apply Hscan].
    apply find_Some_elem_of in Hfind as [Hin Heq%String.eqb_eq].
    intros [= <-]. by exists PP.
  - destruct (List.find _ (projectsCache (assemble raw))) as [PP|] eqn:Hfind.
    + apply find_Some_elem_of in Hfind as [Hin Heq%String.eqb_eq].
      split; [done|]. intros Hnone.
      apply elem_of_projectsCache in Hin as (project & Hp & Hid & ->).
      by destruct (Hnone project Hp Hid).
    + assert (∀ project, project ∈ raw_projects raw → hasId project →
                or_empty (project !! "name") ≠ projectName) as Hno.
      { intros project Hp Hid Hname.
        assert (is_Some (List.find (λ p, String.eqb (pe_name p) projectName)
                           (projectsCache (assemble raw)))) as [? ?]; [|congruence].
        eapply find_is_Some.
        - apply elem_of_projectsCache. by exists project.
        - cbn [projectEntry pe_name]. by apply String.eqb_eq. }
      split; [done|]. intros _.
      destruct (resolveAmongCompanies _ _) as [pid|] eqn:Hres; [|done].
      destruct (Hscan pid eq_refl) as (PP & (project & Hp & Hid & ->)%elem_of_projectsCache
                                        & Hname & _).
      by destruct (Hno project Hp Hid).
Qed.

Lemma project_names_resolve_from_the_caches_witness :
  ∃ PP, PP ∈ projectsCache example_caches ∧ pe_name PP = "Tower" ∧ pe_uuid PP = "p1".
Proof.
  refine (proj1 (@project_names_resolve_from_the_caches codeUnitCollator (Some "token")
                   "account" example example_caches _ example_raw "Tower"
                   example_build example_fetchRaw) None "p1" _ _).
  - by right.
  - vm_compute. reflexivity.
Defined.

(** * The content script's companies of a project *)

Lemma companyIdsOf_spec members :
  NoDup (ContentAPI.companyIdsOf members) ∧
  ∀ id, id ∈ ContentAPI.companyIdsOf members ↔
        id ≠ "" ∧ ∃ m, m ∈ members ∧ m !! "companyId" = Some id.
Proof.
  unfold ContentAPI.companyIdsOf.
  assert (∀ acc, NoDup acc →
            NoDup (foldl (λ companyIds m,
                            if truthy (m !! "companyId")
                            then Set_add (or_empty (m !! "companyId")) companyIds
                            else companyIds) acc members) ∧
            ∀ id, id ∈ foldl (λ companyIds m,
                                if truthy (m !! "companyId")
                                then Set_add (or_empty (m !! "companyId")) companyIds
                                else companyIds) acc members ↔
                  id ∈ acc ∨ (id ≠ "" ∧ ∃ m, m ∈ members ∧ m !! "companyId" = Some id))
    as Hgen.
  { induction members as [|m members IH]; intros acc Hacc; cbn [foldl].
    - split; [done|]. intros id. split; [by left|].
      intros [?|(_ & m & ?%elem_of_nil & _)]; done.
    - destruct (truthy (m !! "companyId")) eqn:Hm.
      + assert (NoDup (Set_add (or_empty (m !! "companyId")) acc)) as Hadd.
        { unfold Set_add. destruct (Set_has acc _) eqn:Hhas; [done|].
          apply NoDup_app. split; [done|]. split; [|apply NoDup_singleton].
          intros x Hx ->%list_elem_of_singleton. apply Set_has_spec in Hx. congruence. }
        destruct (IH _ Hadd) as [Hnd Hin]. split; [done|]. intros id.
        rewrite Hin, elem_of_Set_add. apply truthy_spec in Hm as (c & Hc & Hne).
        rewrite Hc, or_empty_Some. split.
        * intros [[->|?]|(? & m' & ? & ?)].
          -- right. split; [done|]. exists m. split; [apply list_elem_of_here|done].
          -- by left.
          -- right. split; [done|]. exists m'. split; [by apply list_elem_of_further|done].
        * intros [?|(? & m' & [->|?]%elem_of_cons & Hm')].
          -- left. by right.
          -- left. left. congruence.
          -- right. split; [done|]. by exists m'.
      + destruct (IH _ Hacc) as [Hnd Hin]. split; [done|]. intros id. rewrite Hin.
        split.
        * intros [?|(? & m' & ? & ?)]; [by left|].
          right. split; [done|]. exists m'. split; [by apply list_elem_of_further|done].
        * intros [?|(Hne & m' & [->|?]%elem_of_cons & Hm')]; [by left| |].
          -- rewrite Hm' in Hm. cbn in Hm. apply negb_false_iff, String.eqb_eq in Hm. done.
          -- right. split; [done|]. by exists m'. }
  destruct (Hgen [] NoDup_nil_2) as [Hnd Hin]. split; [done|].
  intros id. rewrite Hin. split; [|by right]. intros [?%elem_of_nil|?]; done.
Qed.

Lemma companyIdsOf_first members :
  ContentAPI.companyIdsOf members =
  firstOccurrences ((λ m, or_empty (m !! "companyId"))
                      <$> filter (λ m, truthy (m !! "companyId")) members).
Proof.
  unfold ContentAPI.companyIdsOf, firstOccurrences. generalize (@nil string).
  induction members as [|m members IH]; intros acc; [done|].
  cbn [foldl]. rewrite filter_cons.
  destruct (decide (truthy (m !! "companyId"))) as [Hm|Hm].
  - rewrite (Is_true_eq_true _ Hm). cbn [fmap list_fmap foldl]. apply IH.
  - apply Is_true_false_1 in Hm. rewrite Hm. apply IH.
Qed.

Lemma derived_companies members :
  NoDup (idOf <$> ((λ id : string, ({[ "id" := id ]} : Obj))
                     <$> ContentAPI.companyIdsOf members)) ∧
  Forall (λ comp : Obj, hasId comp ∧ comp = {[ "id" := idOf comp ]})
         ((λ id : string, ({[ "id" := id ]} : Obj)) <$> ContentAPI.companyIdsOf members) ∧
  ∀ id, id ∈ idOf <$> ((λ id : string, ({[ "id" := id ]} : Obj))
                         <$> ContentAPI.companyIdsOf members) ↔
        id ≠ "" ∧ ∃ m, m ∈ members ∧ m !! "companyId" = Some id.
Proof.
  destruct (companyIdsOf_spec members) as [Hnd Hin].
  assert (∀ id : string, idOf ({[ "id" := id ]} : Obj) = id) as Hid.
  { intros id. unfold idOf. by rewrite lookup_singleton_eq, or_empty_Some. }
  assert (idOf <$> ((λ id : string, ({[ "id" := id ]} : Obj))
                      <$> ContentAPI.companyIdsOf members)
          = ContentAPI.companyIdsOf members) as Hids.
  { rewrite <- list_fmap_compose.
    rewrite <- (list_fmap_id (ContentAPI.companyIdsOf members)) at 2.
    apply list_fmap_ext. intros _ id _. apply Hid. }
  rewrite Hids. split; [done|]. split; [|done].
  apply Forall_fmap, Forall_forall. intros id Hidin. cbn. rewrite Hid. split; [|done].
  unfold hasId. rewrite lookup_singleton_eq. apply Is_true_true, truthy_Some.
  by apply Hin in Hidin as [? _].
Qed.

(** X21. The companies of a project as the content script obtains them.
    When the companies endpoint returns records, these are the answer and
    the members of the project are not requested. When it returns none,
    the function sends exactly one members request, with the same token,
    and takes one response. From a success response that holds a list of
    members the answer is one record for each distinct non-empty
    [companyId] among them, in the order in which these first occur,
    holding nothing but that id. From a success response that holds no
    list, from a response that is not a success, and when the request is
    rejected, the answer is empty. *)
Theorem companies_of_a_project_fall_back_to_its_members token accountId projectId w :
  let primary := CompaniesAPI.fetchProjectCompanies token accountId projectId w in
  let r := ContentAPI.fetchProjectCompanies token accountId projectId w in
  (primary.1 ≠ [] → r = (primary.1, primary.2, [])) ∧
  (primary.1 = [] →
     r.2 = [ {| ContentAPI.mr_projectId := projectId; ContentAPI.mr_token := token |} ] ∧
     pending r.1.2 = drop 1 (pending primary.2) ∧
     sent r.1.2 = sent primary.2 ∧ progress r.1.2 = progress primary.2 ∧
     NoDup (idOf <$> r.1.1) ∧
     Forall (λ comp, hasId comp ∧ comp = {[ "id" := idOf comp ]}) r.1.1 ∧
     (∀ status text json members rest,
        pending primary.2 = Http status text json :: rest → ok status = true →
        resultsBatch json = Some members →
        r.1.1 = (λ id, {[ "id" := id ]})
                <$> firstOccurrences ((λ m, or_empty (m !! "companyId"))
                                        <$> filter (λ m, truthy (m !! "companyId")) members) ∧
        ∀ id, id ∈ idOf <$> r.1.1 ↔ id ≠ "" ∧ ∃ m, m ∈ members ∧ m !! "companyId" = Some id) ∧
     (∀ status text json rest,
        pending primary.2 = Http status text json :: rest → ok status = true →
        resultsBatch json = None → r.1.1 = []) ∧
     (failsAtOnce (pending primary.2) → r.1.1 = [])).
Proof.
  intros primary r. subst r. unfold ContentAPI.fetchProjectCompanies. fold primary.
  split.
  { intros Hne. destruct (0 <? len primary.1) eqn:Hlen; [done|].
    apply Z.ltb_ge in Hlen. destruct (primary.1); [done|]. unfold len in Hlen. cbn in Hlen. lia. }
  intros Hempty. rewrite Hempty. cbn [len length Z.ltb Z.compare Z.of_nat].
  destruct (pending primary.2) as [|resp rest] eqn:Hpending; cbn [fst snd].
  { repeat (split; [done|]). split; [apply NoDup_nil_2|]. by repeat (split; [done|]). }
  destruct resp as [|status text json]; cbn [fst snd sent pending progress drop].
  { repeat (split; [done|]). split; [apply NoDup_nil_2|]. by repeat (split; [done|]). }
  destruct (ok status) eqn:Hok; cbn [fst snd sent pending progress].
  2:{ repeat (split; [done|]). split; [apply NoDup_nil_2|]. split; [done|].
      split; [|done]. intros ? ? ? ? ? [= <- _ _ _] ?. congruence. }
  assert (∀ js : Body, notOk (Http status text js) ∨ thrown (Http status text js) →
                       js = BadJson) as Hfails.
  { intros js [(? & ? & ? & [= <- _ _] & ?)|[?|(? & ? & [= _ _ ?] & _)]]; congruence. }
  destruct (resultsBatch json) as [members|] eqn:Hbatch.
  - assert (json ≠ BadJson) as Hjson by (by intros ->).
    assert ((match json with
             | BadJson =>
                 ([], {| pending := rest; sent := sent primary.2;
                         progress := progress primary.2 |},
                  [ {| ContentAPI.mr_projectId := projectId;
                       ContentAPI.mr_token := token |} ])
             | _ =>
                 ((λ id : string, ({[ "id" := id ]} : Obj))
                    <$> ContentAPI.companyIdsOf members,
                  {| pending := rest; sent := sent primary.2;
                     progress := progress primary.2 |},
                  [ {| ContentAPI.mr_projectId := projectId;
                       ContentAPI.mr_token := token |} ])
             end) =
            ((λ id : string, ({[ "id" := id ]} : Obj)) <$> ContentAPI.companyIdsOf members,
             {| pending := rest; sent := sent primary.2; progress := progress primary.2 |},
             [ {| ContentAPI.mr_projectId := projectId; ContentAPI.mr_token := token |} ]))
      as -> by (by destruct json).
    cbn [fst snd sent pending progress].
    destruct (derived_companies members) as (Hnd & Hall & Hin).
    repeat (split; [done|]). split; [|split].
    + intros ? ? ? members' ? [= <- <- <- <-] _ Hb. rewrite Hbatch in Hb.
      injection Hb as <-. split; [by rewrite companyIdsOf_first|exact Hin].
    + intros ? ? ? ? [= <- <- <- <-] _ Hb. congruence.
    + intros Hfail. by apply Hfails in Hfail.
  - assert ((match json with
             | BadJson =>
                 ([], {| pending := rest; sent := sent primary.2;
                         progress := progress primary.2 |},
                  [ {| ContentAPI.mr_projectId := projectId;
                       ContentAPI.mr_token := token |} ])
             | _ =>
                 (@nil Obj,
                  {| pending := rest; sent := sent primary.2;
                     progress := progress primary.2 |},
                  [ {| ContentAPI.mr_projectId := projectId;
                       ContentAPI.mr_token := token |} ])
             end) =
            (@nil Obj,
             {| pending := rest; sent := sent primary.2; progress := progress primary.2 |},
             [ {| ContentAPI.mr_projectId := projectId; ContentAPI.mr_token := token |} ]))
      as -> by (by destruct json).
    cbn [fst snd sent pending progress].
    repeat (split; [done|]). split; [apply NoDup_nil_2|]. split; [done|].
    split; [|done]. intros ? ? ? members' ? [= <- <- <- <-] _ Hb. congruence.
Qed.

Lemma companies_of_a_project_fall_back_to_its_members_witness :
  (ContentAPI.fetchProjectCompanies (Some "token") "account" "p1"
     (script [page []; resultsPage example_roster None])).1.1 =
  [ {[ "id" := "c1" ]} ].
Proof.
  destruct (proj2 (companies_of_a_project_fall_back_to_its_members (Some "token") "account"
                     "p1" (script [page []; resultsPage example_roster None])) eq_refl)
    as (_ & _ & _ & _ & _ & _ & Hmembers & _).
  destruct (Hmembers 200 None (JPage (Some example_roster) None) example_roster []
              eq_refl eq_refl eq_refl) as [Hanswer _].
  rewrite Hanswer. vm_compute. reflexivity.
Defined.

(** X22. The popup after a build. When the build button's message is
    answered with a count, the "Done!" line shows the number of companies
    of the cache that one build stored, and the status line, reloaded at
    any later clock reading, shows the same number of companies, the
    number of projects stored with them and the time since the build; an
    error answer leaves local storage as it was. A build that ran at the
    clock reading 0 is shown as "No cache built yet.". *)
Theorem popup_after_build `{Collator} s t :
  let answer := onMessage BUILD_CACHE s in
  match Popup.onBuildResponse answer.1 t (local answer.2) with
  | Popup.BuildError e => local answer.2 = local s
  | Popup.BuildDone count status =>
      ∃ token accountId w caches w',
        buildCompaniesCache token accountId w = (Return caches, w') ∧
        count = Some (length (companiesCache caches)) ∧
        stored_companiesCache (local answer.2) = Some (companiesCache caches) ∧
        stored_projectsCache (local answer.2) = Some (projectsCache caches) ∧
        (now s ≠ 0 →
           status = Popup.Built (length (companiesCache caches))
                                (length (projectsCache caches))
                                (t - now s) (12 * CACHE_MAX_AGE_MS <? t - now s)) ∧
        (now s = 0 → status = Popup.NoCacheBuiltYet)
  end.
Proof.
  cbn zeta. cbn [onMessage].
  destruct (triggerCacheBuild s) as [[cc|e] s'] eqn:Hb; cbn [fst snd Popup.onBuildResponse].
  - apply triggerCacheBuild_Return in Hb
      as (_ & _ & _ & token & accountId & w & caches & w' & Hbuild & -> & Hcc & Hpc
          & Hct & _).
    exists token, accountId, w, caches, w'.
    unfold Popup.loadCacheStatus. rewrite Hct, Hcc, Hpc. cbn [default].
    repeat (split; [done|]). split.
    + intros Hne. by rewrite (proj2 (Z.eqb_neq _ _)).
    + intros ->. done.
  - unfold triggerCacheBuild in Hb. destruct (cacheBuilding s); [by injection Hb as _ <-|].
    destruct (triggerCacheBuild_try _) as [r s1] eqn:Htry.
    apply triggerCacheBuild_try_spec in Htry. injection Hb as -> <-.
    by destruct Htry as [[Hl _] _].
Qed.

Lemma popup_after_build_witness :
  ∃ caches,
    Popup.loadCacheStatus 1700000000001
      (local (onMessage (H:=codeUnitCollator) BUILD_CACHE example_worker).2) =
    Popup.Built (length (companiesCache caches)) (length (projectsCache caches)) 1 false.
Proof.
  pose proof (@popup_after_build codeUnitCollator example_worker 1700000000001) as Hx.
  cbn zeta in Hx.
  assert ((onMessage (H:=codeUnitCollator) BUILD_CACHE example_worker).1 = BuildReply 1)
    as Hreply by (vm_compute; reflexivity).
  rewrite Hreply in Hx. cbn [Popup.onBuildResponse] in Hx.
  destruct Hx as (token & accountId & w & caches & w' & _ & _ & _ & _ & Hstatus & _).
  exists caches. rewrite Hstatus by (vm_compute; discriminate). reflexivity.
Defined.
